(** * LegalPDF: a shallow embedding of the application logic

    The repository is a React/TypeScript browser application
    ([src/App.tsx], [src/services/pdfService.ts],
    [src/services/geminiService.ts], type declarations in [types]).
    This development embeds the parts that carry logic of their own:

    - the grouping of (foro, processo) pairs into a [GroupedProcesses]
      object (the [forEach] block repeated in [processFileForExtraction],
      [processModalityForOcr] and [analyzeWorkspaceFile]);
    - [splitPdf], the page-range loop of the PDF service;
    - the workspace ledger operations ([stopAnalysis],
      [toggleFileSelection], [toggleAllSelection], [handleSplit]);
    - the asynchronous tasks ([processFileForExtraction],
      [processModalityForOcr], [analyzeWorkspaceFile],
      [analyzeBatchSequential]) as a transition system whose steps are
      the synchronous segments between two [await]s, interleaved with
      user events;
    - the two history effects (load at mount, save on change) and the
      part of the render that reads the history ([globalForos]).

    Strings are Rocq strings, i.e. sequences of bytes holding the UTF-8
    encoding of the JavaScript text.  JavaScript numbers that hold page
    counts and indices are integers here ([Z]).  React state setters are
    applied at once; values captured by a closure at render time
    ([isSequentialRunning], [searchQuery], the [file] object) are carried
    by the task that captured them.  The external collaborators
    ([extractTextFromPdf], [fileToBase64], [extractLegalData],
    [extractLegalDataFromModality], [crypto.randomUUID], [Date.now],
    [JSON]) enter through the events that carry their results.

    Left out: the exports and the markup of the render. *)

From Stdlib Require Import ZArith String Ascii List Lia DecimalString.
From stdpp Require Import base strings gmap list.

(* ===================================================================== *)
(** * Definitions *)
(* ===================================================================== *)

(** ** JavaScript values and built-ins used by the source *)

Module JS.

(** Completion of a block of statements: normal, or an exception whose
    [message] is what [err.message] reads. *)
Inductive Completion (A : Type) : Type :=
| Normal (a : A)
| Throw (message : string).
Arguments Normal {A} a.
Arguments Throw {A} message.

(** A promise that has settled. *)
Inductive Settled (A : Type) : Type :=
| Resolved (a : A)
| Rejected (message : string).
Arguments Resolved {A} a.
Arguments Rejected {A} message.

(** [x || y] on strings: the empty string is falsy. *)
Definition or_else (x y : string) : string :=
  if bool_decide (x = "") then y else x.

(** Truthiness of a string, as in [searchQuery ? a : b]. *)
Definition truthy_string (x : string) : bool :=
  negb (bool_decide (x = "")).

(** Template-literal rendering of an integral number. *)
Definition number_to_string (n : Z) : string :=
  NilZero.string_of_int (Z.to_int n).

(** *** Array indices and the order of own property keys

    [Object.keys], [Object.entries] and [for-in] list the own string
    keys of an ordinary object with the array indices first, in
    ascending numeric order, and then the other keys in the order in
    which the properties were created.  An array index is the
    canonical decimal spelling of an integer between 0 and 2^32 - 2. *)

Definition digit_of (a : ascii) : option N :=
  let n := N_of_ascii a in
  if ((48 <=? n) && (n <=? 57))%N then Some (n - 48)%N else None.

Fixpoint digits (s : string) (acc : N) : option N :=
  match s with
  | EmptyString => Some acc
  | String a s' =>
      match digit_of a with
      | Some d => digits s' (10 * acc + d)%N
      | None => None
      end
  end.

Definition array_index (k : string) : option N :=
  match k with
  | EmptyString => None
  | String a rest =>
      if (N_of_ascii a =? 48)%N && negb (bool_decide (rest = ""))
      then None
      else match digits k 0%N with
           | Some n => if (n <=? 4294967294)%N then Some n else None
           | None => None
           end
  end.

Fixpoint insert_index (e : N * string) (l : list (N * string))
  : list (N * string) :=
  match l with
  | [] => [e]
  | e' :: l' =>
      if (e.1 <=? e'.1)%N then e :: l else e' :: insert_index e l'
  end.

Definition sort_index (l : list (N * string)) : list (N * string) :=
  foldr insert_index [] l.

Definition index_keys (ks : list string) : list (N * string) :=
  omap (fun k => (fun n => (n, k)) <$> array_index k) ks.

(** The listing order of own keys, given their creation order. *)
Definition own_property_order (ks : list string) : list string :=
  (sort_index (index_keys ks)).*2
    ++ filter (fun k => array_index k = None) ks.

(** *** Properties every plain object inherits

    [{}] inherits from [Object.prototype]; reading one of these names
    on an object that has no own property of that name yields a
    function (or, for [__proto__], the prototype object): a truthy
    value that has no [push] method. *)
Definition object_prototype_names : list string :=
  [ "constructor"; "__proto__"; "hasOwnProperty"; "isPrototypeOf";
    "propertyIsEnumerable"; "toLocaleString"; "toString"; "valueOf";
    "__defineGetter__"; "__defineSetter__"; "__lookupGetter__";
    "__lookupSetter__" ].

Definition inherited (k : string) : bool :=
  bool_decide (k ∈ object_prototype_names).

(** *** [String.prototype.trim]

    [!s.trim()] holds exactly when [s] consists of white space and
    line terminators only.  On the UTF-8 bytes of the text these are
    TAB, LF, VT, FF, CR, SPACE, U+00A0, U+1680, U+2000..U+200A,
    U+2028, U+2029, U+202F, U+205F, U+3000 and U+FEFF. *)
Definition ascii_space (a : N) : bool :=
  ((9 <=? a) && (a <=? 13) || (a =? 32))%N.

Definition space3 (a b c : N) : bool :=
  ((a =? 225) && (b =? 154) && (c =? 128)
   || (a =? 226) && (b =? 128)
        && ((128 <=? c) && (c <=? 138) || (c =? 168) || (c =? 169)
            || (c =? 175))
   || (a =? 226) && (b =? 129) && (c =? 159)
   || (a =? 227) && (b =? 128) && (c =? 128)
   || (a =? 239) && (b =? 187) && (c =? 191))%N.

Fixpoint all_whitespace (bs : list N) : bool :=
  match bs with
  | [] => true
  | a :: t1 =>
      if ascii_space a then all_whitespace t1
      else match t1 with
           | [] => false
           | b :: t2 =>
               if ((a =? 194) && (b =? 160))%N then all_whitespace t2
               else match t2 with
                    | [] => false
                    | c :: t3 =>
                        if space3 a b c then all_whitespace t3 else false
                    end
           end
  end.

(** [trim_is_empty s] is [!s.trim()]. *)
Definition trim_is_empty (s : string) : bool :=
  all_whitespace (N_of_ascii <$> list_ascii_of_string s).

End JS.

Import JS.

(** ** The type declarations ([LegalProcess], [GroupedProcesses], ...) *)

Record LegalProcess : Type := { foro : string; processo : string }.

(** [interface GroupedProcesses { [foro: string]: string[] }]: a plain
    object used as a map.  The embedding keeps its own properties as an
    association list in creation order; [Object_keys] gives the order
    in which [Object.entries] and [Object.keys] enumerate them. *)
Definition GroupedProcesses : Type := list (string * list string).

Record ExtractionResult : Type := { processes : list LegalProcess }.

Fixpoint own_get (g : GroupedProcesses) (k : string) : option (list string) :=
  match g with
  | [] => None
  | (k', vs) :: g' => if bool_decide (k' = k) then Some vs else own_get g' k
  end.

(** [g[k].push(v)] on an own array property. *)
Fixpoint own_push (g : GroupedProcesses) (k v : string) : GroupedProcesses :=
  match g with
  | [] => []
  | (k', vs) :: g' =>
      if bool_decide (k' = k) then (k', vs ++ [v]) :: g'
      else (k', vs) :: own_push g' k v
  end.

Definition Object_keys (g : GroupedProcesses) : list string :=
  own_property_order g.*1.

(** ** The aggregation block

<<
  const grouped: GroupedProcesses = {};
  if (extracted.processes && extracted.processes.length > 0) {
    extracted.processes.forEach((p) => {
      if (!grouped[p.foro]) grouped[p.foro] = [];
      grouped[p.foro].push(p.processo);
    });
  }
>>
    [push_process] is the body of the callback.  When [grouped] has an
    own property [p.foro] it is an array and the push appends.  When it
    has none, the read goes to [Object.prototype]: for an inherited name
    the value is truthy, no array is created and the call of [push]
    raises a [TypeError]; otherwise a fresh array is created and
    pushed to. *)

Definition push_not_a_function : string :=
  "grouped[p.foro].push is not a function".

Definition push_process (g : GroupedProcesses) (p : LegalProcess)
  : Completion GroupedProcesses :=
  match own_get g (foro p) with
  | Some _ => Normal (own_push g (foro p) (processo p))
  | None =>
      if inherited (foro p) then Throw push_not_a_function
      else Normal (g ++ [(foro p, [processo p])])
  end.

Fixpoint forEach_push (ps : list LegalProcess) (g : GroupedProcesses)
  : Completion GroupedProcesses :=
  match ps with
  | [] => Normal g
  | p :: ps' =>
      match push_process g p with
      | Normal g' => forEach_push ps' g'
      | Throw m => Throw m
      end
  end.

Definition groupByForo (ps : list LegalProcess) : Completion GroupedProcesses :=
  match ps with
  | [] => Normal []
  | _ :: _ => forEach_push ps []
  end.

(** The grouping as the specification words it: the venues in order of
    first occurrence, each with the sub-sequence of its case numbers. *)
Fixpoint first_occurrences (l : list string) : list string :=
  match l with
  | [] => []
  | x :: l' => x :: filter (fun y => y ≠ x) (first_occurrences l')
  end.

Definition processos_of (k : string) (ps : list LegalProcess) : list string :=
  processo <$> filter (fun p => foro p = k) ps.

Definition grouped_spec (ps : list LegalProcess) : GroupedProcesses :=
  (fun k => (k, processos_of k ps)) <$> first_occurrences (foro <$> ps).


(** ** The PDF service: [splitPdf]

    A document is represented by its number of pages; the blob of a
    part is the list of (0-based) indices of the pages of the source
    document copied into it, in the order of [pagesToCopy]. *)

Module Part.
Record t : Type := { name : string; blob : list Z; pageCount : Z }.
End Part.

(** The template literal [`Parte ${n} (Págs ${a}-${b})`]. *)
Definition part_name (n a b : Z) : string :=
  "Parte " +:+ number_to_string n +:+ " (Págs " +:+ number_to_string a
    +:+ "-" +:+ number_to_string b +:+ ")".

(** [Array.from({ length: endPage - i }, (_, index) => i + index)]; a
    negative length yields the empty array. *)
Definition pagesToCopy (i endPage : Z) : list Z :=
  (fun index => i + index)%Z <$> seqZ 0 (endPage - i).

(** The [for] loop of [splitPdf], one iteration per unit of fuel:
    [None] when the fuel runs out while the loop condition still holds. *)
Fixpoint split_loop (fuel : nat) (totalPages pagesPerPart i : Z)
    (parts : list Part.t) : option (list Part.t) :=
  if (i <? totalPages)%Z then
    match fuel with
    | O => None
    | S fuel' =>
        let endPage := Z.min (i + pagesPerPart) totalPages in
        let part :=
          {| Part.name := part_name (Z.of_nat (length parts) + 1) (i + 1) endPage;
             Part.blob := pagesToCopy i endPage;
             Part.pageCount := endPage - i |} in
        split_loop fuel' totalPages pagesPerPart (i + pagesPerPart)
                   (parts ++ [part])
    end
  else Some parts.

Definition splitPdf (fuel : nat) (totalPages pagesPerPart : Z)
  : option (list Part.t) :=
  split_loop fuel totalPages pagesPerPart 0 [].

(** The parts as the specification words them: part [j] (counted from 0)
    covers the contiguous pages [j * pagesPerPart + 1 .. min ((j + 1) *
    pagesPerPart) totalPages], and there are [ceil (totalPages /
    pagesPerPart)] of them. *)
Definition ceil_div (a b : Z) : Z := ((a + b - 1) / b)%Z.

Definition nth_part (totalPages pagesPerPart j : Z) : Part.t :=
  let first := (j * pagesPerPart)%Z in
  let last := Z.min ((j + 1) * pagesPerPart) totalPages in
  {| Part.name := part_name (j + 1) (first + 1) last;
     Part.blob := seqZ first (last - first);
     Part.pageCount := last - first |}.

Definition split_spec (totalPages pagesPerPart : Z) : list Part.t :=
  nth_part totalPages pagesPerPart
    <$> seqZ 0 (ceil_div totalPages pagesPerPart).

Definition sum_pageCount (parts : list Part.t) : Z :=
  foldr Z.add 0%Z (Part.pageCount <$> parts).

(** ** The component state ([App.tsx], lines 9-46) *)

Module Status.
Inductive t : Type := idle | processing | completed | error.
#[global] Instance eq_dec : EqDecision t.
Proof. solve_decision. Defined.
End Status.

Module Phase.
Inductive t : Type := extracting | analyzing | idle.
#[global] Instance eq_dec : EqDecision t.
Proof. solve_decision. Defined.
End Phase.

Module ToolMode.
Inductive t : Type := extract | split | consolidated | ocr.
#[global] Instance eq_dec : EqDecision t.
Proof. solve_decision. Defined.
End ToolMode.

Module WorkspaceFile.
Record t : Type :=
  { id : string; name : string; blob : list Z; pageCount : Z;
    status : Status.t; selected : bool; results : option GroupedProcesses }.

(** The object spreads [{ ...f, status: v }], [{ ...f, selected: v }] and
    [{ ...f, results: v }]. *)
Definition with_status (v : Status.t) (f : t) : t :=
  {| id := id f; name := name f; blob := blob f; pageCount := pageCount f;
     status := v; selected := selected f; results := results f |}.

Definition with_selected (v : bool) (f : t) : t :=
  {| id := id f; name := name f; blob := blob f; pageCount := pageCount f;
     status := status f; selected := v; results := results f |}.

Definition with_results (v : option GroupedProcesses) (f : t) : t :=
  {| id := id f; name := name f; blob := blob f; pageCount := pageCount f;
     status := status f; selected := selected f; results := v |}.

#[global] Instance eq_dec : EqDecision t.
Proof. solve_decision. Defined.
End WorkspaceFile.

Module HistoryItem.
Record t : Type :=
  { id : string; name : string; timestamp : Z; results : GroupedProcesses }.
#[global] Instance eq_dec : EqDecision t.
Proof. solve_decision. Defined.
End HistoryItem.

Record Progress : Type :=
  { current : Z; total : Z; phase : Phase.t }.

Definition progress_idle : Progress :=
  {| current := 0; total := 0; phase := Phase.idle |}.

(** The [useState] cells and the two [useRef] cells ([isBatchStopped],
    [activeProcesses]) the modelled handlers read or write.
    [currentFile] holds the page count of the selected document. *)
Record AppState : Type :=
  { toolMode : ToolMode.t;
    loading : bool;
    progress : Progress;
    error : option string;
    groupedData : option GroupedProcesses;
    fileName : option string;
    history : list HistoryItem.t;
    searchQuery : string;
    isSequentialRunning : bool;
    isBatchStopped : bool;
    workspace : list WorkspaceFile.t;
    totalPages : option Z;
    pagesPerPart : Z;
    currentFile : option Z;
    activeProcesses : gmap string bool }.

Definition set_toolMode (v : ToolMode.t) (s : AppState) : AppState :=
  {| toolMode := v; loading := loading s; progress := progress s; error :=
     error s; groupedData := groupedData s; fileName := fileName s; history :=
     history s; searchQuery := searchQuery s; isSequentialRunning :=
     isSequentialRunning s; isBatchStopped := isBatchStopped s; workspace :=
     workspace s; totalPages := totalPages s; pagesPerPart := pagesPerPart s;
     currentFile := currentFile s; activeProcesses := activeProcesses s |}.

Definition set_loading (v : bool) (s : AppState) : AppState :=
  {| toolMode := toolMode s; loading := v; progress := progress s; error :=
     error s; groupedData := groupedData s; fileName := fileName s; history :=
     history s; searchQuery := searchQuery s; isSequentialRunning :=
     isSequentialRunning s; isBatchStopped := isBatchStopped s; workspace :=
     workspace s; totalPages := totalPages s; pagesPerPart := pagesPerPart s;
     currentFile := currentFile s; activeProcesses := activeProcesses s |}.

Definition set_progress (v : Progress) (s : AppState) : AppState :=
  {| toolMode := toolMode s; loading := loading s; progress := v; error :=
     error s; groupedData := groupedData s; fileName := fileName s; history :=
     history s; searchQuery := searchQuery s; isSequentialRunning :=
     isSequentialRunning s; isBatchStopped := isBatchStopped s; workspace :=
     workspace s; totalPages := totalPages s; pagesPerPart := pagesPerPart s;
     currentFile := currentFile s; activeProcesses := activeProcesses s |}.

Definition set_error (v : option string) (s : AppState) : AppState :=
  {| toolMode := toolMode s; loading := loading s; progress := progress s;
     error := v; groupedData := groupedData s; fileName := fileName s; history
     := history s; searchQuery := searchQuery s; isSequentialRunning :=
     isSequentialRunning s; isBatchStopped := isBatchStopped s; workspace :=
     workspace s; totalPages := totalPages s; pagesPerPart := pagesPerPart s;
     currentFile := currentFile s; activeProcesses := activeProcesses s |}.

Definition set_groupedData (v : option GroupedProcesses) (s : AppState) : AppState :=
  {| toolMode := toolMode s; loading := loading s; progress := progress s;
     error := error s; groupedData := v; fileName := fileName s; history :=
     history s; searchQuery := searchQuery s; isSequentialRunning :=
     isSequentialRunning s; isBatchStopped := isBatchStopped s; workspace :=
     workspace s; totalPages := totalPages s; pagesPerPart := pagesPerPart s;
     currentFile := currentFile s; activeProcesses := activeProcesses s |}.

Definition set_fileName (v : option string) (s : AppState) : AppState :=
  {| toolMode := toolMode s; loading := loading s; progress := progress s;
     error := error s; groupedData := groupedData s; fileName := v; history :=
     history s; searchQuery := searchQuery s; isSequentialRunning :=
     isSequentialRunning s; isBatchStopped := isBatchStopped s; workspace :=
     workspace s; totalPages := totalPages s; pagesPerPart := pagesPerPart s;
     currentFile := currentFile s; activeProcesses := activeProcesses s |}.

Definition set_history (v : list HistoryItem.t) (s : AppState) : AppState :=
  {| toolMode := toolMode s; loading := loading s; progress := progress s;
     error := error s; groupedData := groupedData s; fileName := fileName s;
     history := v; searchQuery := searchQuery s; isSequentialRunning :=
     isSequentialRunning s; isBatchStopped := isBatchStopped s; workspace :=
     workspace s; totalPages := totalPages s; pagesPerPart := pagesPerPart s;
     currentFile := currentFile s; activeProcesses := activeProcesses s |}.

Definition set_searchQuery (v : string) (s : AppState) : AppState :=
  {| toolMode := toolMode s; loading := loading s; progress := progress s;
     error := error s; groupedData := groupedData s; fileName := fileName s;
     history := history s; searchQuery := v; isSequentialRunning :=
     isSequentialRunning s; isBatchStopped := isBatchStopped s; workspace :=
     workspace s; totalPages := totalPages s; pagesPerPart := pagesPerPart s;
     currentFile := currentFile s; activeProcesses := activeProcesses s |}.

Definition set_isSequentialRunning (v : bool) (s : AppState) : AppState :=
  {| toolMode := toolMode s; loading := loading s; progress := progress s;
     error := error s; groupedData := groupedData s; fileName := fileName s;
     history := history s; searchQuery := searchQuery s; isSequentialRunning :=
     v; isBatchStopped := isBatchStopped s; workspace := workspace s;
     totalPages := totalPages s; pagesPerPart := pagesPerPart s; currentFile :=
     currentFile s; activeProcesses := activeProcesses s |}.

Definition set_isBatchStopped (v : bool) (s : AppState) : AppState :=
  {| toolMode := toolMode s; loading := loading s; progress := progress s;
     error := error s; groupedData := groupedData s; fileName := fileName s;
     history := history s; searchQuery := searchQuery s; isSequentialRunning :=
     isSequentialRunning s; isBatchStopped := v; workspace := workspace s;
     totalPages := totalPages s; pagesPerPart := pagesPerPart s; currentFile :=
     currentFile s; activeProcesses := activeProcesses s |}.

Definition set_workspace (v : list WorkspaceFile.t) (s : AppState) : AppState :=
  {| toolMode := toolMode s; loading := loading s; progress := progress s;
     error := error s; groupedData := groupedData s; fileName := fileName s;
     history := history s; searchQuery := searchQuery s; isSequentialRunning :=
     isSequentialRunning s; isBatchStopped := isBatchStopped s; workspace := v;
     totalPages := totalPages s; pagesPerPart := pagesPerPart s; currentFile :=
     currentFile s; activeProcesses := activeProcesses s |}.

Definition set_totalPages (v : option Z) (s : AppState) : AppState :=
  {| toolMode := toolMode s; loading := loading s; progress := progress s;
     error := error s; groupedData := groupedData s; fileName := fileName s;
     history := history s; searchQuery := searchQuery s; isSequentialRunning :=
     isSequentialRunning s; isBatchStopped := isBatchStopped s; workspace :=
     workspace s; totalPages := v; pagesPerPart := pagesPerPart s; currentFile
     := currentFile s; activeProcesses := activeProcesses s |}.

Definition set_pagesPerPart (v : Z) (s : AppState) : AppState :=
  {| toolMode := toolMode s; loading := loading s; progress := progress s;
     error := error s; groupedData := groupedData s; fileName := fileName s;
     history := history s; searchQuery := searchQuery s; isSequentialRunning :=
     isSequentialRunning s; isBatchStopped := isBatchStopped s; workspace :=
     workspace s; totalPages := totalPages s; pagesPerPart := v; currentFile :=
     currentFile s; activeProcesses := activeProcesses s |}.

Definition set_currentFile (v : option Z) (s : AppState) : AppState :=
  {| toolMode := toolMode s; loading := loading s; progress := progress s;
     error := error s; groupedData := groupedData s; fileName := fileName s;
     history := history s; searchQuery := searchQuery s; isSequentialRunning :=
     isSequentialRunning s; isBatchStopped := isBatchStopped s; workspace :=
     workspace s; totalPages := totalPages s; pagesPerPart := pagesPerPart s;
     currentFile := v; activeProcesses := activeProcesses s |}.

Definition set_activeProcesses (v : gmap string bool) (s : AppState) : AppState :=
  {| toolMode := toolMode s; loading := loading s; progress := progress s;
     error := error s; groupedData := groupedData s; fileName := fileName s;
     history := history s; searchQuery := searchQuery s; isSequentialRunning :=
     isSequentialRunning s; isBatchStopped := isBatchStopped s; workspace :=
     workspace s; totalPages := totalPages s; pagesPerPart := pagesPerPart s;
     currentFile := currentFile s; activeProcesses := v |}.

Definition initial_state (savedHistory : list HistoryItem.t) : AppState :=
  {| toolMode := ToolMode.extract; loading := false;
     progress := progress_idle; error := None; groupedData := None;
     fileName := None; history := savedHistory; searchQuery := "";
     isSequentialRunning := false; isBatchStopped := false;
     workspace := []; totalPages := None; pagesPerPart := 10;
     currentFile := None; activeProcesses := ∅ |}.

(** [activeProcesses.current[k]] read as a condition: an absent entry is
    [undefined], which is falsy. *)
Definition still_wanted (k : string) (s : AppState) : bool :=
  default false (activeProcesses s !! k).

(** [activeProcesses.current[k] = v]. *)
Definition set_active (k : string) (v : bool) (s : AppState) : AppState :=
  set_activeProcesses (<[k := v]> (activeProcesses s)) s.

(** [prev.map(f => f.id === id ? g(f) : f)] and the [setWorkspace] call
    around it. *)
Definition map_file (i : string) (g : WorkspaceFile.t → WorkspaceFile.t)
    (ws : list WorkspaceFile.t) : list WorkspaceFile.t :=
  (fun f => if bool_decide (WorkspaceFile.id f = i) then g f else f) <$> ws.

Definition update_file (i : string) (g : WorkspaceFile.t → WorkspaceFile.t)
    (s : AppState) : AppState :=
  set_workspace (map_file i g (workspace s)) s.

(** [{ ...f, status: 'processing', selected: false }] and
    [{ ...f, status: 'completed', results: grouped, selected: false }]. *)
Definition mark_processing (f : WorkspaceFile.t) : WorkspaceFile.t :=
  WorkspaceFile.with_selected false
    (WorkspaceFile.with_status Status.processing f).

Definition mark_completed (grouped : GroupedProcesses) (f : WorkspaceFile.t)
  : WorkspaceFile.t :=
  WorkspaceFile.with_selected false
    (WorkspaceFile.with_results (Some grouped)
       (WorkspaceFile.with_status Status.completed f)).

(** ** [stopAnalysis] (lines 111-121) *)

Definition stopAnalysis (s : AppState) : AppState :=
  let s := set_isBatchStopped true s in
  let s := set_activeProcesses ((fun _ => false) <$> activeProcesses s) s in
  let s := set_workspace
             ((fun f =>
                 WorkspaceFile.with_status
                   (if decide (WorkspaceFile.status f = Status.processing)
                    then Status.idle else WorkspaceFile.status f) f)
                <$> workspace s) s in
  let s := set_loading false s in
  let s := set_isSequentialRunning false s in
  let s := set_progress progress_idle s in
  set_error None s.

(** ** Values captured by the closures of a render *)

Record Closure : Type :=
  { c_isSequentialRunning : bool; c_searchQuery : string }.

Definition closure_of (s : AppState) : Closure :=
  {| c_isSequentialRunning := isSequentialRunning s;
     c_searchQuery := searchQuery s |}.

(** A suspended task waits either for [extractTextFromPdf] or for
    [extractLegalData (rawText, searchQuery)]. *)
Inductive Await : Type :=
| AwaitExtractText
| AwaitExtractLegalData (rawText : string).

Definition new_history_item (uuid : string) (now : Z) (label : string)
    (grouped : GroupedProcesses) : HistoryItem.t :=
  {| HistoryItem.id := uuid; HistoryItem.name := label;
     HistoryItem.timestamp := now; HistoryItem.results := grouped |}.

Definition filter_suffix (cl : Closure) : string :=
  if truthy_string (c_searchQuery cl) then " (Filtro)" else "".

(** ** [processFileForExtraction] (lines 214-266)

    The function is cut at its two [await]s: [pfe_start] runs up to the
    call of [extractTextFromPdf]; [pfe_after_extraction] runs from the
    settlement of that promise up to the call of [extractLegalData] (it
    returns [Some rawText] when that call is made, [None] when the
    function has returned); [pfe_after_analysis] runs from the second
    settlement to the end.  [pfe_catch] and [pfe_finally] are the
    handler blocks. *)

Definition pfe_start (name processId : string) (s : AppState) : AppState :=
  let s := set_active processId true s in
  let s := set_loading true s in
  let s := set_fileName (Some name) s in
  let s := set_groupedData None s in
  let s := set_error None s in
  set_progress {| current := 0; total := 0; phase := Phase.extracting |} s.

Definition pfe_catch (processId message : string) (s : AppState) : AppState :=
  if still_wanted processId s
  then set_error
         (Some (or_else message "Erro inesperado ao processar o arquivo.")) s
  else s.

Definition pfe_finally (processId : string) (s : AppState) : AppState :=
  if still_wanted processId s
  then let s := set_loading false s in
       let s := set_progress progress_idle s in
       set_active processId false s
  else s.

Definition empty_file_message : string :=
  "O arquivo parece estar vazio ou não contém texto extraível.".

Definition pfe_after_extraction (processId : string) (r : Settled string)
    (s : AppState) : AppState * option string :=
  match r with
  | Resolved rawText =>
      if negb (still_wanted processId s) then (pfe_finally processId s, None)
      else if trim_is_empty rawText
      then (pfe_finally processId (pfe_catch processId empty_file_message s),
            None)
      else (set_progress
              {| current := 0; total := 0; phase := Phase.analyzing |} s,
            Some rawText)
  | Rejected message =>
      (pfe_finally processId (pfe_catch processId message s), None)
  end.

Definition pfe_after_analysis (name processId : string) (cl : Closure)
    (r : Settled ExtractionResult) (uuid : string) (now : Z)
    (s : AppState) : AppState :=
  match r with
  | Resolved extracted =>
      if negb (still_wanted processId s) then pfe_finally processId s
      else match groupByForo (processes extracted) with
           | Normal grouped =>
               let s := set_groupedData (Some grouped) s in
               let s := set_history
                          (new_history_item uuid now
                             (name +:+ filter_suffix cl) grouped
                             :: history s) s in
               pfe_finally processId s
           | Throw message =>
               pfe_finally processId (pfe_catch processId message s)
           end
  | Rejected message => pfe_finally processId (pfe_catch processId message s)
  end.

(** ** [analyzeWorkspaceFile] (lines 268-334)

    Cut at its two [await]s like [processFileForExtraction].  The
    cancellation checks read the entry ['direct_upload'] ([processId]);
    the entry [file.id] is written but never read.  [cl] holds the
    [isSequentialRunning] and [searchQuery] of the render whose closure
    is running. *)

Definition direct_upload : string := "direct_upload".

Definition awf_start (file : WorkspaceFile.t) (s : AppState) : AppState :=
  let s := set_toolMode ToolMode.extract s in
  let s := set_active direct_upload true s in
  let s := set_active (WorkspaceFile.id file) true s in
  let s := set_fileName (Some (WorkspaceFile.name file)) s in
  let s := set_loading true s in
  let s := set_groupedData None s in
  let s := set_error None s in
  let s := set_progress
             {| current := 0; total := 0; phase := Phase.extracting |} s in
  update_file (WorkspaceFile.id file) mark_processing s.

Definition awf_catch (file : WorkspaceFile.t) (message : string)
    (s : AppState) : AppState :=
  if still_wanted direct_upload s
  then let s := update_file (WorkspaceFile.id file)
                  (WorkspaceFile.with_status Status.error) s in
       set_error
         (Some (or_else message "Erro ao analisar arquivo do workspace.")) s
  else s.

Definition awf_finally (file : WorkspaceFile.t) (cl : Closure)
    (s : AppState) : AppState :=
  let s := set_active direct_upload false s in
  let s := set_active (WorkspaceFile.id file) false s in
  if negb (c_isSequentialRunning cl) then set_loading false s else s.

Definition empty_part_message : string :=
  "Não foi possível extrair texto desta parte do documento.".

Definition awf_after_extraction (file : WorkspaceFile.t) (cl : Closure)
    (r : Settled string) (s : AppState) : AppState * option string :=
  match r with
  | Resolved rawText =>
      if negb (still_wanted direct_upload s)
      then (awf_finally file cl s, None)
      else if trim_is_empty rawText
      then (awf_finally file cl (awf_catch file empty_part_message s), None)
      else (set_progress
              {| current := 0; total := 0; phase := Phase.analyzing |} s,
            Some rawText)
  | Rejected message =>
      (awf_finally file cl (awf_catch file message s), None)
  end.

Definition awf_after_analysis (file : WorkspaceFile.t) (cl : Closure)
    (r : Settled ExtractionResult) (uuid : string) (now : Z)
    (s : AppState) : AppState :=
  match r with
  | Resolved extracted =>
      if negb (still_wanted direct_upload s) then awf_finally file cl s
      else match groupByForo (processes extracted) with
           | Normal grouped =>
               let s := update_file (WorkspaceFile.id file)
                          (mark_completed grouped) s in
               let s := set_groupedData (Some grouped) s in
               let s := set_history
                          (new_history_item uuid now
                             (WorkspaceFile.name file +:+ filter_suffix cl)
                             grouped
                             :: history s) s in
               awf_finally file cl s
           | Throw message => awf_finally file cl (awf_catch file message s)
           end
  | Rejected message => awf_finally file cl (awf_catch file message s)
  end.

(** ** [analyzeBatchSequential] (lines 336-351)

    [selectedFiles] is computed from the rendered workspace.
    [batch_loop] is the [for] loop from the head of an iteration: it
    either ends the batch or starts the pipeline of the next file and
    suspends on it ([Some] of the file and of the files left). *)

Definition selectedFiles (s : AppState) : list WorkspaceFile.t :=
  filter (fun f => WorkspaceFile.selected f = true
                   ∧ WorkspaceFile.status f ≠ Status.completed)
         (workspace s).

Definition batch_end (s : AppState) : AppState :=
  let s := set_isSequentialRunning false s in
  let s := set_loading false s in
  set_progress progress_idle s.

Definition batch_loop (files : list WorkspaceFile.t) (s : AppState)
  : AppState * option (WorkspaceFile.t * list WorkspaceFile.t) :=
  match files with
  | [] => (batch_end s, None)
  | file :: rest =>
      if isBatchStopped s then (batch_end s, None)
      else (awf_start file s, Some (file, rest))
  end.

Definition analyzeBatchSequential (s : AppState)
  : AppState * option (WorkspaceFile.t * list WorkspaceFile.t) :=
  if bool_decide (selectedFiles s = []) || isSequentialRunning s
  then (s, None)
  else let s' := set_isBatchStopped false s in
       let s' := set_isSequentialRunning true s' in
       batch_loop (selectedFiles s) s'.

(** ** The selection toggles (lines 353-373) *)

Definition toggleFileSelection (i : string) (s : AppState) : AppState :=
  update_file i
    (fun f =>
       if decide (WorkspaceFile.status f = Status.completed)
       then WorkspaceFile.with_selected false f
       else WorkspaceFile.with_selected (negb (WorkspaceFile.selected f)) f)
    s.

Definition selectableFiles (s : AppState) : list WorkspaceFile.t :=
  filter (fun f => WorkspaceFile.status f ≠ Status.completed) (workspace s).

Definition toggleAllSelection (s : AppState) : AppState :=
  if bool_decide (selectableFiles s = []) then s
  else
    let allSelectableSelected :=
      forallb WorkspaceFile.selected (selectableFiles s) in
    set_workspace
      ((fun f =>
          if decide (WorkspaceFile.status f = Status.completed)
          then WorkspaceFile.with_selected false f
          else WorkspaceFile.with_selected (negb allSelectableSelected) f)
         <$> workspace s) s.

(** ** [handleSplit] (lines 392-413) and the page-count input (line 1121)

    [uuids] are the values [crypto.randomUUID()] returns, one per part.
    When the loop of [splitPdf] does not end, neither does the handler:
    the state stays as the synchronous prefix left it. *)

Definition workspace_part (part : Part.t) (uuid : string) : WorkspaceFile.t :=
  {| WorkspaceFile.id := uuid; WorkspaceFile.name := Part.name part;
     WorkspaceFile.blob := Part.blob part;
     WorkspaceFile.pageCount := Part.pageCount part;
     WorkspaceFile.status := Status.idle; WorkspaceFile.selected := true;
     WorkspaceFile.results := None |}.

Definition handleSplit (uuids : list string) (s : AppState) : AppState :=
  match currentFile s with
  | None => s
  | Some pages =>
      if (pagesPerPart s =? 0)%Z then s
      else
        let s := set_loading true s in
        let s := set_error None s in
        match splitPdf (Z.to_nat pages) pages (pagesPerPart s) with
        | Some parts =>
            let workspaceParts := zip_with workspace_part parts uuids in
            let s := set_workspace (workspace s ++ workspaceParts) s in
            set_loading false s
        | None => s
        end
  end.

(** [setPagesPerPart(parseInt(e.target.value) || 1)]: [parsed] is [None]
    when [parseInt] yields [NaN]. *)
Definition onChange_pagesPerPart (parsed : option Z) (s : AppState) : AppState :=
  set_pagesPerPart
    (match parsed with
     | Some n => if (n =? 0)%Z then 1%Z else n
     | None => 1%Z
     end) s.

(** ** [processModalityForOcr] (lines 168-212)

    Cut at its two [await]s ([fileToBase64], then
    [extractLegalDataFromModality]).  [isImage] is
    [file.type.startsWith('image/')]. *)

Definition direct_ocr : string := "direct_ocr".

Definition ocr_start (name processId : string) (s : AppState) : AppState :=
  let s := set_active processId true s in
  let s := set_loading true s in
  let s := set_fileName (Some name) s in
  let s := set_groupedData None s in
  let s := set_error None s in
  set_progress {| current := 1; total := 1; phase := Phase.analyzing |} s.

Definition ocr_catch (processId message : string) (s : AppState) : AppState :=
  if still_wanted processId s
  then set_error
         (Some (or_else message
                  "Erro inesperado ao processar o documento via OCR.")) s
  else s.

Definition ocr_finally (processId : string) (s : AppState) : AppState :=
  if still_wanted processId s
  then let s := set_loading false s in
       let s := set_progress progress_idle s in
       set_active processId false s
  else s.

Definition ocr_after_base64 (processId : string) (r : Settled string)
    (s : AppState) : AppState * option string :=
  match r with
  | Resolved base64 =>
      if negb (still_wanted processId s) then (ocr_finally processId s, None)
      else (s, Some base64)
  | Rejected message =>
      (ocr_finally processId (ocr_catch processId message s), None)
  end.

Definition ocr_suffix (isImage : bool) : string :=
  if isImage then " (OCR Imagem)" else " (OCR PDF)".

Definition ocr_after_modality (name : string) (isImage : bool)
    (processId : string) (r : Settled ExtractionResult) (uuid : string)
    (now : Z) (s : AppState) : AppState :=
  match r with
  | Resolved extracted =>
      if negb (still_wanted processId s) then ocr_finally processId s
      else match groupByForo (processes extracted) with
           | Normal grouped =>
               let s := set_groupedData (Some grouped) s in
               let s := set_history
                          (new_history_item uuid now
                             (name +:+ ocr_suffix isImage) grouped
                             :: history s) s in
               ocr_finally processId s
           | Throw message =>
               ocr_finally processId (ocr_catch processId message s)
           end
  | Rejected message => ocr_finally processId (ocr_catch processId message s)
  end.

(** ** Pending tasks

    A pending task is a call of [processFileForExtraction], of
    [processModalityForOcr] or of [analyzeWorkspaceFile] suspended at an
    [await].  A workspace task started by the batch loop carries the
    files the loop has left ([Some rest]); when it returns, the loop
    goes on in the same turn. *)

(** An OCR task waits either for [fileToBase64] or for
    [extractLegalDataFromModality (base64, file.type, searchQuery)]. *)
Inductive OcrAwait : Type :=
| AwaitFileToBase64
| AwaitExtractModality (base64 : string).

Inductive Task : Type :=
| UploadTask (name processId : string) (cl : Closure) (at_ : Await)
| OcrTask (name : string) (isImage : bool) (processId : string)
    (cl : Closure) (at_ : OcrAwait)
| WorkspaceTask (file : WorkspaceFile.t) (cl : Closure) (at_ : Await)
    (batch : option (list WorkspaceFile.t)).

(** ** [handleFileUpload] (lines 135-166)

    [type_] is [file.type] and [pages] is what [getPageCount] returns
    for the file.  The second component is the task the handler awaits,
    if it starts one. *)

Definition pdf_type : string := "application/pdf".

Definition ocr_type_message : string :=
  "Por favor, anexe um arquivo de imagem (JPEG/PNG) ou um PDF para o modo OCR.".

Definition pdf_type_message : string :=
  "Por favor, anexe um arquivo PDF válido.".

Definition handleFileUpload (name type_ : string) (pages : Z)
    (s : AppState) : AppState * list Task :=
  let isPdf := bool_decide (type_ = pdf_type) in
  let isImage := String.prefix "image/" type_ in
  if decide (toolMode s = ToolMode.ocr)
  then if negb isImage && negb isPdf
       then (set_error (Some ocr_type_message) s, [])
       else (ocr_start name direct_ocr s,
             [OcrTask name isImage direct_ocr (closure_of s)
                AwaitFileToBase64])
  else if negb isPdf
  then (set_error (Some pdf_type_message) s, [])
  else
    let cl := closure_of s in
    let s := set_fileName (Some name) s in
    let s := set_currentFile (Some pages) s in
    let s := set_error None s in
    if decide (toolMode s = ToolMode.extract)
    then (pfe_start name direct_upload s,
          [UploadTask name direct_upload cl AwaitExtractText])
    else if decide (toolMode s = ToolMode.split)
    then (set_totalPages (Some pages) s, [])
    else (s, []).

(** ** The application as a transition system *)

Record System : Type := { app : AppState; pending : list Task }.

Inductive Event : Type :=
| SetToolMode (m : ToolMode.t)
| SetSearchQuery (q : string)
| FileUpload (name type_ : string) (pages : Z)
| ChangePagesPerPart (parsed : option Z)
| ClickSplit (uuids : list string)
| ClickAnalyze (i : string)
| ClickStop
| ClickBatch
| ToggleFile (i : string)
| ToggleAll
| ClearHistory
| ExtractionSettled (n : nat) (r : Settled string)
| AnalysisSettled (n : nat) (r : Settled ExtractionResult)
    (uuid : string) (now : Z)
| Base64Settled (n : nat) (r : Settled string)
| ModalitySettled (n : nat) (r : Settled ExtractionResult)
    (uuid : string) (now : Z).

(** The last four are the settlements of the promises a pending task
    [n] awaits: [extractTextFromPdf] and [extractLegalData] for an
    upload or workspace task, [fileToBase64] and
    [extractLegalDataFromModality] for an OCR task.  [uuid] and [now]
    are what [crypto.randomUUID()] and [Date.now()] return if the task
    calls them. *)

(** The card of a file shows its "Analisar" button when the file is
    neither processing nor completed (lines 896-900). *)
Definition analyzable (i : string) (s : AppState) : option WorkspaceFile.t :=
  head (filter (fun f => WorkspaceFile.id f = i
                         ∧ WorkspaceFile.status f ≠ Status.processing
                         ∧ WorkspaceFile.status f ≠ Status.completed)
               (workspace s)).

Definition batch_task (cl : Closure)
    (next : option (WorkspaceFile.t * list WorkspaceFile.t)) : list Task :=
  match next with
  | Some (file, rest) => [WorkspaceTask file cl AwaitExtractText (Some rest)]
  | None => []
  end.

(** What a workspace task that has returned leaves behind: nothing, or
    the next task of the batch loop that awaited it. *)
Definition after_return (cl : Closure) (batch : option (list WorkspaceFile.t))
    (s : AppState) : AppState * list Task :=
  match batch with
  | None => (s, [])
  | Some rest => let '(s', next) := batch_loop rest s in
                 (s', batch_task cl next)
  end.

Definition replace_task (n : nat) (ts : list Task) (pend : list Task)
  : list Task :=
  take n pend ++ ts ++ drop (S n) pend.

Definition settle_extraction (t : Task) (r : Settled string) (s : AppState)
  : option (AppState * list Task) :=
  match t with
  | UploadTask name processId cl AwaitExtractText =>
      let '(s', k) := pfe_after_extraction processId r s in
      Some (s', match k with
                | Some rawText =>
                    [UploadTask name processId cl
                       (AwaitExtractLegalData rawText)]
                | None => []
                end)
  | WorkspaceTask file cl AwaitExtractText batch =>
      let '(s', k) := awf_after_extraction file cl r s in
      match k with
      | Some rawText =>
          Some (s', [WorkspaceTask file cl (AwaitExtractLegalData rawText)
                       batch])
      | None => Some (after_return cl batch s')
      end
  | _ => None
  end.

Definition settle_analysis (t : Task) (r : Settled ExtractionResult)
    (uuid : string) (now : Z) (s : AppState)
  : option (AppState * list Task) :=
  match t with
  | UploadTask name processId cl (AwaitExtractLegalData _) =>
      Some (pfe_after_analysis name processId cl r uuid now s, [])
  | WorkspaceTask file cl (AwaitExtractLegalData _) batch =>
      Some (after_return cl batch (awf_after_analysis file cl r uuid now s))
  | _ => None
  end.

Definition settle_base64 (t : Task) (r : Settled string) (s : AppState)
  : option (AppState * list Task) :=
  match t with
  | OcrTask name isImage processId cl AwaitFileToBase64 =>
      let '(s', k) := ocr_after_base64 processId r s in
      Some (s', match k with
                | Some base64 =>
                    [OcrTask name isImage processId cl
                       (AwaitExtractModality base64)]
                | None => []
                end)
  | _ => None
  end.

Definition settle_modality (t : Task) (r : Settled ExtractionResult)
    (uuid : string) (now : Z) (s : AppState)
  : option (AppState * list Task) :=
  match t with
  | OcrTask name isImage processId cl (AwaitExtractModality _) =>
      Some (ocr_after_modality name isImage processId r uuid now s, [])
  | _ => None
  end.

Definition in_app (f : AppState → AppState) (σ : System) : System :=
  {| app := f (app σ); pending := pending σ |}.

(** One event.  A settlement that names no pending task, or a task
    waiting for the other promise, changes nothing. *)
Definition step (σ : System) (e : Event) : System :=
  match e with
  | SetToolMode m => in_app (set_toolMode m) σ
  | SetSearchQuery q => in_app (set_searchQuery q) σ
  | FileUpload name type_ pages =>
      let '(s', started) := handleFileUpload name type_ pages (app σ) in
      {| app := s'; pending := pending σ ++ started |}
  | ChangePagesPerPart parsed => in_app (onChange_pagesPerPart parsed) σ
  | ClickSplit uuids => in_app (handleSplit uuids) σ
  | ClickAnalyze i =>
      match analyzable i (app σ) with
      | Some file =>
          {| app := awf_start file (app σ);
             pending :=
               pending σ ++
               [WorkspaceTask file (closure_of (app σ)) AwaitExtractText
                  None] |}
      | None => σ
      end
  | ClickStop => in_app stopAnalysis σ
  | ClickBatch =>
      let '(s', next) := analyzeBatchSequential (app σ) in
      {| app := s';
         pending := pending σ ++ batch_task (closure_of (app σ)) next |}
  | ToggleFile i => in_app (toggleFileSelection i) σ
  | ToggleAll => in_app toggleAllSelection σ
  | ClearHistory => in_app (set_history []) σ
  | ExtractionSettled n r =>
      match pending σ !! n with
      | Some t =>
          match settle_extraction t r (app σ) with
          | Some (s', ts) =>
              {| app := s'; pending := replace_task n ts (pending σ) |}
          | None => σ
          end
      | None => σ
      end
  | AnalysisSettled n r uuid now =>
      match pending σ !! n with
      | Some t =>
          match settle_analysis t r uuid now (app σ) with
          | Some (s', ts) =>
              {| app := s'; pending := replace_task n ts (pending σ) |}
          | None => σ
          end
      | None => σ
      end
  | Base64Settled n r =>
      match pending σ !! n with
      | Some t =>
          match settle_base64 t r (app σ) with
          | Some (s', ts) =>
              {| app := s'; pending := replace_task n ts (pending σ) |}
          | None => σ
          end
      | None => σ
      end
  | ModalitySettled n r uuid now =>
      match pending σ !! n with
      | Some t =>
          match settle_modality t r uuid now (app σ) with
          | Some (s', ts) =>
              {| app := s'; pending := replace_task n ts (pending σ) |}
          | None => σ
          end
      | None => σ
      end
  end.

Definition run (σ : System) (es : list Event) : System := foldl step σ es.

Definition initial_system (savedHistory : list HistoryItem.t) : System :=
  {| app := initial_state savedHistory; pending := [] |}.

Definition reachable (σ : System) : Prop :=
  ∃ savedHistory es, σ = run (initial_system savedHistory) es.

(** ** Predicates used by the statements *)

Definition is_settlement (e : Event) : bool :=
  match e with
  | ExtractionSettled _ _ | AnalysisSettled _ _ _ _
  | Base64Settled _ _ | ModalitySettled _ _ _ _ => true
  | _ => false
  end.

(** The state [stopAnalysis] leaves behind: no registry entry is truthy
    and the batch stop flag is set. *)
Definition stopped (s : AppState) : Prop :=
  (∀ k, still_wanted k s = false) ∧ isBatchStopped s = true.

(** The ledger property of the specification, per item. *)
Definition completed_has_results (f : WorkspaceFile.t) : Prop :=
  WorkspaceFile.status f = Status.completed → WorkspaceFile.results f ≠ None.

Definition error_has_no_results (f : WorkspaceFile.t) : Prop :=
  WorkspaceFile.status f = Status.error → WorkspaceFile.results f = None.

(** Runs in which tasks do not overlap: an event that starts a task
    occurs only when no task is pending; the identifiers drawn for new
    workspace items are new. *)
Definition starts_task (σ : System) (e : Event) : bool :=
  match e with
  | FileUpload name type_ pages =>
      match (handleFileUpload name type_ pages (app σ)).2 with
      | [] => false
      | _ :: _ => true
      end
  | ClickAnalyze _ | ClickBatch => true
  | _ => false
  end.

Definition fresh_uuids (σ : System) (e : Event) : Prop :=
  match e with
  | ClickSplit uuids =>
      NoDup uuids
      ∧ ∀ u, u ∈ uuids → u ∉ WorkspaceFile.id <$> workspace (app σ)
  | _ => True
  end.

Definition exclusive (σ : System) (e : Event) : Prop :=
  (starts_task σ e = true → pending σ = []) ∧ fresh_uuids σ e.

Inductive reachable_exclusive : System → Prop :=
| reachable_exclusive_init savedHistory :
    reachable_exclusive (initial_system savedHistory)
| reachable_exclusive_step σ e :
    reachable_exclusive σ → exclusive σ e → reachable_exclusive (step σ e).

(** The invariant of the runs without overlap: identifiers are unique,
    only completed items carry results, at most one task is pending,
    and the items the pending task (and the batch loop awaiting it) is
    still to write to carry no results. *)
Definition task_ids (t : Task) : list string :=
  match t with
  | UploadTask _ _ _ _ | OcrTask _ _ _ _ _ => []
  | WorkspaceTask file _ _ batch =>
      WorkspaceFile.id file :: (WorkspaceFile.id <$> default [] batch)
  end.

Definition results_imply_completed (f : WorkspaceFile.t) : Prop :=
  WorkspaceFile.results f ≠ None → WorkspaceFile.status f = Status.completed.

Definition untouched (ids : list string) (ws : list WorkspaceFile.t) : Prop :=
  ∀ f, f ∈ ws → WorkspaceFile.id f ∈ ids → WorkspaceFile.results f = None.

Definition tasks_fit (ws : list WorkspaceFile.t) (ts : list Task) : Prop :=
  ts = [] ∨ ∃ t, ts = [t] ∧ NoDup (task_ids t) ∧ untouched (task_ids t) ws.

Definition ledger_fit (ws : list WorkspaceFile.t) : Prop :=
  NoDup (WorkspaceFile.id <$> ws) ∧ Forall results_imply_completed ws.

Definition exclusive_inv (σ : System) : Prop :=
  ledger_fit (workspace (app σ))
  ∧ tasks_fit (workspace (app σ)) (pending σ).

(** A workspace of two one-page parts, "x" and "y", as the handlers
    build it: tool mode "split", a two-page PDF, one page per part. *)
Definition two_parts : list Event :=
  [ SetToolMode ToolMode.split; FileUpload "doc.pdf" pdf_type 2;
    ChangePagesPerPart (Some 1%Z); ClickSplit ["x"; "y"] ].

Definition one_process : ExtractionResult :=
  {| processes := [ {| foro := "Jaboticabal";
                       processo := "1001821-85.2024.8.26.0291" |} ] |}.

Definition status_of (i : string) (σ : System) : list Status.t :=
  WorkspaceFile.status
    <$> filter (fun f => WorkspaceFile.id f = i) (workspace (app σ)).

Definition results_of (i : string) (σ : System)
  : list (option GroupedProcesses) :=
  WorkspaceFile.results
    <$> filter (fun f => WorkspaceFile.id f = i) (workspace (app σ)).

Definition selection (s : AppState) : list bool :=
  WorkspaceFile.selected <$> selectableFiles s.

(** Tasks suspended on [extractTextFromPdf], not on the collaborator. *)
Definition awaits_text (t : Task) : Prop :=
  match t with
  | UploadTask _ _ _ AwaitExtractText
  | WorkspaceTask _ _ AwaitExtractText _ => True
  | _ => False
  end.

(** What one toggle does to an item when it sets the pending items to [b]. *)
Definition toggled (b : bool) (f : WorkspaceFile.t) : WorkspaceFile.t :=
  if decide (WorkspaceFile.status f = Status.completed)
  then WorkspaceFile.with_selected false f
  else WorkspaceFile.with_selected b f.

(* ===================================================================== *)
(** * Further definitions: the rest of the handlers *)
(* ===================================================================== *)

(** ** [extractTextFromPdf] ([pdfService.ts], lines 10-36)

    A loaded document is the list of its pages, a page the list of the
    [str] of its text items.  The result is the text and the calls made
    to [onProgress], in order. *)

Definition page_text (items : list string) : string :=
  String.concat " " items.

Fixpoint extract_loop (pages : list (list string)) (i numPages : Z)
    (fullText : string) (calls : list (Z * Z)) : string * list (Z * Z) :=
  match pages with
  | [] => (fullText, calls)
  | items :: pages' =>
      extract_loop pages' (i + 1) numPages
        (fullText +:+ page_text items +:+ String "010" "")
        (calls ++ [(i, numPages)])
  end.

Definition extractTextFromPdf (pdf : list (list string))
  : string * list (Z * Z) :=
  extract_loop pdf 1 (Z.of_nat (length pdf)) "" [].

(** The [onProgress] callback the tasks pass (lines 223-227, 283-287). *)
Definition onProgress (processId : string) (call : Z * Z) (s : AppState)
  : AppState :=
  if still_wanted processId s
  then set_progress
         {| current := call.1; total := call.2; phase := Phase.extracting |} s
  else s.

(** ** The simulated progress (lines 88-105)

    One tick of the interval; [r] is [Math.floor(Math.random() * 5)]. *)
Definition simulated_tick (prev r : Z) : Z :=
  if (92 <=? prev)%Z then prev else (prev + r + 1)%Z.

Definition simulated_run (rs : list Z) : Z := foldl simulated_tick 0%Z rs.

(** ** The venue selections (lines 540-558)

    A [Set<string>] is the list of its elements in insertion order,
    without repetition. *)
Definition Set_has (x : string) (s : list string) : bool :=
  bool_decide (x ∈ s).

Definition Set_delete (x : string) (s : list string) : list string :=
  filter (fun y => y ≠ x) s.

Definition Set_add (x : string) (s : list string) : list string :=
  if Set_has x s then s else s ++ [x].

(** [toggleForoSelection] and [toggleConsolidatedSelection] have the
    same body, on [selectedForos] and on [consolidatedSelection]. *)
Definition toggleForoSelection (foro : string) (selectedForos : list string)
  : list string :=
  if Set_has foro selectedForos then Set_delete foro selectedForos
  else Set_add foro selectedForos.

(** ** The consolidated view (lines 64-74)

<<
  const map: Record<string, { procesos: Set<string>, docs: Set<string> }> = {};
  history.forEach(item => {
    Object.entries(item.results).forEach(([foro, processos]) => {
      if (!map[foro]) map[foro] = { procesos: new Set(), docs: new Set() };
      processos.forEach(p => map[foro].procesos.add(p));
      map[foro].docs.add(item.name);
    });
  });
>>
    [map] is a plain object: its own properties are kept in creation
    order.  [add_entry] is the body of the inner callback.  When [map]
    has no own property [foro] the read goes to [Object.prototype]: for
    an inherited name the value is truthy, no record is created, the
    value has no [procesos] and no [docs], and calling [add] on
    [undefined] raises a [TypeError]. *)

Record ForoIndex : Type := { procesos : list string; docs : list string }.

Definition GlobalForos : Type := list (string * ForoIndex).

Fixpoint global_get (m : GlobalForos) (k : string) : option ForoIndex :=
  match m with
  | [] => None
  | (k', ix) :: m' => if bool_decide (k' = k) then Some ix else global_get m' k
  end.

Fixpoint global_update (m : GlobalForos) (k : string)
    (f : ForoIndex → ForoIndex) : GlobalForos :=
  match m with
  | [] => []
  | (k', ix) :: m' =>
      if bool_decide (k' = k) then (k', f ix) :: m'
      else (k', ix) :: global_update m' k f
  end.

Definition Object_entries (g : GroupedProcesses)
  : list (string * list string) :=
  omap (fun k => (fun vs => (k, vs)) <$> own_get g k) (Object_keys g).

Definition add_all (ps : list string) (s : list string) : list string :=
  foldl (fun s p => Set_add p s) s ps.

Definition index_entry (name : string) (processos : list string)
    (ix : ForoIndex) : ForoIndex :=
  {| procesos := add_all processos (procesos ix);
     docs := Set_add name (docs ix) |}.

Definition add_of_undefined : string :=
  "Cannot read properties of undefined (reading 'add')".

Definition add_entry (name : string) (m : GlobalForos)
    (e : string * list string) : Completion GlobalForos :=
  match global_get m e.1 with
  | Some _ => Normal (global_update m e.1 (index_entry name e.2))
  | None =>
      if inherited e.1 then Throw add_of_undefined
      else Normal (m ++ [(e.1, index_entry name e.2
                                 {| procesos := []; docs := [] |})])
  end.

Fixpoint forEach_entries (name : string) (es : list (string * list string))
    (m : GlobalForos) : Completion GlobalForos :=
  match es with
  | [] => Normal m
  | e :: es' =>
      match add_entry name m e with
      | Normal m' => forEach_entries name es' m'
      | Throw x => Throw x
      end
  end.

Fixpoint forEach_items (items : list HistoryItem.t) (m : GlobalForos)
  : Completion GlobalForos :=
  match items with
  | [] => Normal m
  | item :: items' =>
      match forEach_entries (HistoryItem.name item)
              (Object_entries (HistoryItem.results item)) m with
      | Normal m' => forEach_items items' m'
      | Throw x => Throw x
      end
  end.

Definition globalForos (history : list HistoryItem.t)
  : Completion GlobalForos :=
  forEach_items history [].

(** The entries the callback has seen: document name, venue, case
    numbers. *)
Definition item_entries (item : HistoryItem.t)
  : list (string * string * list string) :=
  (fun e => (HistoryItem.name item, e.1, e.2))
    <$> Object_entries (HistoryItem.results item).

Definition indexes (m : GlobalForos)
    (seen : list (string * string * list string)) : Prop :=
  NoDup m.*1
  ∧ ∀ k, match global_get m k with
         | Some ix =>
             NoDup (procesos ix) ∧ NoDup (docs ix)
             ∧ (∀ p, p ∈ procesos ix ↔ ∃ d ps, (d, k, ps) ∈ seen ∧ p ∈ ps)
             ∧ (∀ d, d ∈ docs ix ↔ ∃ ps, (d, k, ps) ∈ seen)
         | None => ∀ d ps, (d, k, ps) ∉ seen
         end.

Definition plain_keys (item : HistoryItem.t) : Prop :=
  Forall (fun k => inherited k = false) (HistoryItem.results item).*1.

(** ** Statements about runs *)

(** The fields of a workspace item no handler writes. *)
Definition static_fields (f : WorkspaceFile.t)
  : string * string * list Z * Z :=
  (WorkspaceFile.id f, WorkspaceFile.name f, WorkspaceFile.blob f,
   WorkspaceFile.pageCount f).

Definition unselected_when_completed (f : WorkspaceFile.t) : Prop :=
  WorkspaceFile.status f = Status.completed → WorkspaceFile.selected f = false.

Definition is_clear (e : Event) : bool :=
  match e with ClearHistory => true | _ => false end.

(** What the collaborators answer for one file of a batch: the text of
    the part, the extraction result, the grouping of that result, and
    the values of [crypto.randomUUID()] and [Date.now()]. *)
Record Answer : Type :=
  { a_text : string; a_extracted : ExtractionResult;
    a_grouped : GroupedProcesses; a_uuid : string; a_now : Z }.

Definition answer_ok (a : Answer) : Prop :=
  trim_is_empty (a_text a) = false
  ∧ groupByForo (processes (a_extracted a)) = Normal (a_grouped a).

Definition answer_events (a : Answer) : list Event :=
  [ ExtractionSettled 0 (Resolved (a_text a));
    AnalysisSettled 0 (Resolved (a_extracted a)) (a_uuid a) (a_now a) ].

Definition answer_item (cl : Closure) (file : WorkspaceFile.t) (a : Answer)
  : HistoryItem.t :=
  new_history_item (a_uuid a) (a_now a)
    (WorkspaceFile.name file +:+ filter_suffix cl) (a_grouped a).

Definition complete_all (files : list WorkspaceFile.t) (answers : list Answer)
    (ws : list WorkspaceFile.t) : list WorkspaceFile.t :=
  foldl (fun ws fa => map_file (WorkspaceFile.id fa.1)
                        (mark_completed (a_grouped fa.2)) ws)
        ws (zip files answers).

(** The writes the handlers make to one workspace item. *)
Inductive item_move : WorkspaceFile.t → WorkspaceFile.t → Prop :=
| move_processing f : item_move f (mark_processing f)
| move_error f : item_move f (WorkspaceFile.with_status Status.error f)
| move_completed grouped f : item_move f (mark_completed grouped f)
| move_idle f :
    WorkspaceFile.status f = Status.processing →
    item_move f (WorkspaceFile.with_status Status.idle f)
| move_select v f :
    WorkspaceFile.status f ≠ Status.completed →
    item_move f (WorkspaceFile.with_selected v f)
| move_unselect f : item_move f (WorkspaceFile.with_selected false f).

Definition is_split (e : Event) : bool :=
  match e with ClickSplit _ => true | _ => false end.

(** ** The history effects (lines 48-61) and the render after them

    [localStorage] is a map from keys to strings.  [JSON.parse] and
    [JSON.stringify] are taken as given, as functions between text and
    JSON values; [JSON.parse] raises on text that is not JSON.  The
    value it returns goes to [setHistory] unchecked. *)

Module JSON.
(** A number is [mantissa * 10 ^ exponent], the integer [n] being
    [number n 0].  An object lists its own properties in creation
    order, each key once. *)
#[warnings="-register-all"] Inductive t : Type :=
| null
| boolean (b : bool)
| number (mantissa exponent : Z)
| str (s : string)
| array (items : list t)
| object (properties : list (string * t)).
End JSON.

(** The JSON value of a history the application has built: an array of
    [{ id, name, timestamp, results }], [results] holding an array of
    strings under each venue. *)
Definition results_to_json (g : GroupedProcesses) : JSON.t :=
  JSON.object ((fun p => (p.1, JSON.array (JSON.str <$> p.2))) <$> g).

Definition item_to_json (item : HistoryItem.t) : JSON.t :=
  JSON.object
    [ ("id", JSON.str (HistoryItem.id item));
      ("name", JSON.str (HistoryItem.name item));
      ("timestamp", JSON.number (HistoryItem.timestamp item) 0);
      ("results", results_to_json (HistoryItem.results item)) ].

Definition history_to_json (h : list HistoryItem.t) : JSON.t :=
  JSON.array (item_to_json <$> h).

(** The JSON values that are a [HistoryItem[]] in that layout. *)
Definition as_string (v : JSON.t) : option string :=
  match v with JSON.str s => Some s | _ => None end.

Definition as_strings (v : JSON.t) : option (list string) :=
  match v with JSON.array l => mapM as_string l | _ => None end.

Definition as_results (v : JSON.t) : option GroupedProcesses :=
  match v with
  | JSON.object o => mapM (fun p => (fun vs => (p.1, vs)) <$> as_strings p.2) o
  | _ => None
  end.

Definition as_item (v : JSON.t) : option HistoryItem.t :=
  match v with
  | JSON.object [ (k1, JSON.str i); (k2, JSON.str n);
                  (k3, JSON.number t e); (k4, r) ] =>
      if bool_decide (k1 = "id" ∧ k2 = "name" ∧ k3 = "timestamp"
                      ∧ k4 = "results" ∧ e = 0%Z)
      then (fun g => {| HistoryItem.id := i; HistoryItem.name := n;
                        HistoryItem.timestamp := t;
                        HistoryItem.results := g |}) <$> as_results r
      else None
  | _ => None
  end.

Definition as_history (v : JSON.t) : option (list HistoryItem.t) :=
  match v with JSON.array l => mapM as_item l | _ => None end.

(** The render reads the [history] cell first in the [useMemo] of
    [globalForos] (line 66): [history.forEach] raises a [TypeError] on
    [null] and on every value that is not an array.  On a
    [HistoryItem[]] the render raises exactly when [globalForos] does:
    the rest of it reads strings, numbers and arrays of strings.  What
    it does with an array that is not a [HistoryItem[]] is not
    modelled. *)
Definition forEach_of_null : string :=
  "Cannot read properties of null (reading 'forEach')".

Definition forEach_not_a_function : string :=
  "history.forEach is not a function".

Inductive Rendered : Type :=
| Shown (h : list HistoryItem.t)
| RenderThrows (message : string)
| Untyped.

Definition render_history (v : JSON.t) : Rendered :=
  match v with
  | JSON.null => RenderThrows forEach_of_null
  | JSON.array _ =>
      match as_history v with
      | Some h =>
          match globalForos h with
          | Normal _ => Shown h
          | Throw message => RenderThrows message
          end
      | None => Untyped
      end
  | _ => RenderThrows forEach_not_a_function
  end.

Definition history_key : string := "legal_filter_history".

(** The application after startup: running; unmounted by React because
    a render raised (there is no error boundary); or holding in
    [history] an array outside its declared type. *)
Inductive Startup : Type :=
| Running (σ : System) (storage : gmap string string)
| Unmounted (message : string) (storage : gmap string string)
| OutsideTypes (v : JSON.t).


Section history_effects.
Variable JSON_parse : string → Completion JSON.t.
Variable JSON_stringify : JSON.t → string.

(** The first effect; [Some v] when it calls [setHistory v]. *)
Definition load_history_effect (storage : gmap string string)
  : option JSON.t :=
  match storage !! history_key with
  | Some savedHistory =>
      if truthy_string savedHistory
      then match JSON_parse savedHistory with
           | Normal v => Some v
           | Throw _ => None
           end
      else None
  | None => None
  end.

(** The second effect, run after each render in which [history] changed. *)
Definition save_history_effect (h : list HistoryItem.t)
    (storage : gmap string string) : gmap string string :=
  <[history_key := JSON_stringify (history_to_json h)]> storage.

(** Mounting: the first render has [history = []]; its two effects run
    in order, the second saving the empty history; a call of
    [setHistory] causes a second render, and only if that render
    completes does the second effect run again. *)
Definition mount (storage : gmap string string) : Startup :=
  let storage1 := save_history_effect [] storage in
  match load_history_effect storage with
  | Some v =>
      match render_history v with
      | Shown h => Running (initial_system h) (save_history_effect h storage1)
      | RenderThrows message => Unmounted message storage1
      | Untyped => OutsideTypes v
      end
  | None => Running (initial_system []) storage1
  end.



End history_effects.



(* ===================================================================== *)
(** * Theorems *)
(* ===================================================================== *)

(** ** The aggregation block *)

Lemma forEach_push_snoc ps p g :
  forEach_push (ps ++ [p]) g =
  match forEach_push ps g with
  | Normal g' => push_process g' p
  | Throw m => Throw m
  end.
Proof.
  revert g. induction ps as [|q ps IH]; intros g; simpl.
  - by destruct (push_process g p).
  - destruct (push_process g q); [apply IH | done].
Qed.

Lemma elem_of_first_occurrences x l : x ∈ first_occurrences l ↔ x ∈ l.
Proof.
  induction l as [|y l IH]; simpl; [done|].
  rewrite !elem_of_cons, list_elem_of_filter, IH.
  split; [intros [?|[? ?]]; auto|].
  destruct (decide (x = y)); intros [?|?]; auto.
Qed.

Lemma NoDup_first_occurrences l : NoDup (first_occurrences l).
Proof.
  induction l as [|y l IH]; simpl; [constructor|].
  constructor.
  - rewrite list_elem_of_filter. intros [Hne _]. by apply Hne.
  - by apply NoDup_filter.
Qed.

Lemma first_occurrences_snoc l x :
  first_occurrences (l ++ [x]) =
  if decide (x ∈ l) then first_occurrences l else first_occurrences l ++ [x].
Proof.
  induction l as [|y l IH]; simpl.
  - done.
  - rewrite IH. destruct (decide (x ∈ l)) as [Hin|Hnin].
    + by rewrite decide_True by (right; done).
    + destruct (decide (x = y)) as [->|Hne].
      * rewrite decide_True by (left; done).
        rewrite filter_app, filter_cons_False by (intros Hc; by apply Hc).
        by rewrite filter_nil, app_nil_r.
      * rewrite decide_False by (rewrite elem_of_cons; intros [?|?]; done).
        by rewrite filter_app, filter_cons_True by done.
Qed.

Lemma processos_of_snoc k ps p :
  processos_of k (ps ++ [p]) =
  processos_of k ps ++ (if decide (foro p = k) then [processo p] else []).
Proof.
  unfold processos_of. rewrite filter_app, fmap_app. f_equal.
  rewrite filter_cons, filter_nil. by destruct (decide (foro p = k)).
Qed.

Lemma processos_of_absent k ps : k ∉ foro <$> ps → processos_of k ps = [].
Proof.
  intros Hk. unfold processos_of.
  induction ps as [|q ps IH]; simpl; [done|].
  rewrite fmap_cons, not_elem_of_cons in Hk. destruct Hk as [Hq Hps].
  rewrite filter_cons, decide_False by done. by apply IH.
Qed.

Lemma own_get_tabulate (f : string → list string) l k :
  own_get ((fun k' => (k', f k')) <$> l) k =
  if decide (k ∈ l) then Some (f k) else None.
Proof.
  induction l as [|x l IH]; csimpl.
  - done.
  - destruct (decide (x = k)) as [->|Hne].
    + rewrite bool_decide_eq_true_2 by done.
      by rewrite decide_True by (left; done).
    + rewrite bool_decide_eq_false_2 by done. rewrite IH.
      destruct (decide (k ∈ l)).
      * by rewrite decide_True by (right; done).
      * by rewrite decide_False by (rewrite elem_of_cons; intros [?|?]; done).
Qed.

Lemma own_push_tabulate (f : string → list string) l k v :
  NoDup l → k ∈ l →
  own_push ((fun k' => (k', f k')) <$> l) k v =
  (fun k' => (k', f k' ++ (if decide (k = k') then [v] else []))) <$> l.
Proof.
  induction l as [|x l IH]; intros Hnd Hin; csimpl; [by inversion Hin|].
  apply NoDup_cons in Hnd as [Hx Hnd].
  destruct (decide (x = k)) as [->|Hne].
  - rewrite bool_decide_eq_true_2 by done.
    rewrite decide_True by done. f_equal.
    apply list_fmap_ext. intros i y Hy.
    rewrite decide_False; [by rewrite app_nil_r|].
    intros ->. apply Hx. by eapply list_elem_of_lookup_2.
  - rewrite bool_decide_eq_false_2 by done.
    rewrite decide_False by done. rewrite app_nil_r. f_equal.
    apply IH; [done|]. apply elem_of_cons in Hin as [->|]; done.
Qed.

Lemma grouped_spec_snoc ps p :
  inherited (foro p) = false →
  push_process (grouped_spec ps) p = Normal (grouped_spec (ps ++ [p])).
Proof.
  intros Hinh. unfold push_process, grouped_spec at 1.
  rewrite own_get_tabulate.
  unfold grouped_spec. rewrite fmap_app.
  change (foro <$> [p]) with [foro p]. rewrite first_occurrences_snoc.
  destruct (decide (foro p ∈ foro <$> ps)) as [Hin|Hnin].
  - rewrite decide_True by (by apply elem_of_first_occurrences).
    f_equal. rewrite own_push_tabulate.
    + apply list_fmap_ext. intros i k Hk.
      by rewrite processos_of_snoc.
    + apply NoDup_first_occurrences.
    + by apply elem_of_first_occurrences.
  - rewrite decide_False by (by rewrite elem_of_first_occurrences).
    rewrite Hinh. f_equal. rewrite fmap_app. simpl. f_equal.
    + apply list_fmap_ext. intros i k Hk.
      rewrite processos_of_snoc. rewrite decide_False, app_nil_r; [done|].
      intros Heq. apply Hnin. rewrite Heq.
      apply elem_of_first_occurrences. by eapply list_elem_of_lookup_2.
    + rewrite processos_of_snoc, processos_of_absent by done.
      by rewrite decide_True.
Qed.

Lemma forEach_push_spec ps :
  Forall (fun p => inherited (foro p) = false) ps →
  forEach_push ps [] = Normal (grouped_spec ps).
Proof.
  induction ps as [|p ps IH] using rev_ind; intros Hall; [done|].
  rewrite Forall_app, Forall_singleton in Hall. destruct Hall as [Hps Hp].
  rewrite forEach_push_snoc, IH by done. by apply grouped_spec_snoc.
Qed.

Lemma own_property_order_plain ks :
  Forall (fun k => array_index k = None) ks → own_property_order ks = ks.
Proof.
  intros Hall. unfold own_property_order, index_keys.
  induction Hall as [|k ks Hk Hall IH]; [done|].
  csimpl. rewrite Hk. csimpl.
  rewrite filter_cons_True by done.
  destruct (omap _ ks) eqn:Hom.
  - simpl in *. by rewrite <- IH at 2.
  - exfalso. clear IH. induction Hall as [|k' ks' Hk' _ IH']; csimpl in *; [done|].
    rewrite Hk' in Hom. csimpl in Hom. eauto.
Qed.

Lemma groupByForo_forEach ps : groupByForo ps = forEach_push ps [].
Proof. by destruct ps. Qed.

(** C1 (as amended).  For every sequence of records none of whose [foro]
    is the name of a property inherited from [Object.prototype], the
    aggregation block completes normally; the properties of the result
    are created in order of first occurrence of each [foro]; the
    application enumerates them with the array-index keys first in
    numeric order and the others in order of first occurrence (so in
    order of first occurrence when no [foro] is an array index); the
    value under each [foro] is the sub-sequence of its [processo] values
    in input order, unsorted and with duplicates kept; the empty input
    yields the empty object. *)
Theorem groupByForo_groups (ps : list LegalProcess) :
  Forall (fun p => foro p ∉ object_prototype_names) ps →
  ∃ g, groupByForo ps = Normal g
     ∧ g.*1 = first_occurrences (foro <$> ps)
     ∧ Object_keys g = own_property_order (first_occurrences (foro <$> ps))
     ∧ (Forall (fun p => array_index (foro p) = None) ps →
        Object_keys g = first_occurrences (foro <$> ps))
     ∧ (∀ k, k ∈ foro <$> ps → own_get g k = Some (processos_of k ps))
     ∧ (∀ k, k ∉ foro <$> ps → own_get g k = None)
     ∧ (ps = [] → g = []).
Proof.
  intros Hplain. exists (grouped_spec ps).
  assert (Hkeys : (grouped_spec ps).*1 = first_occurrences (foro <$> ps)).
  { unfold grouped_spec. rewrite <- list_fmap_compose.
    rewrite <- (list_fmap_id (first_occurrences _)) at 2.
    by apply list_fmap_ext. }
  split_and!.
  - rewrite groupByForo_forEach. apply forEach_push_spec.
    eapply Forall_impl; [exact Hplain|]. intros p Hp. simpl in Hp.
    unfold inherited. by apply bool_decide_eq_false_2.
  - exact Hkeys.
  - unfold Object_keys. by rewrite Hkeys.
  - intros Hidx. unfold Object_keys. rewrite Hkeys.
    apply own_property_order_plain.
    apply Forall_forall. intros k Hk.
    apply elem_of_first_occurrences, list_elem_of_fmap in Hk as (p & -> & Hp).
    by eapply (proj1 (Forall_forall _ _) Hidx).
  - intros k Hk. unfold grouped_spec. rewrite own_get_tabulate.
    by rewrite decide_True by (by apply elem_of_first_occurrences).
  - intros k Hk. unfold grouped_spec. rewrite own_get_tabulate.
    by rewrite decide_False by (by rewrite elem_of_first_occurrences).
  - by intros ->.
Qed.

Lemma groupByForo_groups_witness :
  let ps :=
    [ {| foro := "Jaboticabal"; processo := "1001821-85.2024.8.26.0291" |};
      {| foro := "Ribeirão Preto"; processo := "1002233-10.2023.8.26.0506" |};
      {| foro := "Jaboticabal"; processo := "1001821-85.2024.8.26.0291" |} ] in
  Forall (fun p => foro p ∉ object_prototype_names) ps
  ∧ ∃ g, groupByForo ps = Normal g
     ∧ g.*1 = first_occurrences (foro <$> ps)
     ∧ Object_keys g = own_property_order (first_occurrences (foro <$> ps))
     ∧ (Forall (fun p => array_index (foro p) = None) ps →
        Object_keys g = first_occurrences (foro <$> ps))
     ∧ (∀ k, k ∈ foro <$> ps → own_get g k = Some (processos_of k ps))
     ∧ (∀ k, k ∉ foro <$> ps → own_get g k = None)
     ∧ (ps = [] → g = []).
Proof.
  intros ps.
  assert (H : Forall (fun p => foro p ∉ object_prototype_names) ps).
  { subst ps. compute_done. }
  split; [exact H | exact (groupByForo_groups ps H)].
Defined.

(** C1 as stated fails on venues spelled as array indices: the object
    built from the venues "2" then "1" is enumerated as "1", "2". *)
Lemma groupByForo_index_keys_reordered :
  let ps := [ {| foro := "2"; processo := "a" |};
              {| foro := "1"; processo := "b" |} ] in
  groupByForo ps = Normal [("2", ["a"]); ("1", ["b"])]
  ∧ Object_keys [("2", ["a"]); ("1", ["b"])] = ["1"; "2"]
  ∧ first_occurrences (foro <$> ps) = ["2"; "1"]
  ∧ ¬ (∀ qs, ∃ g, groupByForo qs = Normal g
               ∧ Object_keys g = first_occurrences (foro <$> qs)).
Proof.
  intros ps. split_and!; [done..|].
  intros Hclaim. destruct (Hclaim ps) as (g & Hg & Hk).
  vm_compute in Hg. injection Hg as <-. by vm_compute in Hk.
Qed.

(** The aggregation block has a failure mode: a venue named like an
    inherited property makes [push] raise. *)
Example groupByForo_inherited_name_throws :
  groupByForo [ {| foro := "constructor"; processo := "a" |} ]
  = Throw push_not_a_function.
Proof. reflexivity. Qed.


(** ** [splitPdf] *)

Section split.
Local Open Scope Z_scope.

Lemma ceil_div_bounds total ppp :
  0 ≤ total → 1 ≤ ppp →
  0 ≤ ceil_div total ppp
  ∧ total ≤ ceil_div total ppp * ppp
  ∧ (ceil_div total ppp - 1) * ppp < total.
Proof.
  intros Ht Hp. unfold ceil_div.
  pose proof (Z.div_mod (total + ppp - 1) ppp ltac:(lia)) as Hdm.
  pose proof (Z.mod_pos_bound (total + ppp - 1) ppp ltac:(lia)) as Hmod.
  assert (0 ≤ (total + ppp - 1) / ppp) by (apply Z.div_pos; lia).
  nia.
Qed.

Lemma below_ceil_div total ppp j :
  0 ≤ total → 1 ≤ ppp → j < ceil_div total ppp → (j + 1) * ppp < total + ppp.
Proof.
  intros Ht Hp Hj. destruct (ceil_div_bounds total ppp Ht Hp) as (_ & _ & Hc).
  assert ((j + 1) * ppp ≤ ceil_div total ppp * ppp)
    by (apply Z.mul_le_mono_nonneg_r; lia).
  lia.
Qed.

Lemma pagesToCopy_seqZ i endPage : pagesToCopy i endPage = seqZ i (endPage - i).
Proof.
  unfold pagesToCopy.
  rewrite <- (Z.add_0_r i) at 2. rewrite <- fmap_add_seqZ. done.
Qed.

Lemma split_loop_closed total ppp (n : nat) :
  1 ≤ ppp → 0 ≤ total →
  ∀ (j : Z) (fuel : nat) (parts : list Part.t),
    0 ≤ j → j + Z.of_nat n = ceil_div total ppp →
    Z.of_nat (length parts) = j → (n ≤ fuel)%nat →
    split_loop fuel total ppp (j * ppp) parts
    = Some (parts ++ (nth_part total ppp <$> seqZ j (Z.of_nat n))).
Proof.
  intros Hp Ht.
  destruct (ceil_div_bounds total ppp Ht Hp) as (Hc0 & Hc1 & Hc2).
  induction n as [|n IH]; intros j fuel parts Hj Hjn Hlen Hfuel.
  - assert (Hge : (j * ppp <? total) = false).
    { apply Z.ltb_ge. replace j with (ceil_div total ppp) by lia. done. }
    destruct fuel; simpl; rewrite Hge; by rewrite app_nil_r.
  - assert (Hlt : (j * ppp <? total) = true).
    { apply Z.ltb_lt.
      pose proof (below_ceil_div total ppp j Ht Hp ltac:(lia)). lia. }
    destruct fuel as [|fuel]; [lia|]. simpl. rewrite Hlt.
    replace (j * ppp + ppp) with ((j + 1) * ppp) by ring.
    rewrite IH; [|lia|lia|rewrite length_app; simpl; lia|lia].
    rewrite <- app_assoc. f_equal.
    rewrite (seqZ_cons j) by lia. rewrite fmap_cons.
    replace (Z.pred (Z.of_nat (S n))) with (Z.of_nat n) by lia.
    replace (Z.succ j) with (j + 1) by lia.
    unfold nth_part at 3. by rewrite pagesToCopy_seqZ, Hlen.
Qed.

Lemma splitPdf_closed total ppp fuel :
  1 ≤ ppp → 0 ≤ total → (Z.to_nat (ceil_div total ppp) ≤ fuel)%nat →
  splitPdf fuel total ppp = Some (split_spec total ppp).
Proof.
  intros Hp Ht Hfuel.
  destruct (ceil_div_bounds total ppp Ht Hp) as (Hc0 & _).
  unfold splitPdf, split_spec.
  change 0 with (0 * ppp) at 1.
  rewrite (split_loop_closed total ppp (Z.to_nat (ceil_div total ppp)));
    [|done|done|lia|lia|done|done].
  by rewrite Z2Nat.id by lia.
Qed.

Lemma split_spec_length total ppp :
  0 ≤ total → 1 ≤ ppp →
  Z.of_nat (length (split_spec total ppp)) = ceil_div total ppp.
Proof.
  intros Ht Hp. destruct (ceil_div_bounds total ppp Ht Hp) as (Hc0 & _).
  unfold split_spec. rewrite length_fmap, length_seqZ. lia.
Qed.

Lemma split_spec_tail total ppp (n : nat) :
  1 ≤ ppp → 0 ≤ total →
  ∀ j, 0 ≤ j → j + Z.of_nat n = ceil_div total ppp →
    let tail := nth_part total ppp <$> seqZ j (Z.of_nat n) in
    sum_pageCount tail = (if decide (n = 0%nat) then 0 else total - j * ppp)
    ∧ concat (Part.blob <$> tail)
      = seqZ (j * ppp) (if decide (n = 0%nat) then 0 else total - j * ppp).
Proof.
  intros Hp Ht.
  destruct (ceil_div_bounds total ppp Ht Hp) as (Hc0 & Hc1 & Hc2).
  induction n as [|n IH]; intros j Hj Hjn; [done|].
  cbn zeta. rewrite (seqZ_cons j) by lia. rewrite fmap_cons.
  replace (Z.pred (Z.of_nat (S n))) with (Z.of_nat n) by lia.
  destruct (IH (Z.succ j) ltac:(lia) ltac:(lia)) as [IHs IHc].
  cbn zeta in IHs, IHc.
  unfold sum_pageCount in *. rewrite !fmap_cons. cbn [foldr concat].
  rewrite IHs, IHc. rewrite (decide_False (P := S n = 0%nat)) by lia.
  cbn [Part.pageCount Part.blob nth_part].
  assert (Hpos : j * ppp < total).
  { pose proof (below_ceil_div total ppp j Ht Hp ltac:(lia)). lia. }
  destruct (decide (n = 0%nat)) as [->|Hn].
  - assert (Hmin : Z.min ((j + 1) * ppp) total = total).
    { replace (j + 1) with (ceil_div total ppp) by lia. lia. }
    rewrite Hmin. split; [lia|]. by rewrite app_nil_r.
  - assert (Hmin : Z.min ((j + 1) * ppp) total = (j + 1) * ppp).
    { pose proof (below_ceil_div total ppp (j + 1) Ht Hp ltac:(lia)). lia. }
    rewrite Hmin. split; [lia|].
    replace (Z.succ j * ppp) with (j * ppp + ((j + 1) * ppp - j * ppp)) by lia.
    rewrite <- seqZ_app by lia. f_equal. lia.
Qed.

Lemma split_spec_covers total ppp :
  0 ≤ total → 1 ≤ ppp →
  sum_pageCount (split_spec total ppp) = total
  ∧ concat (Part.blob <$> split_spec total ppp) = seqZ 0 total.
Proof.
  intros Ht Hp. destruct (ceil_div_bounds total ppp Ht Hp) as (Hc0 & Hc1 & Hc2).
  pose proof (split_spec_tail total ppp (Z.to_nat (ceil_div total ppp))
                Hp Ht 0 ltac:(lia) ltac:(lia)) as Htail.
  cbn zeta in Htail. rewrite Z2Nat.id in Htail by lia.
  fold (split_spec total ppp) in Htail. destruct Htail as [Hs Hc].
  rewrite Hs, Hc. case_decide as Hz.
  - assert (total = 0) as -> by lia. done.
  - rewrite Z.mul_0_l, Z.sub_0_r. done.
Qed.

Lemma split_loop_diverges fuel total ppp :
  ppp ≤ 0 → ∀ i parts, i < total → split_loop fuel total ppp i parts = None.
Proof.
  intros Hp. induction fuel as [|fuel IH]; intros i parts Hi; simpl.
  - by rewrite (proj2 (Z.ltb_lt _ _) Hi).
  - rewrite (proj2 (Z.ltb_lt _ _) Hi). apply IH. lia.
Qed.

End split.

Lemma ceil_div_le_total total ppp :
  (0 ≤ total → 1 ≤ ppp → ceil_div total ppp ≤ total)%Z.
Proof.
  intros Ht Hp. destruct (ceil_div_bounds total ppp Ht Hp) as (Hc0 & _ & Hc).
  destruct (decide (ceil_div total ppp ≤ total)%Z) as [|Hgt]; [done|].
  assert (total * ppp ≤ (ceil_div total ppp - 1) * ppp)%Z
    by (apply Z.mul_le_mono_nonneg_r; lia).
  nia.
Qed.

Lemma split_spec_lookup total ppp (j : nat) part :
  (0 ≤ total)%Z → (1 ≤ ppp)%Z →
  split_spec total ppp !! j = Some part →
  part = nth_part total ppp (Z.of_nat j)
  ∧ (Z.of_nat j * ppp < total)%Z.
Proof.
  intros Ht Hp. unfold split_spec. rewrite list_lookup_fmap.
  destruct (seqZ 0 (ceil_div total ppp) !! j) as [k|] eqn:Hk; [|done].
  apply lookup_seqZ in Hk as [-> Hlt]. simpl. intros [= <-].
  split; [done|].
  pose proof (below_ceil_div total ppp (Z.of_nat j) Ht Hp ltac:(lia)). lia.
Qed.

(** C7 (as amended).  For a requested size of at least one page,
    [splitPdf] yields parts that cover the pages of the document
    contiguously and in order; part [j + 1] holds the pages
    [j * pagesPerPart + 1 .. min ((j + 1) * pagesPerPart) totalPages]
    and is named "Parte N (Págs A-B)" with those numbers.  A 25-page
    document split by 10 gives three parts, pages 1-10, 11-20 and
    21-25, of 10, 10 and 5 pages. *)
Theorem splitPdf_contiguous_parts :
  (∀ totalPages pagesPerPart : Z,
     (0 ≤ totalPages)%Z → (1 ≤ pagesPerPart)%Z →
     ∃ parts,
       splitPdf (Z.to_nat totalPages) totalPages pagesPerPart = Some parts
       ∧ concat (Part.blob <$> parts) = seqZ 0 totalPages
       ∧ ∀ (j : nat) part, parts !! j = Some part →
           let first := (Z.of_nat j * pagesPerPart)%Z in
           let last := Z.min ((Z.of_nat j + 1) * pagesPerPart) totalPages in
           (first < last)%Z
           ∧ Part.name part = part_name (Z.of_nat j + 1) (first + 1) last
           ∧ Part.blob part = seqZ first (last - first)
           ∧ Part.pageCount part = (last - first)%Z)
  ∧ splitPdf 25 25 10
    = Some [ {| Part.name := "Parte 1 (Págs 1-10)";
                Part.blob := seqZ 0 10; Part.pageCount := 10 |};
             {| Part.name := "Parte 2 (Págs 11-20)";
                Part.blob := seqZ 10 10; Part.pageCount := 10 |};
             {| Part.name := "Parte 3 (Págs 21-25)";
                Part.blob := seqZ 20 5; Part.pageCount := 5 |} ].
Proof.
  split; [|done].
  intros total ppp Ht Hp. exists (split_spec total ppp). split_and!.
  - apply splitPdf_closed; [done..|].
    pose proof (ceil_div_le_total total ppp Ht Hp). lia.
  - by apply split_spec_covers.
  - intros j part Hj.
    apply split_spec_lookup in Hj as [-> Hlt]; [|done..].
    cbn zeta. split; [lia | done].
Qed.

Lemma splitPdf_contiguous_parts_witness :
  (0 ≤ 25)%Z ∧ (1 ≤ 10)%Z
  ∧ ∃ parts,
      splitPdf (Z.to_nat 25) 25 10 = Some parts
      ∧ concat (Part.blob <$> parts) = seqZ 0 25
      ∧ ∀ (j : nat) part, parts !! j = Some part →
          let first := (Z.of_nat j * 10)%Z in
          let last := Z.min ((Z.of_nat j + 1) * 10) 25 in
          (first < last)%Z
          ∧ Part.name part = part_name (Z.of_nat j + 1) (first + 1) last
          ∧ Part.blob part = seqZ first (last - first)
          ∧ Part.pageCount part = (last - first)%Z.
Proof.
  split; [lia|]. split; [lia|].
  apply (proj1 splitPdf_contiguous_parts 25%Z 10%Z); lia.
Defined.

(** C7 as stated fails on the label: the parts are named in Portuguese,
    "Parte N (Págs A-B)", not "Part N (Pages A-B)". *)
Lemma splitPdf_label_not_english :
  ∃ part rest,
    splitPdf 25 25 10 = Some (part :: rest)
    ∧ Part.name part = "Parte 1 (Págs 1-10)"
    ∧ Part.name part ≠ "Part 1 (Pages 1-10)".
Proof. eexists _, _. split_and!; [reflexivity | reflexivity | done]. Qed.

Lemma handleSplit_diverging pages uuids s :
  currentFile s = Some pages → (0 < pages)%Z → (pagesPerPart s < 0)%Z →
  handleSplit uuids s = set_error None (set_loading true s).
Proof.
  intros Hf Hpages Hppp. unfold handleSplit. rewrite Hf.
  rewrite (proj2 (Z.eqb_neq _ _)) by lia. cbn zeta.
  unfold splitPdf. by rewrite split_loop_diverges by (simpl; lia).
Qed.

(** C10.  For a document of [totalPages] pages and [pagesPerPart >= 1]
    the loop of [splitPdf] ends (within [totalPages] iterations, and
    with the same result for any larger bound), returning
    [ceil (totalPages / pagesPerPart)] parts whose page counts sum to
    [totalPages].  The precondition is needed: for [pagesPerPart <= 0]
    and a document with at least one page the loop never ends.  The
    caller stops only a zero value: [handleSplit] with a negative
    [pagesPerPart] enters the loop and stays in it. *)
Theorem splitPdf_terminates (pages perPart : Z) :
  (0 ≤ pages)%Z →
  ((1 ≤ perPart)%Z →
   ∃ parts,
     (∀ fuel, (Z.to_nat pages ≤ fuel)%nat →
              splitPdf fuel pages perPart = Some parts)
     ∧ Z.of_nat (length parts) = ceil_div pages perPart
     ∧ ((Z.of_nat (length parts) - 1) * perPart < pages
        ≤ Z.of_nat (length parts) * perPart)%Z
     ∧ sum_pageCount parts = pages)
  ∧ ((perPart ≤ 0)%Z → (0 < pages)%Z →
     ∀ fuel, splitPdf fuel pages perPart = None)
  ∧ (∀ uuids s,
       currentFile s = Some pages → pagesPerPart s = perPart →
       (perPart < 0)%Z → (0 < pages)%Z →
       handleSplit uuids s = set_error None (set_loading true s)
       ∧ loading (handleSplit uuids s) = true
       ∧ workspace (handleSplit uuids s) = workspace s).
Proof.
  intros Ht. split_and!.
  - intros Hp. exists (split_spec pages perPart).
    destruct (ceil_div_bounds pages perPart Ht Hp) as (Hc0 & Hc1 & Hc2).
    pose proof (ceil_div_le_total pages perPart Ht Hp).
    rewrite split_spec_length by done. split_and!; [|done|done|done|].
    + intros fuel Hfuel. apply splitPdf_closed; [done..|lia].
    + by apply split_spec_covers.
  - intros Hp Hpos fuel. by apply split_loop_diverges.
  - intros uuids s Hf <- Hneg Hpos.
    rewrite (handleSplit_diverging pages) by done. done.
Qed.

Lemma splitPdf_terminates_witness :
  (0 ≤ 25)%Z
  ∧ ∃ parts,
      (∀ fuel, (Z.to_nat 25 ≤ fuel)%nat → splitPdf fuel 25 10 = Some parts)
      ∧ Z.of_nat (length parts) = 3%Z
      ∧ sum_pageCount parts = 25%Z.
Proof.
  split; [lia|].
  destruct (proj1 (splitPdf_terminates 25 10 ltac:(lia)) ltac:(lia))
    as (parts & Hrun & Hlen & _ & Hsum).
  exists parts. split_and!; [exact Hrun | exact Hlen | exact Hsum].
Defined.

(** ** [stopAnalysis] *)

Lemma with_status_same f :
  WorkspaceFile.with_status (WorkspaceFile.status f) f = f.
Proof. by destruct f. Qed.

Lemma with_selected_same f :
  WorkspaceFile.with_selected (WorkspaceFile.selected f) f = f.
Proof. by destruct f. Qed.

Lemma still_wanted_set_active k k' v s :
  still_wanted k (set_active k' v s)
  = if decide (k' = k) then v else still_wanted k s.
Proof.
  unfold still_wanted, set_active. cbn.
  rewrite lookup_insert. by case_decide.
Qed.

Lemma stopAnalysis_stopped s : stopped (stopAnalysis s).
Proof.
  split; [|done]. intros k. unfold still_wanted. cbn.
  rewrite lookup_fmap. by destruct (activeProcesses s !! k).
Qed.

Lemma pfe_finally_stopped processId s :
  stopped s → pfe_finally processId s = s.
Proof. intros [Hw _]. unfold pfe_finally. by rewrite Hw. Qed.

Lemma pfe_catch_stopped processId m s :
  stopped s → pfe_catch processId m s = s.
Proof. intros [Hw _]. unfold pfe_catch. by rewrite Hw. Qed.

Lemma ocr_finally_stopped processId s :
  stopped s → ocr_finally processId s = s.
Proof. intros [Hw _]. unfold ocr_finally. by rewrite Hw. Qed.

Lemma ocr_catch_stopped processId m s :
  stopped s → ocr_catch processId m s = s.
Proof. intros [Hw _]. unfold ocr_catch. by rewrite Hw. Qed.

Lemma awf_catch_stopped file m s : stopped s → awf_catch file m s = s.
Proof. intros [Hw _]. unfold awf_catch. by rewrite Hw. Qed.

Lemma awf_finally_workspace file cl s :
  workspace (awf_finally file cl s) = workspace s.
Proof. unfold awf_finally. by destruct (c_isSequentialRunning cl). Qed.

Lemma awf_finally_stopped file cl s :
  stopped s → stopped (awf_finally file cl s).
Proof.
  intros [Hw Hb]. split.
  - intros k. unfold awf_finally.
    destruct (c_isSequentialRunning cl); cbn [negb];
      change (still_wanted k (set_loading false ?x)) with (still_wanted k x);
      rewrite !still_wanted_set_active; repeat case_decide; auto.
  - unfold awf_finally. by destruct (c_isSequentialRunning cl).
Qed.

Lemma after_return_stopped cl batch s :
  stopped s →
  ∃ s', after_return cl batch s = (s', [])
        ∧ workspace s' = workspace s ∧ stopped s'.
Proof.
  intros [Hw Hb]. destruct batch as [rest|]; simpl.
  - exists (batch_end s). split_and!; [|done|done].
    unfold batch_loop. destruct rest; [done|]. by rewrite Hb.
  - by exists s.
Qed.

Lemma settle_extraction_stopped t r s s' ts :
  stopped s → settle_extraction t r s = Some (s', ts) →
  ts = [] ∧ workspace s' = workspace s ∧ stopped s'.
Proof.
  intros Hst Hset. pose proof Hst as [Hw Hb].
  destruct t as [name processId cl [|raw]
              |name isImage processId cl [|raw]
              |file cl [|raw] batch];
    simpl in Hset; try done.
  - unfold pfe_after_extraction in Hset.
    destruct r as [rawText|m].
    + rewrite Hw in Hset. simpl in Hset.
      rewrite pfe_finally_stopped in Hset by done. by injection Hset as <- <-.
    + rewrite pfe_catch_stopped, pfe_finally_stopped in Hset by done.
      by injection Hset as <- <-.
  - unfold awf_after_extraction in Hset.
    assert (Hk : ∀ s0, stopped s0 → workspace s0 = workspace s →
                 Some (after_return cl batch s0) = Some (s', ts) →
                 ts = [] ∧ workspace s' = workspace s ∧ stopped s').
    { intros s0 Hs0 Hws0 Heq.
      destruct (after_return_stopped cl batch s0 Hs0) as (s1 & Hs1 & Hws1 & Hst1).
      rewrite Hs1 in Heq. injection Heq as <- <-. by rewrite Hws1. }
    destruct r as [rawText|m].
    + rewrite Hw in Hset. simpl in Hset.
      eapply Hk; [|apply awf_finally_workspace|exact Hset].
      by apply awf_finally_stopped.
    + rewrite awf_catch_stopped in Hset by done.
      eapply Hk; [|apply awf_finally_workspace|exact Hset].
      by apply awf_finally_stopped.
Qed.

Lemma settle_base64_stopped t r s s' ts :
  stopped s → settle_base64 t r s = Some (s', ts) →
  ts = [] ∧ workspace s' = workspace s ∧ stopped s'.
Proof.
  intros Hst Hset. pose proof Hst as [Hw Hb].
  destruct t as [|name isImage processId cl [|raw]|]; simpl in Hset;
    try done.
  unfold ocr_after_base64 in Hset. destruct r as [base64|m].
  - rewrite Hw in Hset. simpl in Hset.
    rewrite ocr_finally_stopped in Hset by done. by injection Hset as <- <-.
  - rewrite ocr_catch_stopped, ocr_finally_stopped in Hset by done.
    by injection Hset as <- <-.
Qed.

Lemma settle_modality_stopped t r uuid now s s' ts :
  stopped s → settle_modality t r uuid now s = Some (s', ts) →
  ts = [] ∧ workspace s' = workspace s ∧ stopped s'.
Proof.
  intros Hst Hset. pose proof Hst as [Hw Hb].
  destruct t as [|name isImage processId cl [|raw]|]; simpl in Hset;
    try done.
  injection Hset as <- <-. split; [done|].
  unfold ocr_after_modality. destruct r as [extracted|m].
  - rewrite Hw. simpl. by rewrite ocr_finally_stopped.
  - by rewrite ocr_catch_stopped, ocr_finally_stopped.
Qed.

Lemma settle_analysis_stopped t r uuid now s s' ts :
  stopped s → settle_analysis t r uuid now s = Some (s', ts) →
  ts = [] ∧ workspace s' = workspace s ∧ stopped s'.
Proof.
  intros Hst Hset. pose proof Hst as [Hw Hb].
  destruct t as [name processId cl [|raw]
              |name isImage processId cl [|raw]
              |file cl [|raw] batch];
    simpl in Hset; try done.
  - injection Hset as <- <-. split; [done|].
    unfold pfe_after_analysis. destruct r as [extracted|m].
    + rewrite Hw. simpl. by rewrite pfe_finally_stopped.
    + by rewrite pfe_catch_stopped, pfe_finally_stopped.
  - assert (Hfin : awf_after_analysis file cl r uuid now s
                   = awf_finally file cl s).
    { unfold awf_after_analysis. destruct r as [extracted|m].
      - by rewrite Hw.
      - by rewrite awf_catch_stopped. }
    rewrite Hfin in Hset.
    destruct (after_return_stopped cl batch (awf_finally file cl s))
      as (s1 & Hs1 & Hws1 & Hst1); [by apply awf_finally_stopped|].
    rewrite Hs1 in Hset. injection Hset as <- <-.
    by rewrite Hws1, awf_finally_workspace.
Qed.

Lemma settlements_after_stop es σ :
  stopped (app σ) → Forall (fun e => is_settlement e = true) es →
  workspace (app (run σ es)) = workspace (app σ)
  ∧ stopped (app (run σ es))
  ∧ length (pending (run σ es)) ≤ length (pending σ).
Proof.
  intros Hst Hes. revert σ Hst.
  induction Hes as [|e es He Hes IH]; intros σ Hst; [done|].
  assert (Hstep : workspace (app (step σ e)) = workspace (app σ)
                  ∧ stopped (app (step σ e))
                  ∧ length (pending (step σ e)) ≤ length (pending σ)).
  { destruct e; try done; simpl.
    - destruct (pending σ !! n) as [t|] eqn:Ht; [|done].
      destruct (settle_extraction t r (app σ)) as [[s' ts]|] eqn:Hset; [|done].
      destruct (settle_extraction_stopped _ _ _ _ _ Hst Hset) as (-> & Hws & Hst').
      split_and!; [done|done|]. simpl. unfold replace_task.
      rewrite !length_app, length_take, length_drop. simpl. lia.
    - destruct (pending σ !! n) as [t|] eqn:Ht; [|done].
      destruct (settle_analysis t r uuid now (app σ)) as [[s' ts]|] eqn:Hset;
        [|done].
      destruct (settle_analysis_stopped _ _ _ _ _ _ _ Hst Hset) as (-> & Hws & Hst').
      split_and!; [done|done|]. simpl. unfold replace_task.
      rewrite !length_app, length_take, length_drop. simpl. lia.
    - destruct (pending σ !! n) as [t|] eqn:Ht; [|done].
      destruct (settle_base64 t r (app σ)) as [[s' ts]|] eqn:Hset; [|done].
      destruct (settle_base64_stopped _ _ _ _ _ Hst Hset) as (-> & Hws & Hst').
      split_and!; [done|done|]. simpl. unfold replace_task.
      rewrite !length_app, length_take, length_drop. simpl. lia.
    - destruct (pending σ !! n) as [t|] eqn:Ht; [|done].
      destruct (settle_modality t r uuid now (app σ)) as [[s' ts]|] eqn:Hset;
        [|done].
      destruct (settle_modality_stopped _ _ _ _ _ _ _ Hst Hset) as (-> & Hws & Hst').
      split_and!; [done|done|]. simpl. unfold replace_task.
      rewrite !length_app, length_take, length_drop. simpl. lia. }
  destruct Hstep as (Hws & Hst' & Hlen).
  destruct (IH (step σ e) Hst') as (IHws & IHst & IHlen).
  simpl. split_and!; [by rewrite IHws|done|lia].
Qed.

(** C3.  After [stopAnalysis], whatever the state it ran in: the items
    that were processing are idle and the others are as before, so no
    item is processing; the registry has the same keys, all false; the
    loading flag, the progress and the error are cleared, the batch is
    flagged as stopped and as not running.  It stays so while the
    suspended tasks settle: no settlement changes the workspace again
    or starts another task. *)
Theorem stopAnalysis_leaves_nothing_processing (σ : System) :
  let σ' := step σ ClickStop in
  workspace (app σ')
  = (fun f => if decide (WorkspaceFile.status f = Status.processing)
              then WorkspaceFile.with_status Status.idle f else f)
      <$> workspace (app σ)
  ∧ Forall (fun f => WorkspaceFile.status f ≠ Status.processing)
           (workspace (app σ'))
  ∧ (∀ k, activeProcesses (app σ') !! k
          = (fun _ => false) <$> activeProcesses (app σ) !! k)
  ∧ loading (app σ') = false
  ∧ progress (app σ') = progress_idle
  ∧ error (app σ') = None
  ∧ isBatchStopped (app σ') = true
  ∧ isSequentialRunning (app σ') = false
  ∧ ∀ es, Forall (fun e => is_settlement e = true) es →
      workspace (app (run σ' es)) = workspace (app σ')
      ∧ Forall (fun f => WorkspaceFile.status f ≠ Status.processing)
               (workspace (app (run σ' es)))
      ∧ length (pending (run σ' es)) ≤ length (pending σ').
Proof.
  intros σ'.
  assert (Hws : workspace (app σ')
    = (fun f => if decide (WorkspaceFile.status f = Status.processing)
                then WorkspaceFile.with_status Status.idle f else f)
        <$> workspace (app σ)).
  { cbn. apply list_fmap_ext. intros i f _.
    case_decide; [done | apply with_status_same]. }
  assert (Hnone : Forall (fun f => WorkspaceFile.status f ≠ Status.processing)
                         (workspace (app σ'))).
  { rewrite Hws. apply Forall_fmap, Forall_true. intros f. simpl.
    by case_decide. }
  split_and!; try done.
  - intros k. cbn. by rewrite lookup_fmap.
  - intros es Hes.
    destruct (settlements_after_stop es σ' (stopAnalysis_stopped _) Hes)
      as (Hrun & _ & Hlen).
    by rewrite Hrun.
Qed.

Lemma stopAnalysis_leaves_nothing_processing_witness :
  let σ := run (initial_system []) (two_parts ++ [ClickBatch]) in
  let es := [ExtractionSettled 0 (Resolved "texto do processo")] in
  status_of "x" σ = [Status.processing]
  ∧ Forall (fun e => is_settlement e = true) es
  ∧ workspace (app (run (step σ ClickStop) es))
    = workspace (app (step σ ClickStop))
  ∧ Forall (fun f => WorkspaceFile.status f ≠ Status.processing)
           (workspace (app (run (step σ ClickStop) es))).
Proof.
  intros σ es.
  assert (Hes : Forall (fun e => is_settlement e = true) es)
    by (repeat constructor).
  pose proof (stopAnalysis_leaves_nothing_processing σ) as H.
  cbn zeta in H. destruct H as (_ & _ & _ & _ & _ & _ & _ & _ & H).
  destruct (H es Hes) as (H1 & H2 & _).
  split_and!; [reflexivity | exact Hes | exact H1 | exact H2].
Defined.

(** ** [toggleAllSelection] *)

Lemma selectable_toggled b (ws : list WorkspaceFile.t) :
  filter (fun f => WorkspaceFile.status f ≠ Status.completed) (toggled b <$> ws)
  = WorkspaceFile.with_selected b
      <$> filter (fun f => WorkspaceFile.status f ≠ Status.completed) ws.
Proof.
  induction ws as [|f ws IH]; [done|]. rewrite fmap_cons.
  destruct (decide (WorkspaceFile.status f = Status.completed)) as [Hc|Hc].
  - rewrite !filter_cons_False; [done| |]; unfold toggled; try case_decide;
      simpl; intros Hn; by apply Hn.
  - rewrite !filter_cons_True; [|done|].
    + rewrite fmap_cons, IH. f_equal. unfold toggled. by rewrite decide_False.
    + unfold toggled. by rewrite decide_False.
Qed.

Lemma toggleAllSelection_workspace s :
  workspace (toggleAllSelection s)
  = if bool_decide (selectableFiles s = []) then workspace s
    else toggled (negb (forallb WorkspaceFile.selected (selectableFiles s)))
           <$> workspace s.
Proof. unfold toggleAllSelection. by case_bool_decide. Qed.

Lemma forallb_with_selected b (l : list WorkspaceFile.t) :
  l ≠ [] →
  forallb WorkspaceFile.selected (WorkspaceFile.with_selected b <$> l) = b.
Proof.
  induction l as [|f l IH]; [done|]. intros _. rewrite fmap_cons. simpl.
  destruct l as [|g l]; [by rewrite andb_true_r|].
  rewrite IH by done. by destruct b.
Qed.

Lemma toggleAllSelection_selectable s :
  selectableFiles (toggleAllSelection s)
  = if bool_decide (selectableFiles s = []) then selectableFiles s
    else WorkspaceFile.with_selected
           (negb (forallb WorkspaceFile.selected (selectableFiles s)))
           <$> selectableFiles s.
Proof.
  unfold selectableFiles at 1. rewrite toggleAllSelection_workspace.
  case_bool_decide; [done|]. apply selectable_toggled.
Qed.

Lemma toggleAllSelection_twice s :
  selectableFiles (toggleAllSelection (toggleAllSelection s))
  = WorkspaceFile.with_selected
      (forallb WorkspaceFile.selected (selectableFiles s))
      <$> selectableFiles s.
Proof.
  rewrite toggleAllSelection_selectable.
  rewrite (toggleAllSelection_selectable s).
  destruct (selectableFiles s) as [|f l] eqn:Hsel; [done|].
  rewrite (bool_decide_eq_false_2 (f :: l = [])) by done.
  rewrite bool_decide_eq_false_2 by done.
  rewrite forallb_with_selected by done. rewrite negb_involutive.
  rewrite <- list_fmap_compose. by apply list_fmap_ext.
Qed.

Lemma const_fmap_id (b : bool) (l : list bool) :
  (fun _ => b) <$> l = l ↔ Forall (fun v => v = b) l.
Proof.
  induction l as [|v l IH]; [by split|]. rewrite fmap_cons, Forall_cons.
  split.
  - intros [= <- Hl]. split; [done | by apply IH].
  - intros [-> Hl]. f_equal. by apply IH.
Qed.

(** C5 (as amended).  Two successive applications of the "select all
    pending" toggle keep the pending items and leave every one of them
    selected if all of them were selected to begin with, and unselected
    otherwise.  So the selection flags of the pending items return to
    their original values exactly when the pending items were all
    selected or all unselected at the start. *)
Theorem toggleAllSelection_twice_selection (s : AppState) :
  let s2 := toggleAllSelection (toggleAllSelection s) in
  let b := forallb WorkspaceFile.selected (selectableFiles s) in
  WorkspaceFile.id <$> selectableFiles s2
  = WorkspaceFile.id <$> selectableFiles s
  ∧ selection s2 = (fun _ => b) <$> selection s
  ∧ (selection s2 = selection s
     ↔ Forall (fun v => v = true) (selection s)
       ∨ Forall (fun v => v = false) (selection s)).
Proof.
  intros s2 b.
  assert (Hsel : selection s2 = (fun _ => b) <$> selection s).
  { unfold selection, s2. rewrite toggleAllSelection_twice.
    rewrite <- !list_fmap_compose. by apply list_fmap_ext. }
  split_and!.
  - unfold s2. rewrite toggleAllSelection_twice.
    rewrite <- list_fmap_compose. by apply list_fmap_ext.
  - exact Hsel.
  - rewrite Hsel, const_fmap_id.
    assert (Hb : b = true ↔ Forall (fun v => v = true) (selection s)).
    { unfold b, selection. rewrite forallb_forall, Forall_fmap, Forall_forall.
      split; intros H f Hf; apply H; by apply list_elem_of_In. }
    destruct b.
    + split; [by left | intros _; by apply Hb].
    + split; [by right|]. intros [Hall|Hnone]; [|done].
      apply Hb in Hall. done.
Qed.

Lemma toggleAllSelection_twice_selection_witness :
  let s := app (run (initial_system []) two_parts) in
  (Forall (fun v => v = true) (selection s)
   ∨ Forall (fun v => v = false) (selection s))
  ∧ selection (toggleAllSelection (toggleAllSelection s)) = selection s.
Proof.
  intros s.
  assert (H : Forall (fun v => v = true) (selection s)
              ∨ Forall (fun v => v = false) (selection s))
    by (left; repeat constructor).
  split; [exact H|].
  exact (proj2 (proj2 (proj2 (toggleAllSelection_twice_selection s))) H).
Defined.

(** C5 as stated fails on a mixed selection: with "x" selected and "y"
    not, two toggles leave both unselected. *)
Lemma toggleAllSelection_twice_mixed :
  let s := app (run (initial_system []) (two_parts ++ [ToggleFile "y"])) in
  selection s = [true; false]
  ∧ selection (toggleAllSelection (toggleAllSelection s)) = [false; false]
  ∧ selection (app (run (initial_system [])
                      (two_parts ++ [ToggleFile "y"; ToggleAll; ToggleAll])))
    ≠ selection s.
Proof. by split_and!. Qed.

(** ** Cancellation at the analysis checkpoint of [analyzeWorkspaceFile] *)

Lemma awf_after_analysis_cancelled file cl r uuid now s :
  still_wanted direct_upload s = false →
  awf_after_analysis file cl r uuid now s = awf_finally file cl s.
Proof.
  intros Hw. unfold awf_after_analysis, awf_catch.
  destruct r as [extracted|m]; by rewrite Hw.
Qed.

(** C2 (as amended).  If the entry ['direct_upload'] of the registry is
    falsy when the task resumes from [extractLegalData] (resolved or
    rejected), the task changes neither the workspace (no status,
    result or selection of any item) nor the history, the grouped data,
    the error, the progress or the file name; all it writes is its
    release block: the registry entries ['direct_upload'] and [file.id]
    are set to false, and [loading] is set to false when the
    [isSequentialRunning] its closure captured is false. *)
Theorem awf_cancelled_at_analysis_checkpoint
    (file : WorkspaceFile.t) (cl : Closure) (r : Settled ExtractionResult)
    (uuid : string) (now : Z) (s : AppState) :
  still_wanted direct_upload s = false →
  let s' := awf_after_analysis file cl r uuid now s in
  workspace s' = workspace s
  ∧ history s' = history s
  ∧ groupedData s' = groupedData s
  ∧ error s' = error s
  ∧ progress s' = progress s
  ∧ fileName s' = fileName s
  ∧ toolMode s' = toolMode s
  ∧ isBatchStopped s' = isBatchStopped s
  ∧ isSequentialRunning s' = isSequentialRunning s
  ∧ activeProcesses s'
    = <[WorkspaceFile.id file := false]>
        (<[direct_upload := false]> (activeProcesses s))
  ∧ loading s' = (if c_isSequentialRunning cl then loading s else false).
Proof.
  intros Hw s'. unfold s'. rewrite awf_after_analysis_cancelled by done.
  unfold awf_finally. by destruct (c_isSequentialRunning cl).
Qed.

Lemma awf_cancelled_at_analysis_checkpoint_witness :
  let σ := run (initial_system [])
             (two_parts ++ [ ClickAnalyze "x";
                             ExtractionSettled 0 (Resolved "texto");
                             ClickStop ]) in
  let file := workspace_part (nth_part 2 1 0) "x" in
  let cl := {| c_isSequentialRunning := false; c_searchQuery := "" |} in
  pending σ = [WorkspaceTask file cl (AwaitExtractLegalData "texto") None]
  ∧ still_wanted direct_upload (app σ) = false
  ∧ ∀ r uuid now,
      workspace (awf_after_analysis file cl r uuid now (app σ))
      = workspace (app σ)
      ∧ history (awf_after_analysis file cl r uuid now (app σ)) = [].
Proof.
  intros σ file cl.
  assert (Hw : still_wanted direct_upload (app σ) = false)
    by (vm_compute; reflexivity).
  split; [vm_compute; reflexivity|]. split; [exact Hw|]. intros r uuid now.
  pose proof (awf_cancelled_at_analysis_checkpoint
                file cl r uuid now (app σ) Hw) as H.
  cbn zeta in H. destruct H as (H1 & H2 & _).
  split; [exact H1 | exact H2].
Defined.

(** C2 as stated fails twice.  (1) The flag the task checks is the
    shared entry ['direct_upload']: a task started after the stop sets
    it again, and the stopped task, resuming, completes its item and
    appends to the history.  (2) When the check fails the release block
    still writes: here the flag was cleared by another task's release,
    and the resuming task flips the entry of its own item. *)
Lemma awf_cancelled_between_checkpoints_still_writes :
  (let σ := run (initial_system [])
              (two_parts ++ [ ClickAnalyze "x";
                              ExtractionSettled 0 (Resolved "texto");
                              ClickStop ]) in
   let σ' := run σ [ ClickAnalyze "y";
                     AnalysisSettled 0 (Resolved one_process) "u1" 7 ] in
   still_wanted direct_upload (app σ) = false
   ∧ status_of "x" σ = [Status.idle]
   ∧ history (app σ) = []
   ∧ status_of "x" σ' = [Status.completed]
   ∧ length (history (app σ')) = 1)
  ∧ (let σ := run (initial_system [])
                (two_parts ++ [ ClickAnalyze "x";
                                ExtractionSettled 0 (Resolved "texto");
                                FileUpload "b.pdf" pdf_type 1;
                                ExtractionSettled 1 (Resolved "") ]) in
     let σ' := step σ (AnalysisSettled 0 (Resolved one_process) "u1" 7) in
     still_wanted direct_upload (app σ) = false
     ∧ activeProcesses (app σ) !! "x" = Some true
     ∧ status_of "x" σ' = status_of "x" σ
     ∧ history (app σ') = history (app σ)
     ∧ activeProcesses (app σ') !! "x" = Some false).
Proof. split; split_and!; vm_compute; reflexivity. Qed.

(** ** Empty content *)


Lemma still_wanted_awf_catch_workspace file m s :
  still_wanted direct_upload s = true →
  workspace (awf_catch file m s)
  = map_file (WorkspaceFile.id file)
      (WorkspaceFile.with_status Status.error) (workspace s)
  ∧ error (awf_catch file m s)
    = Some (or_else m "Erro ao analisar arquivo do workspace.")
  ∧ history (awf_catch file m s) = history s.
Proof. intros Hw. unfold awf_catch. by rewrite Hw. Qed.

Lemma settle_extraction_empty_text t rawText s s' ts :
  trim_is_empty rawText = true →
  settle_extraction t (Resolved rawText) s = Some (s', ts) →
  Forall awaits_text ts.
Proof.
  intros Hempty Hset.
  destruct t as [name processId cl [|raw]
              |name isImage processId cl [|raw]
              |file cl [|raw] batch];
    simpl in Hset; try done.
  - unfold pfe_after_extraction in Hset. rewrite Hempty in Hset.
    destruct (negb (still_wanted processId s)); injection Hset as <- <-;
      constructor.
  - unfold awf_after_extraction in Hset. rewrite Hempty in Hset.
    assert (Hk : ∀ s0, Some (after_return cl batch s0) = Some (s', ts) →
                 Forall awaits_text ts).
    { intros s0 [= Heq]. destruct batch as [rest|]; simpl in Heq.
      - destruct (batch_loop rest s0) as [s1 [[f r]|]] eqn:Hl;
          injection Heq as <- <-; repeat constructor.
      - injection Heq as <- <-. constructor. }
    destruct (negb (still_wanted direct_upload s)); by eapply Hk.
Qed.

(** C8 (as amended).  When the extracted text is empty after trimming,
    the task never calls the extraction collaborator: it returns with
    no call of [extractLegalData] pending, and all a settlement can
    leave behind is the next file of a batch, suspended on its own text
    extraction.  If the task is still wanted at its extraction
    checkpoint it raises and catches the "empty content" error: the
    message is put in the error state (and, for a workspace item, the
    item is marked [error]); the history is untouched.  If the task was
    cancelled during the extraction it stops silently instead: the
    error state is left as it was. *)
Theorem empty_text_aborts_before_collaborator (rawText : string) :
  trim_is_empty rawText = true →
  (∀ file cl s,
     still_wanted direct_upload s = true →
     ∃ s', awf_after_extraction file cl (Resolved rawText) s = (s', None)
       ∧ error s' = Some empty_part_message
       ∧ workspace s'
         = map_file (WorkspaceFile.id file)
             (WorkspaceFile.with_status Status.error) (workspace s)
       ∧ history s' = history s)
  ∧ (∀ processId s,
       still_wanted processId s = true →
       ∃ s', pfe_after_extraction processId (Resolved rawText) s = (s', None)
         ∧ error s' = Some empty_file_message
         ∧ loading s' = false
         ∧ workspace s' = workspace s
         ∧ history s' = history s)
  ∧ (∀ file cl s,
       still_wanted direct_upload s = false →
       ∃ s', awf_after_extraction file cl (Resolved rawText) s = (s', None)
         ∧ error s' = error s ∧ workspace s' = workspace s
         ∧ history s' = history s)
  ∧ (∀ processId s,
       still_wanted processId s = false →
       pfe_after_extraction processId (Resolved rawText) s = (s, None))
  ∧ (∀ t s s' ts,
       settle_extraction t (Resolved rawText) s = Some (s', ts) →
       Forall awaits_text ts).
Proof.
  intros Hempty. split_and!.
  - intros file cl s Hw. eexists. unfold awf_after_extraction.
    rewrite Hw, Hempty. simpl. split; [reflexivity|].
    destruct (still_wanted_awf_catch_workspace file empty_part_message s Hw)
      as (Hws & Herr & Hh).
    unfold awf_finally.
    destruct (c_isSequentialRunning cl); cbn; by rewrite Hws, Herr, Hh.
  - intros processId s Hw. eexists. unfold pfe_after_extraction.
    rewrite Hw, Hempty. simpl. split; [reflexivity|].
    unfold pfe_finally, pfe_catch. rewrite Hw.
    change (still_wanted processId (set_error ?e s))
      with (still_wanted processId s). by rewrite Hw.
  - intros file cl s Hw. eexists. unfold awf_after_extraction.
    rewrite Hw. simpl. split; [reflexivity|].
    unfold awf_finally. by destruct (c_isSequentialRunning cl).
  - intros processId s Hw. unfold pfe_after_extraction, pfe_finally.
    by rewrite Hw.
  - intros t s s' ts. by apply settle_extraction_empty_text.
Qed.

Lemma empty_text_aborts_before_collaborator_witness :
  let σ := run (initial_system []) (two_parts ++ [ClickAnalyze "x"]) in
  let file := workspace_part (nth_part 2 1 0) "x" in
  let cl := {| c_isSequentialRunning := false; c_searchQuery := "" |} in
  trim_is_empty "  " = true
  ∧ still_wanted direct_upload (app σ) = true
  ∧ ∃ s', awf_after_extraction file cl (Resolved "  ") (app σ) = (s', None)
      ∧ error s' = Some empty_part_message.
Proof.
  intros σ file cl.
  assert (He : trim_is_empty "  " = true) by reflexivity.
  assert (Hw : still_wanted direct_upload (app σ) = true)
    by (vm_compute; reflexivity).
  split; [exact He|]. split; [exact Hw|].
  destruct (proj1 (empty_text_aborts_before_collaborator "  " He)
              file cl (app σ) Hw) as (s' & Hs' & Herr & _).
  exists s'. split; [exact Hs' | exact Herr].
Defined.

(** C8 as stated fails for a task cancelled while its text was being
    extracted: the extraction yields no usable text, and no message is
    shown. *)
Lemma empty_text_after_stop_is_silent :
  let σ := run (initial_system [])
             [ FileUpload "a.pdf" pdf_type 1; ClickStop;
               ExtractionSettled 0 (Resolved "") ] in
  let σw := run (initial_system [])
              (two_parts ++ [ ClickAnalyze "x"; ClickStop;
                              ExtractionSettled 0 (Resolved "") ]) in
  trim_is_empty "" = true
  ∧ error (app σ) = None ∧ pending σ = []
  ∧ error (app σw) = None ∧ pending σw = []
  ∧ status_of "x" σw = [Status.idle].
Proof. split_and!; vm_compute; reflexivity. Qed.

(** ** The batch runner *)

Lemma analyzeBatchSequential_noop s :
  selectedFiles s = [] ∨ isSequentialRunning s = true →
  analyzeBatchSequential s = (s, None).
Proof.
  intros H. unfold analyzeBatchSequential.
  destruct H as [-> | ->]; [done | by rewrite orb_true_r].
Qed.

Lemma batch_loop_stopped files s :
  isBatchStopped s = true → batch_loop files s = (batch_end s, None).
Proof. intros H. unfold batch_loop. destruct files; [done | by rewrite H]. Qed.

Lemma batch_loop_next file rest s :
  isBatchStopped s = false →
  batch_loop (file :: rest) s = (awf_start file s, Some (file, rest)).
Proof. intros H. unfold batch_loop. by rewrite H. Qed.

(** C6, evaluated at the failing run.  A batch over "x" and "y" is
    stopped while "x" is in flight; the running flag is cleared at
    once, so a second batch (over "y") passes the guard, resets the
    stop flag and sets the shared registry entry.  The first batch's
    task then passes both of its checks and completes "x", and the
    first loop, finding the stop flag cleared, starts "y": two batch
    loops are in flight together, each with a pipeline on "y". *)
Theorem analyzeBatchSequential_two_batches_in_flight :
  let σ1 := run (initial_system []) (two_parts ++ [ClickBatch; ClickStop]) in
  let σ2 := step σ1 ClickBatch in
  let σ3 := run σ2 [ ExtractionSettled 0 (Resolved "texto");
                     AnalysisSettled 0 (Resolved one_process) "u1" 7 ] in
  let y := workspace_part (nth_part 2 1 1) "y" in
  let cl := {| c_isSequentialRunning := false; c_searchQuery := "" |} in
  isBatchStopped (app σ1) = true
  ∧ isSequentialRunning (app σ1) = false
  ∧ length (pending σ1) = 1
  ∧ isBatchStopped (app σ2) = false
  ∧ length (pending σ2) = 2
  ∧ status_of "x" σ3 = [Status.completed]
  ∧ pending σ3 = [ WorkspaceTask y cl AwaitExtractText (Some []);
                   WorkspaceTask y cl AwaitExtractText (Some []) ].
Proof. split_and!; vm_compute; reflexivity. Qed.

(** ** The workspace ledger: what each handler does to the workspace *)

Lemma awf_start_workspace file s :
  workspace (awf_start file s)
  = map_file (WorkspaceFile.id file) mark_processing (workspace s).
Proof. reflexivity. Qed.

Lemma awf_catch_workspace file m s :
  workspace (awf_catch file m s) = workspace s
  ∨ workspace (awf_catch file m s)
    = map_file (WorkspaceFile.id file)
        (WorkspaceFile.with_status Status.error) (workspace s).
Proof. unfold awf_catch. destruct (still_wanted direct_upload s); auto. Qed.

Lemma awf_after_extraction_workspace file cl r s :
  let ws' := workspace (awf_after_extraction file cl r s).1 in
  ws' = workspace s
  ∨ ws' = map_file (WorkspaceFile.id file)
            (WorkspaceFile.with_status Status.error) (workspace s).
Proof.
  cbn zeta. unfold awf_after_extraction.
  destruct r as [rawText|m].
  - destruct (negb (still_wanted direct_upload s)); simpl.
    { left. apply awf_finally_workspace. }
    destruct (trim_is_empty rawText); simpl; [|by left].
    rewrite awf_finally_workspace. apply awf_catch_workspace.
  - simpl. rewrite awf_finally_workspace. apply awf_catch_workspace.
Qed.

Lemma awf_after_analysis_workspace file cl r uuid now s :
  let ws' := workspace (awf_after_analysis file cl r uuid now s) in
  ws' = workspace s
  ∨ ws' = map_file (WorkspaceFile.id file)
            (WorkspaceFile.with_status Status.error) (workspace s)
  ∨ ∃ grouped,
      ws' = map_file (WorkspaceFile.id file) (mark_completed grouped)
              (workspace s).
Proof.
  cbn zeta. unfold awf_after_analysis.
  assert (Hcatch : ∀ m,
    workspace (awf_finally file cl (awf_catch file m s)) = workspace s
    ∨ workspace (awf_finally file cl (awf_catch file m s))
      = map_file (WorkspaceFile.id file)
          (WorkspaceFile.with_status Status.error) (workspace s)).
  { intros m. rewrite awf_finally_workspace. apply awf_catch_workspace. }
  destruct r as [extracted|m].
  - destruct (negb (still_wanted direct_upload s)).
    { left. apply awf_finally_workspace. }
    destruct (groupByForo (processes extracted)) as [grouped|m].
    + right. right. exists grouped. by rewrite awf_finally_workspace.
    + destruct (Hcatch m); auto.
  - destruct (Hcatch m); auto.
Qed.

Lemma pfe_finally_workspace processId s :
  workspace (pfe_finally processId s) = workspace s.
Proof. unfold pfe_finally. by destruct (still_wanted processId s). Qed.

Lemma pfe_catch_workspace processId m s :
  workspace (pfe_catch processId m s) = workspace s.
Proof. unfold pfe_catch. by destruct (still_wanted processId s). Qed.

Lemma pfe_after_extraction_workspace processId r s :
  workspace (pfe_after_extraction processId r s).1 = workspace s.
Proof.
  unfold pfe_after_extraction. destruct r as [rawText|m]; simpl.
  - destruct (negb (still_wanted processId s)); simpl.
    { apply pfe_finally_workspace. }
    destruct (trim_is_empty rawText); simpl; [|done].
    by rewrite pfe_finally_workspace, pfe_catch_workspace.
  - by rewrite pfe_finally_workspace, pfe_catch_workspace.
Qed.

Lemma pfe_after_analysis_workspace name processId cl r uuid now s :
  workspace (pfe_after_analysis name processId cl r uuid now s) = workspace s.
Proof.
  unfold pfe_after_analysis. destruct r as [extracted|m].
  - destruct (negb (still_wanted processId s)).
    { apply pfe_finally_workspace. }
    destruct (groupByForo (processes extracted)) as [grouped|m].
    + by rewrite pfe_finally_workspace.
    + by rewrite pfe_finally_workspace, pfe_catch_workspace.
  - by rewrite pfe_finally_workspace, pfe_catch_workspace.
Qed.

Lemma ocr_finally_workspace processId s :
  workspace (ocr_finally processId s) = workspace s.
Proof. unfold ocr_finally. by destruct (still_wanted processId s). Qed.

Lemma ocr_catch_workspace processId m s :
  workspace (ocr_catch processId m s) = workspace s.
Proof. unfold ocr_catch. by destruct (still_wanted processId s). Qed.

Lemma ocr_after_base64_workspace processId r s :
  workspace (ocr_after_base64 processId r s).1 = workspace s.
Proof.
  unfold ocr_after_base64. destruct r as [base64|m]; simpl.
  - destruct (negb (still_wanted processId s)); simpl; [|done].
    apply ocr_finally_workspace.
  - by rewrite ocr_finally_workspace, ocr_catch_workspace.
Qed.

Lemma ocr_after_modality_workspace name isImage processId r uuid now s :
  workspace (ocr_after_modality name isImage processId r uuid now s)
  = workspace s.
Proof.
  unfold ocr_after_modality. destruct r as [extracted|m].
  - destruct (negb (still_wanted processId s)).
    { apply ocr_finally_workspace. }
    destruct (groupByForo (processes extracted)) as [grouped|m].
    + by rewrite ocr_finally_workspace.
    + by rewrite ocr_finally_workspace, ocr_catch_workspace.
  - by rewrite ocr_finally_workspace, ocr_catch_workspace.
Qed.

Lemma settle_base64_workspace t r s s' ts :
  settle_base64 t r s = Some (s', ts) → workspace s' = workspace s.
Proof.
  intros Hset.
  destruct t as [|name isImage processId cl [|raw]|]; simpl in Hset;
    try done.
  pose proof (ocr_after_base64_workspace processId r s) as Hw.
  destruct (ocr_after_base64 processId r s) as [s0 k].
  by injection Hset as <- <-.
Qed.

Lemma settle_modality_workspace t r uuid now s s' ts :
  settle_modality t r uuid now s = Some (s', ts) → workspace s' = workspace s.
Proof.
  intros Hset.
  destruct t as [|name isImage processId cl [|raw]|]; simpl in Hset;
    try done.
  injection Hset as <- <-. apply ocr_after_modality_workspace.
Qed.

(** An OCR settlement replaces the task by at most its own
    continuation. *)
Lemma settle_base64_tasks t r s s' ts :
  settle_base64 t r s = Some (s', ts) →
  ts = [] ∨ ∃ name isImage processId cl base64,
              ts = [OcrTask name isImage processId cl
                      (AwaitExtractModality base64)].
Proof.
  intros Hset.
  destruct t as [|name isImage processId cl [|raw]|]; simpl in Hset;
    try done.
  destruct (ocr_after_base64 processId r s) as [s0 [base64|]];
    injection Hset as <- <-; [right|by left].
  by eexists _, _, _, _, _.
Qed.

Lemma settle_modality_tasks t r uuid now s s' ts :
  settle_modality t r uuid now s = Some (s', ts) → ts = [].
Proof.
  intros Hset.
  destruct t as [|name isImage processId cl [|raw]|]; simpl in Hset;
    try done.
  by injection Hset as <- <-.
Qed.

Lemma batch_loop_cases files s :
  (batch_loop files s = (batch_end s, None))
  ∨ ∃ file rest, files = file :: rest
                 ∧ batch_loop files s = (awf_start file s, Some (file, rest)).
Proof.
  unfold batch_loop. destruct files as [|file rest]; [by left|].
  destruct (isBatchStopped s); [by left|]. right. by eexists _, _.
Qed.

Lemma after_return_cases cl batch s :
  (after_return cl batch s = (s, []))
  ∨ (after_return cl batch s = (batch_end s, []))
  ∨ ∃ file rest, batch = Some (file :: rest)
      ∧ after_return cl batch s
        = (awf_start file s,
           [WorkspaceTask file cl AwaitExtractText (Some rest)]).
Proof.
  destruct batch as [files|]; [|by left]. simpl.
  destruct (batch_loop_cases files s) as [->|(file & rest & -> & ->)].
  - right. by left.
  - right. right. by eexists _, _.
Qed.

Lemma handleFileUpload_workspace name type_ pages s :
  workspace (handleFileUpload name type_ pages s).1 = workspace s.
Proof. unfold handleFileUpload. by repeat case_match. Qed.

Lemma handleFileUpload_tasks name type_ pages s :
  (handleFileUpload name type_ pages s).2 = []
  ∨ ∃ t, (handleFileUpload name type_ pages s).2 = [t] ∧ task_ids t = [].
Proof. unfold handleFileUpload. repeat case_match; simpl; eauto. Qed.

Lemma handleSplit_workspace uuids s :
  ∃ parts, workspace (handleSplit uuids s)
           = workspace s ++ zip_with workspace_part parts uuids.
Proof.
  unfold handleSplit.
  destruct (currentFile s) as [pages|]; [|exists []; by rewrite app_nil_r].
  destruct (pagesPerPart s =? 0)%Z; [exists []; by rewrite app_nil_r|].
  cbn zeta.
  destruct (splitPdf _ _ _) as [parts|].
  - by exists parts.
  - exists []. by rewrite app_nil_r.
Qed.

Lemma analyzeBatchSequential_cases s :
  analyzeBatchSequential s = (s, None)
  ∨ ∃ file rest,
      selectedFiles s = file :: rest
      ∧ analyzeBatchSequential s
        = (awf_start file
             (set_isSequentialRunning true (set_isBatchStopped false s)),
           Some (file, rest)).
Proof.
  unfold analyzeBatchSequential.
  destruct (bool_decide (selectedFiles s = []) || isSequentialRunning s)
    eqn:Hg; [by left|].
  right. cbn zeta.
  destruct (selectedFiles s) as [|file rest] eqn:Hsel.
  { by rewrite bool_decide_eq_true_2 in Hg. }
  by eexists _, _.
Qed.

Section ledger_invariant.
Variable P : WorkspaceFile.t → Prop.
Hypothesis P_selected : ∀ v f, P f → P (WorkspaceFile.with_selected v f).
Hypothesis P_status :
  ∀ st f, st ≠ Status.completed → P f → P (WorkspaceFile.with_status st f).
Hypothesis P_completed : ∀ grouped f, P (mark_completed grouped f).
Hypothesis P_part : ∀ part uuid, P (workspace_part part uuid).

Lemma map_file_preserves i g ws :
  (∀ f, P f → P (g f)) → Forall P ws → Forall P (map_file i g ws).
Proof.
  intros Hg Hws. unfold map_file. apply Forall_fmap.
  eapply Forall_impl; [exact Hws|]. intros f Hf. simpl.
  case_bool_decide; auto.
Qed.

Lemma awf_start_preserves file s :
  Forall P (workspace s) → Forall P (workspace (awf_start file s)).
Proof.
  intros Hws. rewrite awf_start_workspace. apply map_file_preserves; [|done].
  intros f Hf. unfold mark_processing. by apply P_selected, P_status.
Qed.

Lemma after_return_preserves cl batch s :
  Forall P (workspace s) →
  Forall P (workspace (after_return cl batch s).1).
Proof.
  intros Hws.
  destruct (after_return_cases cl batch s)
    as [-> | [-> | (file & rest & _ & ->)]]; [done|done|].
  by apply awf_start_preserves.
Qed.

Lemma awf_after_extraction_preserves file cl r s :
  Forall P (workspace s) →
  Forall P (workspace (awf_after_extraction file cl r s).1).
Proof.
  intros Hws.
  destruct (awf_after_extraction_workspace file cl r s) as [-> | ->]; [done|].
  apply map_file_preserves; [|done]. intros f Hf. by apply P_status.
Qed.

Lemma awf_after_analysis_preserves file cl r uuid now s :
  Forall P (workspace s) →
  Forall P (workspace (awf_after_analysis file cl r uuid now s)).
Proof.
  intros Hws.
  destruct (awf_after_analysis_workspace file cl r uuid now s)
    as [-> | [-> | (grouped & ->)]]; [done| |].
  - apply map_file_preserves; [|done]. intros f Hf. by apply P_status.
  - apply map_file_preserves; [|done]. intros f Hf. apply P_completed.
Qed.

Lemma settle_extraction_preserves t r s s' ts :
  settle_extraction t r s = Some (s', ts) →
  Forall P (workspace s) → Forall P (workspace s').
Proof.
  intros Hset Hws.
  destruct t as [name processId cl [|raw]
              |name isImage processId cl [|raw]
              |file cl [|raw] batch];
    simpl in Hset; try done.
  - pose proof (pfe_after_extraction_workspace processId r s) as Hw.
    destruct (pfe_after_extraction processId r s) as [s0 k].
    injection Hset as <- <-. simpl in Hw. by rewrite Hw.
  - pose proof (awf_after_extraction_preserves file cl r s Hws) as Hw.
    destruct (awf_after_extraction file cl r s) as [s0 [rawText|]].
    + by injection Hset as <- <-.
    + injection Hset as Hset. simpl in Hw.
      pose proof (after_return_preserves cl batch s0 Hw) as Hr.
      by rewrite Hset in Hr.
Qed.

Lemma settle_analysis_preserves t r uuid now s s' ts :
  settle_analysis t r uuid now s = Some (s', ts) →
  Forall P (workspace s) → Forall P (workspace s').
Proof.
  intros Hset Hws.
  destruct t as [name processId cl [|raw]
              |name isImage processId cl [|raw]
              |file cl [|raw] batch];
    simpl in Hset; try done.
  - injection Hset as <- <-. by rewrite pfe_after_analysis_workspace.
  - injection Hset as Hset.
    pose proof (after_return_preserves cl batch _
                  (awf_after_analysis_preserves file cl r uuid now s Hws)) as Hr.
    by rewrite Hset in Hr.
Qed.

Lemma stopAnalysis_preserves s :
  Forall P (workspace s) → Forall P (workspace (stopAnalysis s)).
Proof.
  intros Hws. cbn. apply Forall_fmap.
  eapply Forall_impl; [exact Hws|]. intros f Hf. simpl.
  case_decide; [by apply P_status | by rewrite with_status_same].
Qed.

Lemma toggleFileSelection_preserves i s :
  Forall P (workspace s) → Forall P (workspace (toggleFileSelection i s)).
Proof.
  intros Hws. cbn. apply map_file_preserves; [|done].
  intros f Hf. case_decide; by apply P_selected.
Qed.

Lemma toggleAllSelection_preserves s :
  Forall P (workspace s) → Forall P (workspace (toggleAllSelection s)).
Proof.
  intros Hws. rewrite toggleAllSelection_workspace.
  case_bool_decide; [done|]. apply Forall_fmap.
  eapply Forall_impl; [exact Hws|]. intros f Hf. simpl.
  unfold toggled. case_decide; by apply P_selected.
Qed.

Lemma handleSplit_preserves uuids s :
  Forall P (workspace s) → Forall P (workspace (handleSplit uuids s)).
Proof.
  intros Hws. destruct (handleSplit_workspace uuids s) as (parts & ->).
  apply Forall_app. split; [done|].
  clear Hws. revert uuids.
  induction parts as [|p parts IH]; intros [|u uuids]; simpl;
    constructor; auto.
Qed.

Lemma step_preserves σ e :
  Forall P (workspace (app σ)) → Forall P (workspace (app (step σ e))).
Proof.
  intros Hws. destruct e; simpl; try done.
  - pose proof (handleFileUpload_workspace name type_ pages (app σ)) as Hw.
    destruct (handleFileUpload name type_ pages (app σ)) as [s' started].
    simpl in *. by rewrite Hw.
  - by apply handleSplit_preserves.
  - destruct (analyzable i (app σ)); [|done]. simpl.
    by apply awf_start_preserves.
  - by apply stopAnalysis_preserves.
  - destruct (analyzeBatchSequential_cases (app σ))
      as [-> | (file & rest & _ & ->)]; [done|].
    simpl. by apply awf_start_preserves.
  - by apply toggleFileSelection_preserves.
  - by apply toggleAllSelection_preserves.
  - destruct (pending σ !! n) as [t|]; [|done].
    destruct (settle_extraction t r (app σ)) as [[s' ts]|] eqn:Hset; [|done].
    simpl. by eapply settle_extraction_preserves.
  - destruct (pending σ !! n) as [t|]; [|done].
    destruct (settle_analysis t r uuid now (app σ)) as [[s' ts]|] eqn:Hset;
      [|done].
    simpl. by eapply settle_analysis_preserves.
  - destruct (pending σ !! n) as [t|]; [|done].
    destruct (settle_base64 t r (app σ)) as [[s' ts]|] eqn:Hset; [|done].
    simpl. by rewrite (settle_base64_workspace _ _ _ _ _ Hset).
  - destruct (pending σ !! n) as [t|]; [|done].
    destruct (settle_modality t r uuid now (app σ)) as [[s' ts]|] eqn:Hset;
      [|done].
    simpl. by rewrite (settle_modality_workspace _ _ _ _ _ _ _ Hset).
Qed.

Lemma run_preserves es σ :
  Forall P (workspace (app σ)) → Forall P (workspace (app (run σ es))).
Proof.
  revert σ. induction es as [|e es IH]; intros σ Hws; [done|].
  simpl. apply IH. by apply step_preserves.
Qed.

End ledger_invariant.

Lemma completed_has_results_reachable σ :
  reachable σ → Forall completed_has_results (workspace (app σ)).
Proof.
  intros (savedHistory & es & ->).
  apply run_preserves; try done.
  - intros st f Hst _ Hc. simpl in Hc. done.
Qed.

(** ** Runs without overlapping tasks *)

Lemma fmap_keeps_ids (h : WorkspaceFile.t → WorkspaceFile.t)
    (ws : list WorkspaceFile.t) :
  (∀ f, WorkspaceFile.id (h f) = WorkspaceFile.id f) →
  WorkspaceFile.id <$> (h <$> ws) = WorkspaceFile.id <$> ws.
Proof.
  intros Hid. rewrite <- list_fmap_compose. apply list_fmap_ext.
  intros i f _. apply Hid.
Qed.

Lemma fmap_untouched (h : WorkspaceFile.t → WorkspaceFile.t) ids
    (ws : list WorkspaceFile.t) :
  (∀ f, WorkspaceFile.id (h f) = WorkspaceFile.id f) →
  (∀ f, f ∈ ws → WorkspaceFile.id f ∈ ids →
        WorkspaceFile.results (h f) = WorkspaceFile.results f) →
  untouched ids ws → untouched ids (h <$> ws).
Proof.
  intros Hid Hres Hun f' Hin Hids.
  apply list_elem_of_fmap in Hin as (f & -> & Hf).
  rewrite Hid in Hids. rewrite Hres by done. by apply Hun.
Qed.

Lemma fmap_results_imply_completed (h : WorkspaceFile.t → WorkspaceFile.t)
    (ws : list WorkspaceFile.t) :
  (∀ f, f ∈ ws → results_imply_completed f → results_imply_completed (h f)) →
  Forall results_imply_completed ws →
  Forall results_imply_completed (h <$> ws).
Proof.
  intros Hh Hws. apply Forall_fmap, Forall_forall. intros f Hf. simpl.
  apply Hh; [done|]. by eapply (proj1 (Forall_forall _ _) Hws).
Qed.

Lemma untouched_subset ids ids' ws :
  (∀ i, i ∈ ids' → i ∈ ids) → untouched ids ws → untouched ids' ws.
Proof. intros Hsub Hun f Hf Hi. apply Hun; auto. Qed.

Lemma no_results_imply_completed f :
  WorkspaceFile.results f = None → results_imply_completed f.
Proof. intros Hr Hne. by rewrite Hr in Hne. Qed.

Lemma same_id_same_file (ws : list WorkspaceFile.t) f g :
  NoDup (WorkspaceFile.id <$> ws) → f ∈ ws → g ∈ ws →
  WorkspaceFile.id f = WorkspaceFile.id g → f = g.
Proof.
  induction ws as [|x ws IH]; intros Hnd Hf Hg Hid; [by inversion Hf|].
  rewrite fmap_cons in Hnd. apply NoDup_cons in Hnd as [Hx Hnd].
  apply elem_of_cons in Hf as [->|Hf]; apply elem_of_cons in Hg as [->|Hg].
  - done.
  - exfalso. apply Hx. rewrite Hid. apply list_elem_of_fmap. eauto.
  - exfalso. apply Hx. rewrite <- Hid. apply list_elem_of_fmap. eauto.
  - by apply IH.
Qed.

(** The three shapes a workspace write of a task takes, and their effect
    on the invariant. *)
Lemma mark_error_invariant i ids ws :
  i ∈ ids →
  NoDup (WorkspaceFile.id <$> ws) → Forall results_imply_completed ws →
  untouched ids ws →
  let ws' := map_file i (WorkspaceFile.with_status Status.error) ws in
  NoDup (WorkspaceFile.id <$> ws') ∧ Forall results_imply_completed ws'
  ∧ untouched ids ws'.
Proof.
  intros Hi Hnd HQ Hun. cbn zeta. unfold map_file. split_and!.
  - rewrite fmap_keeps_ids; [done|]. intros f. by case_bool_decide.
  - apply fmap_results_imply_completed; [|done]. intros f Hf HQf.
    case_bool_decide as Hid; [|done].
    apply no_results_imply_completed. simpl. apply Hun; [done|by rewrite Hid].
  - apply fmap_untouched; [| |done]; intros f; by case_bool_decide.
Qed.

Lemma mark_processing_invariant i ids ws :
  i ∈ ids →
  NoDup (WorkspaceFile.id <$> ws) → Forall results_imply_completed ws →
  untouched ids ws →
  let ws' := map_file i mark_processing ws in
  NoDup (WorkspaceFile.id <$> ws') ∧ Forall results_imply_completed ws'
  ∧ untouched ids ws'.
Proof.
  intros Hi Hnd HQ Hun. cbn zeta. unfold map_file. split_and!.
  - rewrite fmap_keeps_ids; [done|]. intros f. by case_bool_decide.
  - apply fmap_results_imply_completed; [|done]. intros f Hf HQf.
    case_bool_decide as Hid; [|done].
    apply no_results_imply_completed. simpl. apply Hun; [done|by rewrite Hid].
  - apply fmap_untouched; [| |done]; intros f; by case_bool_decide.
Qed.

Lemma mark_completed_invariant i grouped ids ws :
  i ∉ ids →
  NoDup (WorkspaceFile.id <$> ws) → Forall results_imply_completed ws →
  untouched ids ws →
  let ws' := map_file i (mark_completed grouped) ws in
  NoDup (WorkspaceFile.id <$> ws') ∧ Forall results_imply_completed ws'
  ∧ untouched ids ws'.
Proof.
  intros Hi Hnd HQ Hun. cbn zeta. unfold map_file. split_and!.
  - rewrite fmap_keeps_ids; [done|]. intros f. by case_bool_decide.
  - apply fmap_results_imply_completed; [|done]. intros f Hf HQf.
    case_bool_decide as Hid; [|done]. by intros _.
  - apply fmap_untouched; [| |done].
    + intros f. by case_bool_decide.
    + intros f Hf Hids. case_bool_decide as Hid; [|done].
      exfalso. apply Hi. by rewrite <- Hid.
Qed.

Lemma awf_start_invariant file rest cl at_ s :
  ledger_fit (workspace s) →
  NoDup (WorkspaceFile.id <$> file :: rest) →
  untouched (WorkspaceFile.id <$> file :: rest) (workspace s) →
  ledger_fit (workspace (awf_start file s))
  ∧ ∀ batch, default [] batch = rest →
      tasks_fit (workspace (awf_start file s))
        [WorkspaceTask file cl at_ batch].
Proof.
  intros [Hnd HQ] Hids Hun. rewrite awf_start_workspace.
  destruct (mark_processing_invariant (WorkspaceFile.id file)
              (WorkspaceFile.id <$> file :: rest) (workspace s))
    as (Hnd' & HQ' & Hun'); [by left|done..|].
  split; [by split|]. intros batch Hb. right. eexists. split; [done|].
  simpl. rewrite Hb. by split.
Qed.

Lemma after_return_invariant cl batch s :
  ledger_fit (workspace s) →
  NoDup (WorkspaceFile.id <$> default [] batch) →
  untouched (WorkspaceFile.id <$> default [] batch) (workspace s) →
  ledger_fit (workspace (after_return cl batch s).1)
  ∧ tasks_fit (workspace (after_return cl batch s).1)
      (after_return cl batch s).2.
Proof.
  intros Hfit Hnd Hun.
  destruct (after_return_cases cl batch s)
    as [-> | [-> | (file & rest & -> & ->)]]; simpl.
  - split; [done | by left].
  - split; [done | by left].
  - simpl in Hnd, Hun.
    destruct (awf_start_invariant file rest cl AwaitExtractText s Hfit Hnd Hun)
      as [Hfit' Htask].
    split; [done|]. by apply (Htask (Some rest)).
Qed.

Lemma task_ids_rest file cl at_ batch :
  task_ids (WorkspaceTask file cl at_ batch)
  = WorkspaceFile.id file :: (WorkspaceFile.id <$> default [] batch).
Proof. done. Qed.

Lemma settle_extraction_invariant t r s s' ts :
  settle_extraction t r s = Some (s', ts) →
  ledger_fit (workspace s) →
  NoDup (task_ids t) → untouched (task_ids t) (workspace s) →
  ledger_fit (workspace s') ∧ tasks_fit (workspace s') ts.
Proof.
  intros Hset Hfit Hnd Hun.
  destruct t as [name processId cl [|raw]
              |name isImage processId cl [|raw]
              |file cl [|raw] batch];
    simpl in Hset; try done.
  - pose proof (pfe_after_extraction_workspace processId r s) as Hw.
    destruct (pfe_after_extraction processId r s) as [s0 k].
    injection Hset as <- <-. simpl in Hw. rewrite Hw. split; [done|].
    destruct k; [|by left]. right. eexists. split; [done|].
    split; [constructor|]. intros f _ Hf. by apply elem_of_nil in Hf.
  - rewrite task_ids_rest in Hnd, Hun.
    assert (Hmid : ledger_fit (workspace (awf_after_extraction file cl r s).1)
              ∧ untouched
                  (WorkspaceFile.id file
                     :: (WorkspaceFile.id <$> default [] batch))
                  (workspace (awf_after_extraction file cl r s).1)).
    { destruct Hfit as [HndW HQ].
      destruct (awf_after_extraction_workspace file cl r s) as [-> | ->];
        [done|].
      destruct (mark_error_invariant (WorkspaceFile.id file) _ (workspace s)
                  ltac:(by left) HndW HQ Hun) as (? & ? & ?).
      by split. }
    destruct (awf_after_extraction file cl r s) as [s0 [rawText|]];
      simpl in Hmid; destruct Hmid as [Hfit0 Hun0].
    + injection Hset as <- <-. split; [done|]. right. eexists.
      split; [done|]. by rewrite task_ids_rest.
    + injection Hset as Hset.
      apply NoDup_cons in Hnd as [_ Hnd].
      pose proof (after_return_invariant cl batch s0 Hfit0 Hnd
                    ltac:(eapply untouched_subset; [|exact Hun0];
                          intros i Hi; by right)) as Hr.
      by rewrite Hset in Hr.
Qed.

Lemma settle_analysis_invariant t r uuid now s s' ts :
  settle_analysis t r uuid now s = Some (s', ts) →
  ledger_fit (workspace s) →
  NoDup (task_ids t) → untouched (task_ids t) (workspace s) →
  ledger_fit (workspace s') ∧ tasks_fit (workspace s') ts.
Proof.
  intros Hset Hfit Hnd Hun.
  destruct t as [name processId cl [|raw]
              |name isImage processId cl [|raw]
              |file cl [|raw] batch];
    simpl in Hset; try done.
  - injection Hset as <- <-. rewrite pfe_after_analysis_workspace.
    split; [done | by left].
  - rewrite task_ids_rest in Hnd, Hun.
    apply NoDup_cons in Hnd as [Hfile Hnd].
    assert (Hrest : untouched (WorkspaceFile.id <$> default [] batch)
                      (workspace s)).
    { eapply untouched_subset; [|exact Hun]. intros i Hi. by right. }
    assert (Hmid : ledger_fit
                     (workspace (awf_after_analysis file cl r uuid now s))
              ∧ untouched (WorkspaceFile.id <$> default [] batch)
                  (workspace (awf_after_analysis file cl r uuid now s))).
    { destruct Hfit as [HndW HQ].
      destruct (awf_after_analysis_workspace file cl r uuid now s)
        as [-> | [-> | (grouped & ->)]]; [done| |].
      - destruct (mark_error_invariant (WorkspaceFile.id file) _ (workspace s)
                    ltac:(by left) HndW HQ Hun) as (? & ? & Hun').
        split; [by split|].
        eapply untouched_subset; [|exact Hun']. intros i Hi. by right.
      - destruct (mark_completed_invariant (WorkspaceFile.id file) grouped
                    _ (workspace s) Hfile HndW HQ Hrest) as (? & ? & ?).
        by split. }
    destruct Hmid as [Hfit0 Hun0]. injection Hset as Hset.
    pose proof (after_return_invariant cl batch _ Hfit0 Hnd Hun0) as Hr.
    by rewrite Hset in Hr.
Qed.

Lemma zip_with_workspace_part_ids parts uuids :
  WorkspaceFile.id <$> zip_with workspace_part parts uuids
  = take (length parts) uuids.
Proof.
  revert uuids. induction parts as [|p parts IH]; intros [|u uuids];
    simpl; [done..|]. by rewrite <- IH.
Qed.

Lemma zip_with_workspace_part_results parts uuids f :
  f ∈ zip_with workspace_part parts uuids → WorkspaceFile.results f = None.
Proof.
  revert uuids. induction parts as [|p parts IH]; intros [|u uuids] Hf;
    simpl in Hf; try by apply elem_of_nil in Hf.
  apply elem_of_cons in Hf as [->|Hf]; [done | by eapply IH].
Qed.

Lemma analyzable_Some i s file :
  analyzable i s = Some file →
  file ∈ workspace s ∧ WorkspaceFile.id file = i
  ∧ WorkspaceFile.status file ≠ Status.completed.
Proof.
  unfold analyzable. intros Hh. apply head_Some_elem_of in Hh.
  apply list_elem_of_filter in Hh as [(Hid & _ & Hc) Hin]. done.
Qed.

Lemma not_completed_no_results f :
  results_imply_completed f → WorkspaceFile.status f ≠ Status.completed →
  WorkspaceFile.results f = None.
Proof.
  intros HQ Hc. destruct (WorkspaceFile.results f) eqn:Hr; [|done].
  exfalso. apply Hc, HQ. by rewrite Hr.
Qed.

Lemma ledger_fit_untouched_one ws file :
  ledger_fit ws → file ∈ ws →
  WorkspaceFile.status file ≠ Status.completed →
  untouched [WorkspaceFile.id file] ws.
Proof.
  intros [Hnd HQ] Hin Hc f Hf Hid. apply list_elem_of_singleton in Hid.
  rewrite (same_id_same_file ws f file Hnd Hf Hin Hid).
  apply not_completed_no_results; [|done].
  by eapply (proj1 (Forall_forall _ _) HQ).
Qed.

Lemma ledger_fit_selectedFiles s :
  ledger_fit (workspace s) →
  NoDup (WorkspaceFile.id <$> selectedFiles s)
  ∧ untouched (WorkspaceFile.id <$> selectedFiles s) (workspace s).
Proof.
  intros [Hnd HQ]. split.
  - eapply sublist_NoDup; [exact Hnd|].
    apply fmap_sublist. unfold selectedFiles. apply sublist_filter.
  - intros f Hf Hid. apply list_elem_of_fmap in Hid as (g & Hid & Hg).
    unfold selectedFiles in Hg.
    apply list_elem_of_filter in Hg as [[_ Hc] Hg].
    rewrite (same_id_same_file (workspace s) f g Hnd Hf Hg Hid).
    apply not_completed_no_results; [|done].
    by eapply (proj1 (Forall_forall _ _) HQ).
Qed.

Lemma tasks_fit_lookup ws ts n t :
  tasks_fit ws ts → ts !! n = Some t →
  n = 0%nat ∧ ts = [t] ∧ NoDup (task_ids t) ∧ untouched (task_ids t) ws.
Proof.
  intros [-> | (t0 & -> & Hnd & Hun)] Hl; [done|].
  destruct n as [|n]; [|done]. by injection Hl as <-.
Qed.

Lemma tasks_fit_same_results (h : WorkspaceFile.t → WorkspaceFile.t) ws ts :
  (∀ f, WorkspaceFile.id (h f) = WorkspaceFile.id f) →
  (∀ f, WorkspaceFile.results (h f) = WorkspaceFile.results f) →
  tasks_fit ws ts → tasks_fit (h <$> ws) ts.
Proof.
  intros Hid Hres [-> | (t & -> & Hnd & Hun)]; [by left|].
  right. exists t. split_and!; [done..|].
  apply fmap_untouched; [done| |done]. intros f _ _. apply Hres.
Qed.

Lemma ledger_fit_same_results (h : WorkspaceFile.t → WorkspaceFile.t) ws :
  (∀ f, WorkspaceFile.id (h f) = WorkspaceFile.id f) →
  (∀ f, WorkspaceFile.results (h f) = WorkspaceFile.results f) →
  (∀ f, WorkspaceFile.status (h f) = WorkspaceFile.status f
        ∨ WorkspaceFile.status f = Status.processing) →
  ledger_fit ws → ledger_fit (h <$> ws).
Proof.
  intros Hid Hres Hst [Hnd HQ]. split.
  - by rewrite fmap_keeps_ids.
  - apply fmap_results_imply_completed; [|done].
    intros f _ HQf Hr. rewrite Hres in Hr. specialize (HQf Hr).
    destruct (Hst f) as [-> | Hp]; [done|]. by rewrite Hp in HQf.
Qed.

Lemma step_exclusive_inv σ e :
  exclusive_inv σ → exclusive σ e → exclusive_inv (step σ e).
Proof.
  intros [Hfit Htasks] [Hstart Hfresh].
  destruct e; simpl; try (by split).
  - (* FileUpload *)
    pose proof (handleFileUpload_workspace name type_ pages (app σ)) as Hw.
    pose proof (handleFileUpload_tasks name type_ pages (app σ)) as Ht.
    simpl in Hstart.
    destruct (handleFileUpload name type_ pages (app σ)) as [s' started].
    simpl in *. split; simpl; rewrite Hw; [done|].
    destruct Ht as [-> | (t & -> & Hids)]; [by rewrite app_nil_r|].
    rewrite Hstart by done. right. exists t. split; [done|].
    rewrite Hids. split; [constructor|].
    intros f _ Hf. by apply elem_of_nil in Hf.
  - (* ClickSplit *)
    simpl in Hfresh. destruct Hfresh as [Hnd Hnew].
    destruct (handleSplit_workspace uuids (app σ)) as (parts & Hw).
    split; simpl; rewrite Hw.
    + destruct Hfit as [HndW HQ]. split.
      * rewrite fmap_app, zip_with_workspace_part_ids. apply NoDup_app.
        split_and!; [done| |].
        -- intros i Hi Hit. apply (Hnew i); [|done].
           by eapply subseteq_take, Hit.
        -- eapply sublist_NoDup; [exact Hnd | apply sublist_take].
      * apply Forall_app. split; [done|]. apply Forall_forall.
        intros f Hf. apply no_results_imply_completed.
        by eapply zip_with_workspace_part_results.
    + destruct Htasks as [-> | (t & -> & Hndt & Hun)]; [by left|].
      right. exists t. split_and!; [done..|].
      intros f Hf Hid. apply elem_of_app in Hf as [Hf|Hf]; [by apply Hun|].
      by eapply zip_with_workspace_part_results.
  - (* ClickAnalyze *)
    destruct (analyzable i (app σ)) as [file|] eqn:Han; [|by split].
    apply analyzable_Some in Han as (Hin & Hid & Hc).
    rewrite (Hstart eq_refl). simpl.
    destruct (awf_start_invariant file [] (closure_of (app σ)) AwaitExtractText
                (app σ) Hfit) as [Hfit' Htask].
    + repeat constructor. by intros Hn%elem_of_nil.
    + by apply ledger_fit_untouched_one.
    + split; [done|]. by apply (Htask None).
  - (* ClickStop *)
    split; simpl.
    + apply ledger_fit_same_results; [done|done| |done].
      intros f. simpl. case_decide; auto.
    + by apply tasks_fit_same_results.
  - (* ClickBatch *)
    rewrite (Hstart eq_refl).
    destruct (analyzeBatchSequential_cases (app σ))
      as [-> | (file & rest & Hsel & ->)]; simpl.
    { split; [done | by left]. }
    destruct (ledger_fit_selectedFiles (app σ) Hfit) as [HndS HunS].
    rewrite Hsel in HndS, HunS.
    destruct (awf_start_invariant file rest (closure_of (app σ))
                AwaitExtractText
                (set_isSequentialRunning true
                   (set_isBatchStopped false (app σ))) Hfit HndS HunS)
      as [Hfit' Htask].
    split; [done|]. by apply (Htask (Some rest)).
  - (* ToggleFile *)
    split; simpl; unfold map_file.
    + apply ledger_fit_same_results; [| | |done]; intros f;
        repeat case_bool_decide; repeat case_decide; auto.
    + apply tasks_fit_same_results; [| |done]; intros f;
        repeat case_bool_decide; repeat case_decide; auto.
  - (* ToggleAll *)
    split; simpl; rewrite toggleAllSelection_workspace;
      case_bool_decide; try done.
    + apply ledger_fit_same_results; [| | |done]; intros f;
        unfold toggled; case_decide; auto.
    + apply tasks_fit_same_results; [| |done]; intros f;
        unfold toggled; case_decide; auto.
  - (* ExtractionSettled *)
    destruct (pending σ !! n) as [t|] eqn:Hl; [|by split].
    destruct (tasks_fit_lookup _ _ _ _ Htasks Hl) as (-> & Hp & Hnd & Hun).
    destruct (settle_extraction t r (app σ)) as [[s' ts]|] eqn:Hset;
      [|by split].
    destruct (settle_extraction_invariant _ _ _ _ _ Hset Hfit Hnd Hun)
      as [Hfit' Htasks'].
    split; simpl; [done|]. rewrite Hp. unfold replace_task. simpl.
    by rewrite app_nil_r.
  - (* AnalysisSettled *)
    destruct (pending σ !! n) as [t|] eqn:Hl; [|by split].
    destruct (tasks_fit_lookup _ _ _ _ Htasks Hl) as (-> & Hp & Hnd & Hun).
    destruct (settle_analysis t r uuid now (app σ)) as [[s' ts]|] eqn:Hset;
      [|by split].
    destruct (settle_analysis_invariant _ _ _ _ _ _ _ Hset Hfit Hnd Hun)
      as [Hfit' Htasks'].
    split; simpl; [done|]. rewrite Hp. unfold replace_task. simpl.
    by rewrite app_nil_r.
  - (* Base64Settled *)
    destruct (pending σ !! n) as [t|] eqn:Hl; [|by split].
    destruct (tasks_fit_lookup _ _ _ _ Htasks Hl) as (-> & Hp & Hnd & Hun).
    destruct (settle_base64 t r (app σ)) as [[s' ts]|] eqn:Hset;
      [|by split].
    split; simpl; rewrite (settle_base64_workspace _ _ _ _ _ Hset); [done|].
    rewrite Hp. unfold replace_task. simpl. rewrite app_nil_r.
    destruct (settle_base64_tasks _ _ _ _ _ Hset)
      as [-> | (? & ? & ? & ? & ? & ->)]; [by left|].
    right. eexists. split; [done|]. split; [constructor|].
    intros f _ Hf. by apply elem_of_nil in Hf.
  - (* ModalitySettled *)
    destruct (pending σ !! n) as [t|] eqn:Hl; [|by split].
    destruct (tasks_fit_lookup _ _ _ _ Htasks Hl) as (-> & Hp & Hnd & Hun).
    destruct (settle_modality t r uuid now (app σ)) as [[s' ts]|] eqn:Hset;
      [|by split].
    split; simpl; rewrite (settle_modality_workspace _ _ _ _ _ _ _ Hset);
      [done|].
    rewrite Hp. unfold replace_task. simpl.
    rewrite (settle_modality_tasks _ _ _ _ _ _ _ Hset). by left.
Qed.

Lemma reachable_exclusive_inv σ : reachable_exclusive σ → exclusive_inv σ.
Proof.
  induction 1 as [savedHistory | σ e _ IH Hex].
  - split; [split; simpl; constructor | by left].
  - by apply step_exclusive_inv.
Qed.

Lemma reachable_exclusive_reachable σ : reachable_exclusive σ → reachable σ.
Proof.
  induction 1 as [savedHistory | σ e _ (h & es & ->) _].
  - by exists savedHistory, [].
  - exists h, (es ++ [e]). unfold run. by rewrite foldl_app.
Qed.

(** C4 (as amended).  In every reachable state every workspace item
    whose status is [completed] has its results populated, and every
    event preserves this.  In every state reachable without overlapping
    tasks (an event that starts a task occurs only when no task is
    pending, and new items get new identifiers) an item has results
    exactly when it is [completed]; in particular an item whose status
    is [error] has no results.  The invariant behind it is preserved by
    every event of such a run. *)
Theorem workspace_status_results_invariant :
  (∀ σ, reachable σ → Forall completed_has_results (workspace (app σ)))
  ∧ (∀ σ e, Forall completed_has_results (workspace (app σ)) →
            Forall completed_has_results (workspace (app (step σ e))))
  ∧ (∀ σ, reachable_exclusive σ →
          reachable σ
          ∧ Forall error_has_no_results (workspace (app σ))
          ∧ Forall (fun f => WorkspaceFile.status f = Status.completed
                             ↔ WorkspaceFile.results f ≠ None)
                   (workspace (app σ)))
  ∧ (∀ σ e, exclusive_inv σ → exclusive σ e → exclusive_inv (step σ e)).
Proof.
  split_and!.
  - apply completed_has_results_reachable.
  - intros σ e. apply step_preserves; try done.
    intros st f Hst _ Hc. simpl in Hc. done.
  - intros σ Hex. pose proof (reachable_exclusive_reachable σ Hex) as Hr.
    destruct (reachable_exclusive_inv σ Hex) as [[_ HQ] _].
    pose proof (completed_has_results_reachable σ Hr) as HP.
    split_and!; [done| |].
    + eapply Forall_impl; [exact HQ|]. intros f HQf He.
      apply not_completed_no_results; [done|]. by rewrite He.
    + apply Forall_forall. intros f Hf. split.
      * by eapply (proj1 (Forall_forall _ _) HP).
      * by eapply (proj1 (Forall_forall _ _) HQ).
  - apply step_exclusive_inv.
Qed.

Lemma workspace_status_results_invariant_witness :
  let es := two_parts ++ [ ClickAnalyze "x";
                           ExtractionSettled 0 (Resolved "") ] in
  let σ := run (initial_system []) es in
  reachable σ
  ∧ status_of "x" σ = [Status.error]
  ∧ Forall completed_has_results (workspace (app σ)).
Proof.
  intros es σ.
  assert (Hr : reachable σ) by (by exists [], es).
  split; [exact Hr|]. split; [vm_compute; reflexivity|].
  exact (proj1 workspace_status_results_invariant σ Hr).
Defined.

(** C4 as stated fails when tasks overlap.  While a batch over "x" and
    "y" has "x" in flight, "y" is analysed from its card and completes;
    its release clears the shared registry entry, so the task of "x"
    returns at its checkpoint and the batch loop goes on to "y", whose
    extraction yields no text: the error write keeps the results of the
    earlier completion. *)
Lemma error_item_with_results_reachable :
  let σ := run (initial_system [])
             (two_parts ++
              [ ClickBatch; ClickAnalyze "y";
                ExtractionSettled 1 (Resolved "texto");
                AnalysisSettled 1 (Resolved one_process) "u1" 7;
                ExtractionSettled 0 (Resolved "texto");
                ExtractionSettled 0 (Resolved "") ]) in
  reachable σ
  ∧ status_of "y" σ = [Status.error]
  ∧ results_of "y" σ
    = [Some [("Jaboticabal", ["1001821-85.2024.8.26.0291"])]]
  ∧ ¬ Forall error_has_no_results (workspace (app σ)).
Proof.
  intros σ. split_and!.
  - by eexists [], _.
  - vm_compute; reflexivity.
  - vm_compute; reflexivity.
  - intros Hall.
    assert (Hy : ∃ f, f ∈ workspace (app σ)
                      ∧ WorkspaceFile.status f = Status.error
                      ∧ WorkspaceFile.results f ≠ None).
    { eexists. split_and!.
      - vm_compute. right. left.
      - reflexivity.
      - done. }
    destruct Hy as (f & Hf & Hs & Hr).
    apply Hr. by eapply (proj1 (Forall_forall _ _) Hall).
Qed.

(* ===================================================================== *)
(** * Further properties of the handlers *)
(* ===================================================================== *)

(** ** [toggleFileSelection] and [stopAnalysis] *)

(** X1.  Toggling the selection of the same item twice gives back the
    workspace, except that a completed item with that identifier ends
    unselected: pending items are restored, other items are not
    touched. *)
Theorem toggleFileSelection_twice (i : string) (s : AppState) :
  workspace (toggleFileSelection i (toggleFileSelection i s))
  = (fun f => if bool_decide (WorkspaceFile.id f = i
                              ∧ WorkspaceFile.status f = Status.completed)
              then WorkspaceFile.with_selected false f else f)
      <$> workspace s.
Proof.
  cbn. unfold map_file. rewrite <- list_fmap_compose.
  apply list_fmap_ext. intros n f _.
  destruct f as [fid nm bl pc st sel res]. simpl.
  repeat (first [case_bool_decide | case_decide]; simpl in * );
    try done; try (by destruct sel); exfalso; naive_solver.
Qed.

(** X2.  [stopAnalysis] is idempotent, and it never touches the
    history, the grouped data, or the identifier, results and selection
    of any workspace item. *)
Theorem stopAnalysis_idempotent (s : AppState) :
  stopAnalysis (stopAnalysis s) = stopAnalysis s
  ∧ history (stopAnalysis s) = history s
  ∧ groupedData (stopAnalysis s) = groupedData s
  ∧ (fun f => (WorkspaceFile.id f, WorkspaceFile.results f,
               WorkspaceFile.selected f)) <$> workspace (stopAnalysis s)
    = (fun f => (WorkspaceFile.id f, WorkspaceFile.results f,
                 WorkspaceFile.selected f)) <$> workspace s.
Proof.
  split_and!; [|done|done|].
  - destruct s.
    cbv beta iota zeta delta
      [stopAnalysis set_error set_progress set_isSequentialRunning
       set_loading set_workspace set_activeProcesses set_isBatchStopped
       toolMode loading progress error groupedData fileName history
       searchQuery isSequentialRunning isBatchStopped workspace totalPages
       pagesPerPart currentFile activeProcesses].
    f_equal.
    + rewrite <- list_fmap_compose. apply list_fmap_ext. intros n f _.
      simpl. by repeat case_decide.
    + rewrite <- map_fmap_compose. done.
  - cbn. rewrite <- list_fmap_compose. by apply list_fmap_ext.
Qed.

(** ** The ways out of a task *)

Lemma pfe_finally_released processId s :
  still_wanted processId (pfe_finally processId s) = false.
Proof.
  unfold pfe_finally. destruct (still_wanted processId s) eqn:Hw; [|done].
  change (still_wanted processId (set_active processId false ?x))
    with (still_wanted processId (set_active processId false s)).
  rewrite still_wanted_set_active. by rewrite decide_True.
Qed.

Lemma ocr_finally_released processId s :
  still_wanted processId (ocr_finally processId s) = false.
Proof. apply pfe_finally_released. Qed.

Lemma awf_finally_released file cl s :
  still_wanted direct_upload (awf_finally file cl s) = false
  ∧ still_wanted (WorkspaceFile.id file) (awf_finally file cl s) = false.
Proof.
  unfold awf_finally.
  destruct (c_isSequentialRunning cl); cbn [negb];
    change (still_wanted ?k (set_loading false ?x)) with (still_wanted k x);
    rewrite !still_wanted_set_active; split; repeat case_decide; done.
Qed.

(** X3.  Whatever its promises settle with, a task that has returned
    has released its registry entries: after [processFileForExtraction]
    or [processModalityForOcr] the entry of its [processId] is falsy,
    after [analyzeWorkspaceFile] both ['direct_upload'] and the entry
    of the file are. *)
Theorem finished_task_released_registry :
  (∀ name processId cl r uuid now s,
     still_wanted processId
       (pfe_after_analysis name processId cl r uuid now s) = false)
  ∧ (∀ processId r s s',
       pfe_after_extraction processId r s = (s', None) →
       still_wanted processId s' = false)
  ∧ (∀ name isImage processId r uuid now s,
       still_wanted processId
         (ocr_after_modality name isImage processId r uuid now s) = false)
  ∧ (∀ processId r s s',
       ocr_after_base64 processId r s = (s', None) →
       still_wanted processId s' = false)
  ∧ (∀ file cl r uuid now s,
       let s' := awf_after_analysis file cl r uuid now s in
       still_wanted direct_upload s' = false
       ∧ still_wanted (WorkspaceFile.id file) s' = false)
  ∧ (∀ file cl r s s',
       awf_after_extraction file cl r s = (s', None) →
       still_wanted direct_upload s' = false
       ∧ still_wanted (WorkspaceFile.id file) s' = false).
Proof.
  split_and!.
  - intros. unfold pfe_after_analysis.
    repeat case_match; apply pfe_finally_released.
  - intros processId r s s' H. unfold pfe_after_extraction in H.
    repeat case_match; simplify_eq; apply pfe_finally_released.
  - intros. unfold ocr_after_modality.
    repeat case_match; apply ocr_finally_released.
  - intros processId r s s' H. unfold ocr_after_base64 in H.
    repeat case_match; simplify_eq; apply ocr_finally_released.
  - intros file cl r uuid now s. cbn zeta. unfold awf_after_analysis.
    repeat case_match; apply awf_finally_released.
  - intros file cl r s s' H. unfold awf_after_extraction in H.
    repeat case_match; simplify_eq; apply awf_finally_released.
Qed.

Lemma finished_task_released_registry_witness :
  let s := pfe_start "a.pdf" direct_upload (initial_state []) in
  pfe_after_extraction direct_upload (Resolved "") s
  = ((pfe_after_extraction direct_upload (Resolved "") s).1, None)
  ∧ still_wanted direct_upload s = true
  ∧ still_wanted direct_upload
      (pfe_after_extraction direct_upload (Resolved "") s).1 = false.
Proof.
  intros s.
  assert (H : pfe_after_extraction direct_upload (Resolved "") s
              = ((pfe_after_extraction direct_upload (Resolved "") s).1, None))
    by (vm_compute; reflexivity).
  split; [exact H|]. split; [vm_compute; reflexivity|].
  exact (proj1 (proj2 finished_task_released_registry) _ _ _ _ H).
Defined.

(** X4.  A cancelled task is silent.  If the entry of its [processId]
    is falsy when it resumes, [processFileForExtraction] and
    [processModalityForOcr] return the state exactly as it is, whether
    the promise resolved or was rejected; [analyzeWorkspaceFile] at its
    first checkpoint does nothing but its release block, and never
    calls the extraction collaborator. *)
Theorem cancelled_task_is_silent (processId : string) (s : AppState) :
  still_wanted processId s = false →
  (∀ r, pfe_after_extraction processId r s = (s, None))
  ∧ (∀ name cl r uuid now,
       pfe_after_analysis name processId cl r uuid now s = s)
  ∧ (∀ r, ocr_after_base64 processId r s = (s, None))
  ∧ (∀ name isImage r uuid now,
       ocr_after_modality name isImage processId r uuid now s = s)
  ∧ (processId = direct_upload →
     ∀ file cl r,
       awf_after_extraction file cl r s = (awf_finally file cl s, None)).
Proof.
  intros Hw. split_and!.
  - intros [rawText|m]; unfold pfe_after_extraction, pfe_finally, pfe_catch;
      by rewrite ?Hw.
  - intros name cl [extracted|m] uuid now;
      unfold pfe_after_analysis, pfe_finally, pfe_catch; by rewrite ?Hw.
  - intros [base64|m]; unfold ocr_after_base64, ocr_finally, ocr_catch;
      by rewrite ?Hw.
  - intros name isImage [extracted|m] uuid now;
      unfold ocr_after_modality, ocr_finally, ocr_catch; by rewrite ?Hw.
  - intros -> file cl [rawText|m]; unfold awf_after_extraction, awf_catch;
      by rewrite ?Hw.
Qed.

Lemma cancelled_task_is_silent_witness :
  let s := stopAnalysis (pfe_start "a.pdf" direct_upload (initial_state [])) in
  still_wanted direct_upload s = false
  ∧ pfe_after_extraction direct_upload (Rejected "Invalid PDF structure") s
    = (s, None).
Proof.
  intros s.
  assert (Hw : still_wanted direct_upload s = false)
    by (vm_compute; reflexivity).
  split; [exact Hw|].
  exact (proj1 (cancelled_task_is_silent direct_upload s Hw) _).
Defined.

(** X5.  A failure of a collaborator is caught at the task boundary.
    While the task is still wanted, a rejection of either promise (and
    likewise an exception raised by the aggregation block) puts the
    message, or the fallback text when the message is empty, in the
    error state and leaves the history and the grouped data alone; a
    workspace task also marks its item [error]; the direct-upload and
    OCR tasks clear [loading] and the progress.  The collaborator is
    not called after a failed text extraction. *)
Theorem failure_is_surfaced (message : string) (s : AppState) :
  (still_wanted direct_upload s = true →
   ∀ file cl uuid now,
     let s1 := (awf_after_extraction file cl (Rejected message) s).1 in
     let s2 := awf_after_analysis file cl (Rejected message) uuid now s in
     (awf_after_extraction file cl (Rejected message) s).2 = None
     ∧ (∀ extracted, groupByForo (processes extracted) = Throw message →
          awf_after_analysis file cl (Resolved extracted) uuid now s = s2)
     ∧ s1 = s2
     ∧ error s2
       = Some (or_else message "Erro ao analisar arquivo do workspace.")
     ∧ workspace s2
       = map_file (WorkspaceFile.id file)
           (WorkspaceFile.with_status Status.error) (workspace s)
     ∧ history s2 = history s ∧ groupedData s2 = groupedData s)
  ∧ (∀ processId, still_wanted processId s = true →
     ∀ name cl uuid now,
       let s1 := (pfe_after_extraction processId (Rejected message) s).1 in
       let s2 :=
         pfe_after_analysis name processId cl (Rejected message) uuid now s in
       (pfe_after_extraction processId (Rejected message) s).2 = None
       ∧ (∀ extracted, groupByForo (processes extracted) = Throw message →
            pfe_after_analysis name processId cl (Resolved extracted)
              uuid now s = s2)
       ∧ s1 = s2
       ∧ error s2
         = Some (or_else message "Erro inesperado ao processar o arquivo.")
       ∧ loading s2 = false ∧ progress s2 = progress_idle
       ∧ workspace s2 = workspace s
       ∧ history s2 = history s ∧ groupedData s2 = groupedData s)
  ∧ (∀ processId, still_wanted processId s = true →
     ∀ name isImage uuid now,
       let s2 :=
         ocr_after_modality name isImage processId (Rejected message)
           uuid now s in
       ocr_after_base64 processId (Rejected message) s = (s2, None)
       ∧ error s2
         = Some (or_else message
                   "Erro inesperado ao processar o documento via OCR.")
       ∧ loading s2 = false ∧ progress s2 = progress_idle
       ∧ history s2 = history s ∧ groupedData s2 = groupedData s).
Proof.
  split_and!.
  - intros Hw file cl uuid now. cbn zeta.
    unfold awf_after_extraction, awf_after_analysis. simpl.
    split_and!; try done.
    + intros extracted ->. by rewrite Hw.
    + unfold awf_catch, awf_finally. rewrite Hw.
      by destruct (c_isSequentialRunning cl).
    + unfold awf_catch, awf_finally. rewrite Hw.
      by destruct (c_isSequentialRunning cl).
    + unfold awf_catch, awf_finally. rewrite Hw.
      by destruct (c_isSequentialRunning cl).
    + unfold awf_catch, awf_finally. rewrite Hw.
      by destruct (c_isSequentialRunning cl).
  - intros processId Hw name cl uuid now. cbn zeta.
    unfold pfe_after_extraction, pfe_after_analysis. simpl.
    assert (Hfin : pfe_finally processId (pfe_catch processId message s)
      = set_active processId false
          (set_progress progress_idle
             (set_loading false
                (set_error
                   (Some (or_else message
                            "Erro inesperado ao processar o arquivo.")) s)))).
    { unfold pfe_finally, pfe_catch. rewrite Hw.
      change (still_wanted processId (set_error ?e s))
        with (still_wanted processId s). by rewrite Hw. }
    split_and!; try done; try (by rewrite Hfin).
    intros extracted ->. by rewrite Hw.
  - intros processId Hw name isImage uuid now. cbn zeta.
    unfold ocr_after_base64, ocr_after_modality.
    assert (Hfin : ocr_finally processId (ocr_catch processId message s)
      = set_active processId false
          (set_progress progress_idle
             (set_loading false
                (set_error
                   (Some (or_else message
                      "Erro inesperado ao processar o documento via OCR."))
                   s)))).
    { unfold ocr_finally, ocr_catch. rewrite Hw.
      change (still_wanted processId (set_error ?e s))
        with (still_wanted processId s). by rewrite Hw. }
    split_and!; try done; by rewrite Hfin.
Qed.

Lemma failure_is_surfaced_witness :
  let σ := run (initial_system []) (two_parts ++ [ClickAnalyze "x"]) in
  let file := workspace_part (nth_part 2 1 0) "x" in
  let cl := {| c_isSequentialRunning := false; c_searchQuery := "" |} in
  still_wanted direct_upload (app σ) = true
  ∧ error (awf_after_analysis file cl (Rejected "quota exceeded") "u" 0
             (app σ))
    = Some "quota exceeded"
  ∧ error (awf_after_analysis file cl (Rejected "") "u" 0 (app σ))
    = Some "Erro ao analisar arquivo do workspace.".
Proof.
  intros σ file cl.
  assert (Hw : still_wanted direct_upload (app σ) = true)
    by (vm_compute; reflexivity).
  split; [exact Hw|].
  pose proof (proj1 (failure_is_surfaced "quota exceeded" (app σ)) Hw
                file cl "u" 0%Z) as H1.
  pose proof (proj1 (failure_is_surfaced "" (app σ)) Hw file cl "u" 0%Z) as H2.
  cbn zeta in H1, H2.
  destruct H1 as (_ & _ & _ & H1 & _). destruct H2 as (_ & _ & _ & H2 & _).
  split; [exact H1 | exact H2].
Defined.

(** X6.  The success path.  When the task is still wanted at its second
    checkpoint and the aggregation block completes, a workspace task
    marks every item with its file's identifier [completed], unselected
    and holding the grouped result; all three tasks set the grouped
    data and put one new entry at the front of the history, named
    after the input with the suffix " (Filtro)" when the captured
    search list is non-empty (" (OCR Imagem)" or " (OCR PDF)" for the
    OCR task), and leave the error state as it was.  A result without
    any process is a success with the empty grouping. *)
Theorem analysis_success (extracted : ExtractionResult)
    (grouped : GroupedProcesses) (uuid : string) (now : Z) (s : AppState) :
  groupByForo (processes extracted) = Normal grouped →
  (processes extracted = [] → grouped = [])
  ∧ (still_wanted direct_upload s = true →
     ∀ file cl,
       let s' := awf_after_analysis file cl (Resolved extracted) uuid now s in
       workspace s'
       = map_file (WorkspaceFile.id file) (mark_completed grouped)
           (workspace s)
       ∧ history s'
         = new_history_item uuid now
             (WorkspaceFile.name file +:+ filter_suffix cl) grouped
             :: history s
       ∧ groupedData s' = Some grouped
       ∧ error s' = error s)
  ∧ (∀ processId, still_wanted processId s = true →
     ∀ name cl,
       let s' :=
         pfe_after_analysis name processId cl (Resolved extracted)
           uuid now s in
       history s'
       = new_history_item uuid now (name +:+ filter_suffix cl) grouped
           :: history s
       ∧ groupedData s' = Some grouped
       ∧ error s' = error s ∧ workspace s' = workspace s
       ∧ loading s' = false ∧ progress s' = progress_idle)
  ∧ (∀ processId, still_wanted processId s = true →
     ∀ name isImage,
       let s' :=
         ocr_after_modality name isImage processId (Resolved extracted)
           uuid now s in
       history s'
       = new_history_item uuid now (name +:+ ocr_suffix isImage) grouped
           :: history s
       ∧ groupedData s' = Some grouped
       ∧ error s' = error s ∧ workspace s' = workspace s
       ∧ loading s' = false ∧ progress s' = progress_idle).
Proof.
  intros Hg. split_and!.
  - intros He. rewrite He in Hg. by injection Hg.
  - intros Hw file cl. cbn zeta. unfold awf_after_analysis.
    rewrite Hw, Hg. unfold awf_finally.
    by destruct (c_isSequentialRunning cl).
  - intros processId Hw name cl. cbn zeta. unfold pfe_after_analysis.
    rewrite Hw, Hg. unfold pfe_finally. cbn [negb].
    change (still_wanted processId (set_history ?h (set_groupedData ?g s)))
      with (still_wanted processId s). by rewrite Hw.
  - intros processId Hw name isImage. cbn zeta. unfold ocr_after_modality.
    rewrite Hw, Hg. unfold ocr_finally. cbn [negb].
    change (still_wanted processId (set_history ?h (set_groupedData ?g s)))
      with (still_wanted processId s). by rewrite Hw.
Qed.

Lemma analysis_success_witness :
  let σ := run (initial_system [])
             (two_parts ++ [ ClickAnalyze "x";
                             ExtractionSettled 0 (Resolved "texto") ]) in
  let file := workspace_part (nth_part 2 1 0) "x" in
  let cl := {| c_isSequentialRunning := false; c_searchQuery := "" |} in
  let grouped := [("Jaboticabal", ["1001821-85.2024.8.26.0291"])] in
  groupByForo (processes one_process) = Normal grouped
  ∧ still_wanted direct_upload (app σ) = true
  ∧ HistoryItem.name
      <$> history (awf_after_analysis file cl (Resolved one_process) "u" 0
                     (app σ))
    = ["Parte 1 (Págs 1-1)"].
Proof.
  intros σ file cl grouped.
  assert (Hg : groupByForo (processes one_process) = Normal grouped)
    by reflexivity.
  assert (Hw : still_wanted direct_upload (app σ) = true)
    by (vm_compute; reflexivity).
  split; [exact Hg|]. split; [exact Hw|].
  pose proof (proj1 (proj2 (analysis_success one_process grouped "u" 0%Z
                              (app σ) Hg)) Hw file cl) as H.
  cbn zeta in H. destruct H as (_ & H & _). rewrite H.
  vm_compute. reflexivity.
Defined.

(** ** What an event does to the workspace and to the history *)

Lemma map_file_moves i g ws :
  (∀ f, item_move f (g f)) →
  ∃ h, (∀ f, rtc item_move f (h f)) ∧ map_file i g ws = h <$> ws.
Proof.
  intros Hg. eexists. split; [|reflexivity]. intros f. simpl.
  case_bool_decide; [by apply rtc_once | done].
Qed.

Lemma moves_compose (h1 h2 : WorkspaceFile.t → WorkspaceFile.t)
    (ws : list WorkspaceFile.t) :
  (∀ f, rtc item_move f (h1 f)) → (∀ f, rtc item_move f (h2 f)) →
  ∃ h, (∀ f, rtc item_move f (h f)) ∧ h2 <$> (h1 <$> ws) = h <$> ws.
Proof.
  intros H1 H2. exists (h2 ∘ h1). split.
  - intros f. simpl. eapply rtc_trans; [apply H1 | apply H2].
  - by rewrite list_fmap_compose.
Qed.

Lemma moves_id (ws : list WorkspaceFile.t) :
  ∃ h, (∀ f, rtc item_move f (h f)) ∧ ws = h <$> ws.
Proof. exists id. split; [done | by rewrite list_fmap_id]. Qed.

Lemma awf_start_moves file s :
  ∃ h, (∀ f, rtc item_move f (h f))
       ∧ workspace (awf_start file s) = h <$> workspace s.
Proof. rewrite awf_start_workspace. apply map_file_moves. constructor. Qed.

Lemma after_return_moves cl batch s :
  ∃ h, (∀ f, rtc item_move f (h f))
       ∧ workspace (after_return cl batch s).1 = h <$> workspace s.
Proof.
  destruct (after_return_cases cl batch s)
    as [-> | [-> | (file & rest & _ & ->)]]; simpl.
  - apply moves_id.
  - apply moves_id.
  - apply awf_start_moves.
Qed.

Lemma settle_extraction_moves t r s s' ts :
  settle_extraction t r s = Some (s', ts) →
  ∃ h, (∀ f, rtc item_move f (h f)) ∧ workspace s' = h <$> workspace s.
Proof.
  intros Hset.
  destruct t as [name processId cl [|raw]
              |name isImage processId cl [|raw]
              |file cl [|raw] batch];
    simpl in Hset; try done.
  - pose proof (pfe_after_extraction_workspace processId r s) as Hw.
    destruct (pfe_after_extraction processId r s) as [s0 k].
    injection Hset as <- <-. simpl in Hw. rewrite Hw. apply moves_id.
  - assert (Hmid : ∃ h, (∀ f, rtc item_move f (h f))
              ∧ workspace (awf_after_extraction file cl r s).1
                = h <$> workspace s).
    { destruct (awf_after_extraction_workspace file cl r s) as [-> | ->].
      - apply moves_id.
      - apply map_file_moves. constructor. }
    destruct (awf_after_extraction file cl r s) as [s0 [rawText|]];
      simpl in Hmid.
    + by injection Hset as <- <-.
    + injection Hset as Hset. destruct Hmid as (h1 & Hh1 & Hw1).
      destruct (after_return_moves cl batch s0) as (h2 & Hh2 & Hw2).
      rewrite Hset in Hw2. simpl in Hw2. rewrite Hw2, Hw1.
      by apply moves_compose.
Qed.

Lemma settle_analysis_moves t r uuid now s s' ts :
  settle_analysis t r uuid now s = Some (s', ts) →
  ∃ h, (∀ f, rtc item_move f (h f)) ∧ workspace s' = h <$> workspace s.
Proof.
  intros Hset.
  destruct t as [name processId cl [|raw]
              |name isImage processId cl [|raw]
              |file cl [|raw] batch];
    simpl in Hset; try done.
  - injection Hset as <- <-. rewrite pfe_after_analysis_workspace.
    apply moves_id.
  - injection Hset as Hset.
    assert (Hmid : ∃ h, (∀ f, rtc item_move f (h f))
              ∧ workspace (awf_after_analysis file cl r uuid now s)
                = h <$> workspace s).
    { destruct (awf_after_analysis_workspace file cl r uuid now s)
        as [-> | [-> | (grouped & ->)]].
      - apply moves_id.
      - apply map_file_moves. constructor.
      - apply map_file_moves. constructor. }
    destruct Hmid as (h1 & Hh1 & Hw1).
    destruct (after_return_moves cl batch
                (awf_after_analysis file cl r uuid now s)) as (h2 & Hh2 & Hw2).
    rewrite Hset in Hw2. simpl in Hw2. rewrite Hw2, Hw1.
    by apply moves_compose.
Qed.

Lemma step_moves σ e :
  is_split e = false →
  ∃ h, (∀ f, rtc item_move f (h f))
       ∧ workspace (app (step σ e)) = h <$> workspace (app σ).
Proof.
  intros Hns. destruct e; simpl; try done; try apply moves_id.
  - pose proof (handleFileUpload_workspace name type_ pages (app σ)) as Hw.
    destruct (handleFileUpload name type_ pages (app σ)) as [s' started].
    simpl in *. rewrite Hw. apply moves_id.
  - destruct (analyzable i (app σ)); [|apply moves_id]. simpl.
    apply awf_start_moves.
  - eexists. split; [|reflexivity]. intros f. simpl.
    case_decide; [by apply rtc_once, move_idle|].
    by rewrite with_status_same.
  - destruct (analyzeBatchSequential_cases (app σ))
      as [-> | (file & rest & _ & ->)]; simpl; [apply moves_id|].
    apply awf_start_moves.
  - apply map_file_moves. intros f.
    case_decide; [apply move_unselect | by apply move_select].
  - rewrite toggleAllSelection_workspace.
    case_bool_decide; [apply moves_id|].
    eexists. split; [|reflexivity]. intros f. simpl. unfold toggled.
    apply rtc_once.
    case_decide; [apply move_unselect | by apply move_select].
  - destruct (pending σ !! n) as [t|]; [|apply moves_id].
    destruct (settle_extraction t r (app σ)) as [[s' ts]|] eqn:Hset;
      [|apply moves_id].
    simpl. by eapply settle_extraction_moves.
  - destruct (pending σ !! n) as [t|]; [|apply moves_id].
    destruct (settle_analysis t r uuid now (app σ)) as [[s' ts]|] eqn:Hset;
      [|apply moves_id].
    simpl. by eapply settle_analysis_moves.
  - destruct (pending σ !! n) as [t|]; [|apply moves_id].
    destruct (settle_base64 t r (app σ)) as [[s' ts]|] eqn:Hset;
      [|apply moves_id].
    simpl. rewrite (settle_base64_workspace _ _ _ _ _ Hset). apply moves_id.
  - destruct (pending σ !! n) as [t|]; [|apply moves_id].
    destruct (settle_modality t r uuid now (app σ)) as [[s' ts]|] eqn:Hset;
      [|apply moves_id].
    simpl. rewrite (settle_modality_workspace _ _ _ _ _ _ _ Hset).
    apply moves_id.
Qed.

Lemma item_move_static f f' :
  rtc item_move f f' → static_fields f' = static_fields f.
Proof.
  induction 1 as [|f f1 f2 Hm _ IH]; [done|]. rewrite IH.
  by destruct Hm.
Qed.

Lemma item_move_unselected_when_completed f f' :
  rtc item_move f f' →
  unselected_when_completed f → unselected_when_completed f'.
Proof.
  induction 1 as [|f f1 f2 Hm _ IH]; [done|]. intros HP. apply IH.
  destruct Hm; unfold unselected_when_completed in *; simpl; try done.
  all: intros Hc; by rewrite Hc in *.
Qed.

(** X7.  No handler removes a workspace item, reorders the items or
    changes an item's identifier, name, blob or page count.  Only
    [handleSplit] adds items, at the end; every other event leaves as
    many items as there were. *)
Theorem workspace_items_are_permanent (σ : System) :
  (∀ e, is_split e = false →
        static_fields <$> workspace (app (step σ e))
        = static_fields <$> workspace (app σ))
  ∧ (∀ uuids, ∃ parts,
        workspace (app (step σ (ClickSplit uuids)))
        = workspace (app σ) ++ zip_with workspace_part parts uuids)
  ∧ ∀ es, (static_fields <$> workspace (app σ))
          `prefix_of` (static_fields <$> workspace (app (run σ es))).
Proof.
  assert (Hstep : ∀ σ0 e, is_split e = false →
            static_fields <$> workspace (app (step σ0 e))
            = static_fields <$> workspace (app σ0)).
  { intros σ0 e Hns. destruct (step_moves σ0 e Hns) as (h & Hh & ->).
    rewrite <- list_fmap_compose. apply list_fmap_ext. intros n f _. simpl.
    by apply item_move_static. }
  split_and!.
  - apply Hstep.
  - intros uuids. apply handleSplit_workspace.
  - intros es. revert σ. induction es as [|e es IH]; intros σ; [done|].
    simpl. etrans; [|apply IH].
    destruct (is_split e) eqn:Hs.
    + destruct e; try done. simpl.
      destruct (handleSplit_workspace uuids (app σ)) as (parts & ->).
      rewrite fmap_app. by apply prefix_app_r.
    + by rewrite Hstep.
Qed.

Lemma workspace_items_are_permanent_witness :
  let σ := run (initial_system []) two_parts in
  is_split ClickBatch = false
  ∧ static_fields <$> workspace (app (step σ ClickBatch))
    = static_fields <$> workspace (app σ).
Proof.
  intros σ. split; [reflexivity|].
  exact (proj1 (workspace_items_are_permanent σ) ClickBatch eq_refl).
Defined.

Lemma unselected_when_completed_step σ e :
  Forall unselected_when_completed (workspace (app σ)) →
  Forall unselected_when_completed (workspace (app (step σ e))).
Proof.
  intros HP. destruct (is_split e) eqn:Hs.
  - destruct e; try done. simpl.
    destruct (handleSplit_workspace uuids (app σ)) as (parts & ->).
    apply Forall_app. split; [done|]. clear.
    revert uuids. induction parts as [|p parts IH]; intros [|u uuids]; simpl;
      constructor; auto. done.
  - destruct (step_moves σ e Hs) as (h & Hh & ->).
    apply Forall_fmap. eapply Forall_impl; [exact HP|]. intros f Hf. simpl.
    eapply item_move_unselected_when_completed; [apply Hh | exact Hf].
Qed.

Lemma filter_selected_pending (ws : list WorkspaceFile.t) :
  Forall unselected_when_completed ws →
  filter (fun f => WorkspaceFile.selected f = true
                   ∧ WorkspaceFile.status f ≠ Status.completed) ws
  = filter (fun f => WorkspaceFile.selected f = true) ws.
Proof.
  induction 1 as [|f ws Hf _ IH]; [done|]. rewrite !filter_cons, IH.
  destruct (decide (WorkspaceFile.selected f = true)) as [Hs|Hs].
  - rewrite decide_True; [done|]. split; [done|]. intros Hc.
    specialize (Hf Hc). by rewrite Hf in Hs.
  - rewrite decide_False; [done|]. by intros [? _].
Qed.

(** X8.  In every reachable state a completed item is unselected.  So
    the test [f.status !== 'completed'] in the batch's selection is
    implied by [f.selected]: the batch takes exactly the selected
    items, and the counter of the sidebar
    ([workspace.filter(f => f.selected).length], line 880) counts
    exactly the items a batch would take. *)
Theorem completed_items_are_unselected (σ : System) :
  reachable σ →
  Forall unselected_when_completed (workspace (app σ))
  ∧ selectedFiles (app σ)
    = filter (fun f => WorkspaceFile.selected f = true) (workspace (app σ)).
Proof.
  intros (savedHistory & es & ->).
  assert (HP : Forall unselected_when_completed
                 (workspace (app (run (initial_system savedHistory) es)))).
  { assert (H0 : Forall unselected_when_completed
                   (workspace (app (initial_system savedHistory))))
      by constructor.
    revert H0. generalize (initial_system savedHistory) as σ0.
    induction es as [|e es IH]; intros σ0 H0; [done|].
    simpl. apply IH. by apply unselected_when_completed_step. }
  split; [done|]. unfold selectedFiles. by apply filter_selected_pending.
Qed.

Lemma completed_items_are_unselected_witness :
  let es := two_parts ++ [ ClickAnalyze "x";
                           ExtractionSettled 0 (Resolved "texto");
                           AnalysisSettled 0 (Resolved one_process) "u1" 7;
                           ToggleFile "x"; ToggleAll ] in
  let σ := run (initial_system []) es in
  reachable σ
  ∧ status_of "x" σ = [Status.completed]
  ∧ WorkspaceFile.id <$> selectedFiles (app σ)
    = WorkspaceFile.id
        <$> filter (fun f => WorkspaceFile.selected f = true)
              (workspace (app σ)).
Proof.
  intros es σ.
  assert (Hr : reachable σ) by (by exists [], es).
  split; [exact Hr|]. split; [vm_compute; reflexivity|].
  by rewrite (proj2 (completed_items_are_unselected σ Hr)).
Defined.

Lemma awf_finally_history file cl s :
  history (awf_finally file cl s) = history s.
Proof. unfold awf_finally. by destruct (c_isSequentialRunning cl). Qed.

Lemma awf_catch_history file m s : history (awf_catch file m s) = history s.
Proof. unfold awf_catch. by destruct (still_wanted direct_upload s). Qed.

Lemma pfe_finally_history processId s :
  history (pfe_finally processId s) = history s.
Proof. unfold pfe_finally. by destruct (still_wanted processId s). Qed.

Lemma pfe_catch_history processId m s :
  history (pfe_catch processId m s) = history s.
Proof. unfold pfe_catch. by destruct (still_wanted processId s). Qed.

Lemma ocr_finally_history processId s :
  history (ocr_finally processId s) = history s.
Proof. unfold ocr_finally. by destruct (still_wanted processId s). Qed.

Lemma ocr_catch_history processId m s :
  history (ocr_catch processId m s) = history s.
Proof. unfold ocr_catch. by destruct (still_wanted processId s). Qed.

Lemma settle_base64_history t r s s' ts :
  settle_base64 t r s = Some (s', ts) → history s' = history s.
Proof.
  intros Hset.
  destruct t as [|name isImage processId cl [|raw]|]; simpl in Hset;
    try done.
  unfold ocr_after_base64 in Hset.
  repeat case_match; simplify_eq;
    by rewrite ?ocr_finally_history, ?ocr_catch_history.
Qed.

Lemma settle_modality_history t r uuid now s s' ts :
  settle_modality t r uuid now s = Some (s', ts) →
  history s' = history s
  ∨ ∃ label grouped,
      history s' = new_history_item uuid now label grouped :: history s.
Proof.
  intros Hset.
  destruct t as [|name isImage processId cl [|raw]|]; simpl in Hset;
    try done.
  injection Hset as <- <-. unfold ocr_after_modality.
  repeat case_match;
    rewrite ?ocr_finally_history, ?ocr_catch_history; eauto.
Qed.

Lemma after_return_history cl batch s :
  history (after_return cl batch s).1 = history s.
Proof.
  by destruct (after_return_cases cl batch s)
    as [-> | [-> | (file & rest & _ & ->)]].
Qed.

Lemma settle_extraction_history t r s s' ts :
  settle_extraction t r s = Some (s', ts) → history s' = history s.
Proof.
  intros Hset.
  destruct t as [name processId cl [|raw]
              |name isImage processId cl [|raw]
              |file cl [|raw] batch];
    simpl in Hset; try done.
  - unfold pfe_after_extraction in Hset.
    repeat case_match; simplify_eq;
      by rewrite ?pfe_finally_history, ?pfe_catch_history.
  - assert (Hmid : history (awf_after_extraction file cl r s).1 = history s).
    { unfold awf_after_extraction. repeat case_match; simpl;
        by rewrite ?awf_finally_history, ?awf_catch_history. }
    destruct (awf_after_extraction file cl r s) as [s0 [rawText|]];
      simpl in Hmid.
    + by injection Hset as <- <-.
    + injection Hset as Hset.
      pose proof (after_return_history cl batch s0) as Hr.
      rewrite Hset in Hr. simpl in Hr. by rewrite Hr.
Qed.

Lemma settle_analysis_history t r uuid now s s' ts :
  settle_analysis t r uuid now s = Some (s', ts) →
  history s' = history s
  ∨ ∃ label grouped,
      history s' = new_history_item uuid now label grouped :: history s.
Proof.
  intros Hset.
  destruct t as [name processId cl [|raw]
              |name isImage processId cl [|raw]
              |file cl [|raw] batch];
    simpl in Hset; try done.
  - injection Hset as <- <-. unfold pfe_after_analysis.
    repeat case_match;
      rewrite ?pfe_finally_history, ?pfe_catch_history; eauto.
  - injection Hset as Hset.
    pose proof (after_return_history cl batch
                  (awf_after_analysis file cl r uuid now s)) as Hr.
    rewrite Hset in Hr. simpl in Hr. rewrite Hr.
    unfold awf_after_analysis.
    repeat case_match;
      rewrite ?awf_finally_history, ?awf_catch_history; eauto.
Qed.

Lemma handleSplit_history uuids s :
  history (handleSplit uuids s) = history s.
Proof. unfold handleSplit. by repeat case_match. Qed.

Lemma handleFileUpload_history name type_ pages s :
  history (handleFileUpload name type_ pages s).1 = history s.
Proof. unfold handleFileUpload. by repeat case_match. Qed.

Lemma step_history σ e :
  is_clear e = false →
  history (app (step σ e)) = history (app σ)
  ∨ ∃ n r uuid now label grouped,
      (e = AnalysisSettled n r uuid now ∨ e = ModalitySettled n r uuid now)
      ∧ history (app (step σ e))
        = new_history_item uuid now label grouped :: history (app σ).
Proof.
  intros Hnc. destruct e; simpl; try done; try (by left).
  - left. pose proof (handleFileUpload_history name type_ pages (app σ)) as Hh.
    by destruct (handleFileUpload name type_ pages (app σ)).
  - left. apply handleSplit_history.
  - left. by destruct (analyzable i (app σ)).
  - left. by destruct (analyzeBatchSequential_cases (app σ))
      as [-> | (file & rest & _ & ->)].
  - left. unfold toggleAllSelection. by case_bool_decide.
  - left. destruct (pending σ !! n) as [t|]; [|done].
    destruct (settle_extraction t r (app σ)) as [[s' ts]|] eqn:Hset; [|done].
    simpl. by eapply settle_extraction_history.
  - destruct (pending σ !! n) as [t|]; [|by left].
    destruct (settle_analysis t r uuid now (app σ)) as [[s' ts]|] eqn:Hset;
      [|by left].
    simpl. destruct (settle_analysis_history _ _ _ _ _ _ _ Hset)
      as [-> | (label & grouped & ->)]; [by left|].
    right. eexists _, _, _, _, _, _. split; [by left|done].
  - left. destruct (pending σ !! n) as [t|]; [|done].
    destruct (settle_base64 t r (app σ)) as [[s' ts]|] eqn:Hset; [|done].
    simpl. by eapply settle_base64_history.
  - destruct (pending σ !! n) as [t|]; [|by left].
    destruct (settle_modality t r uuid now (app σ)) as [[s' ts]|] eqn:Hset;
      [|by left].
    simpl. destruct (settle_modality_history _ _ _ _ _ _ _ Hset)
      as [-> | (label & grouped & ->)]; [by left|].
    right. eexists _, _, _, _, _, _. split; [by right|done].
Qed.

(** X9.  The history is append-only.  Apart from the "clear all"
    button, an event either leaves the history as it is or, when it is
    the settlement of an extraction call ([extractLegalData] for an
    upload or a workspace file, [extractLegalDataFromModality] for an
    OCR upload), puts one new entry at its front, carrying the
    identifier and the time stamp drawn at that moment.  So over any
    run without "clear all" the earlier history stays, unchanged, at the
    end of the later one. *)
Theorem history_is_append_only (σ : System) (es : list Event) :
  Forall (fun e => is_clear e = false) es →
  history (app σ) `suffix_of` history (app (run σ es))
  ∧ (∀ e, e ∈ es → ∀ σ0,
       history (app (step σ0 e)) = history (app σ0)
       ∨ ∃ n r uuid now label grouped,
           (e = AnalysisSettled n r uuid now
            ∨ e = ModalitySettled n r uuid now)
           ∧ history (app (step σ0 e))
             = new_history_item uuid now label grouped :: history (app σ0)).
Proof.
  intros Hes. split.
  - revert σ. induction Hes as [|e es He _ IH]; intros σ; [done|].
    simpl. etrans; [|apply IH].
    destruct (step_history σ e He)
      as [-> | (n & r & uuid & now & label & grouped & _ & ->)]; [done|].
    by apply suffix_cons_r.
  - intros e He σ0. apply step_history.
    by apply (proj1 (Forall_forall _ _) Hes).
Qed.

Lemma history_is_append_only_witness :
  let σ := run (initial_system [])
             (two_parts ++ [ ClickAnalyze "x";
                             ExtractionSettled 0 (Resolved "texto");
                             AnalysisSettled 0 (Resolved one_process) "u1" 7 ]) in
  let es := [ ClickAnalyze "y"; ExtractionSettled 0 (Resolved "texto");
              AnalysisSettled 0 (Resolved one_process) "u2" 8; ClickStop;
              SetToolMode ToolMode.ocr; FileUpload "foto.png" "image/png" 0;
              Base64Settled 0 (Resolved "QUJD");
              ModalitySettled 0 (Resolved one_process) "u3" 9 ] in
  Forall (fun e => is_clear e = false) es
  ∧ length (history (app σ)) = 1%nat
  ∧ HistoryItem.name <$> history (app (run σ es))
    = [ "foto.png (OCR Imagem)"; "Parte 2 (Págs 2-2)"; "Parte 1 (Págs 1-1)" ]
  ∧ history (app σ) `suffix_of` history (app (run σ es)).
Proof.
  intros σ es.
  assert (Hes : Forall (fun e => is_clear e = false) es)
    by (repeat constructor).
  split; [exact Hes|]. split; [vm_compute; reflexivity|].
  split; [vm_compute; reflexivity|].
  exact (proj1 (history_is_append_only σ es Hes)).
Defined.

(** ** [handleSplit] *)

Lemma zip_with_workspace_part_pageCount parts uuids :
  length parts ≤ length uuids →
  WorkspaceFile.pageCount <$> zip_with workspace_part parts uuids
  = Part.pageCount <$> parts.
Proof.
  revert uuids. induction parts as [|p parts IH]; intros [|u uuids] Hlen;
    simpl in *; [done|done|lia|]. f_equal. apply IH. lia.
Qed.

Lemma zip_with_workspace_part_fresh parts uuids :
  Forall (fun f => WorkspaceFile.status f = Status.idle
                   ∧ WorkspaceFile.selected f = true
                   ∧ WorkspaceFile.results f = None)
         (zip_with workspace_part parts uuids).
Proof.
  revert uuids. induction parts as [|p parts IH]; intros [|u uuids]; simpl;
    constructor; auto.
Qed.

(** X10.  [handleSplit] does nothing without a current file or with a
    page count of zero.  With a file of [pages] pages, a page count of
    at least one and enough fresh identifiers, it appends to the
    workspace, after the items already there, one item per part of
    [splitPdf], in page order: [ceil (pages / pagesPerPart)] items,
    idle, selected and without results, carrying the identifiers in the
    order they were drawn, whose page counts sum to [pages]; it ends
    with [loading] false and no error. *)
Theorem handleSplit_appends_parts (uuids : list string) (s : AppState) :
  ((currentFile s = None ∨ pagesPerPart s = 0%Z) → handleSplit uuids s = s)
  ∧ ∀ pages,
      currentFile s = Some pages → (0 ≤ pages)%Z → (1 ≤ pagesPerPart s)%Z →
      (ceil_div pages (pagesPerPart s) ≤ Z.of_nat (length uuids))%Z →
      let new := zip_with workspace_part
                   (split_spec pages (pagesPerPart s)) uuids in
      workspace (handleSplit uuids s) = workspace s ++ new
      ∧ Z.of_nat (length new) = ceil_div pages (pagesPerPart s)
      ∧ WorkspaceFile.id <$> new
        = take (Z.to_nat (ceil_div pages (pagesPerPart s))) uuids
      ∧ WorkspaceFile.name <$> new
        = Part.name <$> split_spec pages (pagesPerPart s)
      ∧ Forall (fun f => WorkspaceFile.status f = Status.idle
                         ∧ WorkspaceFile.selected f = true
                         ∧ WorkspaceFile.results f = None) new
      ∧ foldr Z.add 0%Z (WorkspaceFile.pageCount <$> new) = pages
      ∧ loading (handleSplit uuids s) = false
      ∧ error (handleSplit uuids s) = None
      ∧ history (handleSplit uuids s) = history s.
Proof.
  split.
  - intros [Hf | Hp]; unfold handleSplit.
    + by rewrite Hf.
    + rewrite Hp. by destruct (currentFile s).
  - intros pages Hf Hpages Hp Hlen new.
    pose proof (split_spec_length pages (pagesPerPart s) Hpages Hp) as Hn.
    pose proof (ceil_div_le_total pages (pagesPerPart s) Hpages Hp) as Hle.
    assert (Hrun : splitPdf (Z.to_nat pages) pages (pagesPerPart s)
                   = Some (split_spec pages (pagesPerPart s)))
      by (apply splitPdf_closed; [done..|lia]).
    assert (Hsplit : handleSplit uuids s
      = set_loading false
          (set_workspace (workspace s ++ new)
             (set_error None (set_loading true s)))).
    { unfold handleSplit. rewrite Hf.
      rewrite (proj2 (Z.eqb_neq _ _)) by lia. cbn zeta.
      change (pagesPerPart (set_error None (set_loading true s)))
        with (pagesPerPart s). by rewrite Hrun. }
    assert (Hshort : length (split_spec pages (pagesPerPart s)) ≤ length uuids)
      by lia.
    split_and!; try (by rewrite Hsplit).
    + unfold new. rewrite length_zip_with. lia.
    + unfold new. rewrite zip_with_workspace_part_ids. f_equal. lia.
    + unfold new. clear -Hshort. revert uuids Hshort.
      induction (split_spec pages (pagesPerPart s)) as [|p parts IH];
        intros [|u uuids] Hlen; simpl in *; [done|done|lia|].
      f_equal. apply IH. lia.
    + apply zip_with_workspace_part_fresh.
    + unfold new. rewrite zip_with_workspace_part_pageCount by done.
      apply (split_spec_covers pages (pagesPerPart s) Hpages Hp).
Qed.

Lemma handleSplit_appends_parts_witness :
  let s := app (run (initial_system [])
                  [ SetToolMode ToolMode.split;
                    FileUpload "autos.pdf" pdf_type 25 ]) in
  let uuids := ["a"; "b"; "c"; "d"] in
  currentFile s = Some 25%Z ∧ pagesPerPart s = 10%Z
  ∧ WorkspaceFile.id <$> workspace (handleSplit uuids s) = ["a"; "b"; "c"]
  ∧ WorkspaceFile.pageCount <$> workspace (handleSplit uuids s)
    = [10; 10; 5]%Z.
Proof.
  intros s uuids.
  assert (Hf : currentFile s = Some 25%Z) by reflexivity.
  assert (Hp : pagesPerPart s = 10%Z) by reflexivity.
  split; [exact Hf|]. split; [exact Hp|].
  destruct (proj2 (handleSplit_appends_parts uuids s) 25%Z Hf
              ltac:(lia) ltac:(rewrite Hp; lia)
              ltac:(rewrite Hp; vm_compute; discriminate))
    as (Hws & _).
  rewrite Hws. split; vm_compute; reflexivity.
Defined.

(** ** [extractTextFromPdf] and the progress indicator *)

Lemma list_ascii_of_string_app (a b : string) :
  list_ascii_of_string (a +:+ b)
  = list_ascii_of_string a ++ list_ascii_of_string b.
Proof. induction a as [|x a IH]; simpl; [done | by f_equal]. Qed.

Lemma all_whitespace_app (a b : list N) :
  all_whitespace a = true → all_whitespace (a ++ b) = all_whitespace b.
Proof.
  remember (length a) as n eqn:Hn.
  assert (Hle : length a ≤ n) by lia. clear Hn. revert a Hle.
  induction n as [|n IH]; intros a Hle Ha.
  { destruct a; [done | simpl in Hle; lia]. }
  destruct a as [|x t1]; [done|]. simpl in *.
  destruct (ascii_space x); [apply IH; [lia | done]|].
  destruct t1 as [|y t2]; [done|]. simpl in *.
  destruct ((x =? 194)%N && (y =? 160)%N); [apply IH; [lia | done]|].
  destruct t2 as [|z t3]; [done|]. simpl in *.
  destruct (space3 x y z); [apply IH; [lia | done] | done].
Qed.

Lemma trim_is_empty_app (a b : string) :
  trim_is_empty a = true → trim_is_empty (a +:+ b) = trim_is_empty b.
Proof.
  unfold trim_is_empty. rewrite list_ascii_of_string_app, fmap_app.
  apply all_whitespace_app.
Qed.

Lemma page_text_blank (items : list string) :
  Forall (fun item => trim_is_empty item = true) items →
  trim_is_empty (page_text items) = true.
Proof.
  unfold page_text. induction 1 as [|x items Hx Hitems IH]; [done|].
  simpl. destruct items as [|y items]; [done|].
  rewrite trim_is_empty_app by done.
  by rewrite (trim_is_empty_app " ") by done.
Qed.

Lemma extract_loop_calls pages i numPages fullText calls :
  (extract_loop pages i numPages fullText calls).2
  = calls ++ ((fun k => (k, numPages)) <$> seqZ i (Z.of_nat (length pages))).
Proof.
  revert i fullText calls.
  induction pages as [|items pages IH]; intros i fullText calls.
  { simpl. by rewrite app_nil_r. }
  cbn [extract_loop length]. rewrite IH, <- app_assoc. f_equal.
  rewrite (seqZ_cons i) by lia. rewrite fmap_cons. simpl. do 3 f_equal; lia.
Qed.

Lemma extract_loop_blank pages i numPages fullText calls :
  Forall (Forall (fun item => trim_is_empty item = true)) pages →
  trim_is_empty fullText = true →
  trim_is_empty (extract_loop pages i numPages fullText calls).1 = true.
Proof.
  intros Hpages. revert i fullText calls.
  induction Hpages as [|items pages Hitems _ IH]; intros i fullText calls Ht;
    [done|].
  simpl. apply IH. rewrite trim_is_empty_app by done.
  rewrite trim_is_empty_app; [done | by apply page_text_blank].
Qed.

Lemma set_progress_twice p p' s :
  set_progress p' (set_progress p s) = set_progress p' s.
Proof. by destruct s. Qed.

Lemma onProgress_cancelled processId calls s :
  still_wanted processId s = false →
  foldl (fun s0 call => onProgress processId call s0) s calls = s.
Proof.
  intros Hw. induction calls as [|c calls IH]; [done|].
  simpl. unfold onProgress at 2. by rewrite Hw.
Qed.

Lemma onProgress_wanted processId calls c s :
  still_wanted processId s = true →
  foldl (fun s0 call => onProgress processId call s0) s (calls ++ [c])
  = set_progress
      {| current := c.1; total := c.2; phase := Phase.extracting |} s.
Proof.
  revert s. induction calls as [|c0 calls IH]; intros s Hw.
  - simpl. unfold onProgress. by rewrite Hw.
  - simpl. unfold onProgress at 2. rewrite Hw.
    rewrite IH by done. apply set_progress_twice.
Qed.

(** X11.  [extractTextFromPdf] reports its progress once per page, in
    page order, as (1, n), (2, n), ..., (n, n), where n is the number
    of pages; a document without pages yields the empty text and no
    report.  Fed to the task's [onProgress], these reports leave the
    indicator at "n of n, extracting" while the task is still wanted,
    and change nothing once it has been cancelled. *)
Theorem extractTextFromPdf_progress (pdf : list (list string)) :
  let n := Z.of_nat (length pdf) in
  let calls := (extractTextFromPdf pdf).2 in
  calls = (fun k => (k, n)) <$> seqZ 1 n
  ∧ extractTextFromPdf [] = ("", [])
  ∧ ∀ processId s,
      let s' := foldl (fun s0 call => onProgress processId call s0) s calls in
      (still_wanted processId s = false → s' = s)
      ∧ (still_wanted processId s = true → pdf ≠ [] →
         s' = set_progress
                {| current := n; total := n; phase := Phase.extracting |} s).
Proof.
  cbn zeta.
  assert (Hcalls : (extractTextFromPdf pdf).2
            = (fun k => (k, Z.of_nat (length pdf)))
                <$> seqZ 1 (Z.of_nat (length pdf))).
  { unfold extractTextFromPdf. by rewrite extract_loop_calls. }
  split_and!; [done|done|]. intros processId s. split.
  - intros Hw. by apply onProgress_cancelled.
  - intros Hw Hne. rewrite Hcalls.
    destruct pdf as [|p pdf] using rev_ind; [done|]. clear IHpdf.
    rewrite length_app. simpl.
    replace (Z.of_nat (length pdf + 1)) with (Z.of_nat (length pdf) + 1)%Z
      by lia.
    rewrite seqZ_app by lia. rewrite fmap_app. simpl.
    rewrite onProgress_wanted by done. simpl. do 2 f_equal; lia.
Qed.

Lemma extractTextFromPdf_progress_witness :
  let pdf := [["Processo"; "1001821-85.2024.8.26.0291"]; []; ["Foro"]] in
  let s := pfe_start "a.pdf" direct_upload (initial_state []) in
  still_wanted direct_upload s = true ∧ pdf ≠ []
  ∧ (extractTextFromPdf pdf).2 = [(1, 3); (2, 3); (3, 3)]%Z
  ∧ progress (foldl (fun s0 call => onProgress direct_upload call s0) s
                (extractTextFromPdf pdf).2)
    = {| current := 3; total := 3; phase := Phase.extracting |}.
Proof.
  intros pdf s.
  assert (Hw : still_wanted direct_upload s = true)
    by (vm_compute; reflexivity).
  assert (Hne : pdf ≠ []) by done.
  split; [exact Hw|]. split; [exact Hne|]. split; [reflexivity|].
  destruct (extractTextFromPdf_progress pdf) as (_ & _ & H).
  destruct (H direct_upload s) as [_ H']. by rewrite (H' Hw Hne).
Defined.

(** X12.  A document whose pages carry no text, or only white-space
    text items (a scan without text layer), gives a text that is empty
    after trimming; a workspace task still wanted at its checkpoint
    then shows the "empty part" message, marks its item [error] and
    does not call the extraction collaborator, and a direct upload
    shows the "empty file" message. *)
Theorem textless_document_is_reported (pdf : list (list string)) :
  Forall (Forall (fun item => trim_is_empty item = true)) pdf →
  let rawText := (extractTextFromPdf pdf).1 in
  trim_is_empty rawText = true
  ∧ (∀ file cl s,
       still_wanted direct_upload s = true →
       (awf_after_extraction file cl (Resolved rawText) s).2 = None
       ∧ error (awf_after_extraction file cl (Resolved rawText) s).1
         = Some empty_part_message
       ∧ workspace (awf_after_extraction file cl (Resolved rawText) s).1
         = map_file (WorkspaceFile.id file)
             (WorkspaceFile.with_status Status.error) (workspace s))
  ∧ (∀ processId s,
       still_wanted processId s = true →
       (pfe_after_extraction processId (Resolved rawText) s).2 = None
       ∧ error (pfe_after_extraction processId (Resolved rawText) s).1
         = Some empty_file_message).
Proof.
  intros Hblank. cbn zeta.
  assert (Hempty : trim_is_empty (extractTextFromPdf pdf).1 = true)
    by (by apply extract_loop_blank).
  split_and!; [done| |].
  - intros file cl s Hw. unfold awf_after_extraction.
    rewrite Hw, Hempty. simpl.
    destruct (still_wanted_awf_catch_workspace file empty_part_message s Hw)
      as (Hws & Herr & _).
    unfold awf_finally.
    destruct (c_isSequentialRunning cl); cbn; by rewrite Hws, Herr.
  - intros processId s Hw. unfold pfe_after_extraction.
    rewrite Hw, Hempty. simpl. split; [done|].
    unfold pfe_finally, pfe_catch. rewrite Hw.
    change (still_wanted processId (set_error ?e s))
      with (still_wanted processId s). by rewrite Hw.
Qed.

Lemma textless_document_is_reported_witness :
  let pdf := [[]; [" "; ""]; []] in
  let s := pfe_start "scan.pdf" direct_upload (initial_state []) in
  Forall (Forall (fun item => trim_is_empty item = true)) pdf
  ∧ still_wanted direct_upload s = true
  ∧ error (pfe_after_extraction direct_upload
             (Resolved (extractTextFromPdf pdf).1) s).1
    = Some empty_file_message.
Proof.
  intros pdf s.
  assert (Hb : Forall (Forall (fun item => trim_is_empty item = true)) pdf)
    by (repeat constructor).
  assert (Hw : still_wanted direct_upload s = true)
    by (vm_compute; reflexivity).
  split; [exact Hb|]. split; [exact Hw|].
  destruct (textless_document_is_reported pdf Hb) as (_ & _ & H).
  exact (proj2 (H direct_upload s Hw)).
Defined.

(** ** The simulated progress *)

Lemma simulated_tick_bounds prev r :
  (0 ≤ r ≤ 4)%Z → (0 ≤ prev ≤ 96)%Z →
  (prev ≤ simulated_tick prev r ≤ 96)%Z
  ∧ (prev < 92 → prev < simulated_tick prev r)%Z
  ∧ (92 ≤ prev → simulated_tick prev r = prev)%Z.
Proof.
  intros Hr Hp. unfold simulated_tick.
  destruct (92 <=? prev)%Z eqn:Hc; [apply Z.leb_le in Hc | apply Z.leb_gt in Hc];
    lia.
Qed.

Lemma simulated_fold_bounds rs prev :
  Forall (fun r => (0 ≤ r ≤ 4)%Z) rs → (0 ≤ prev ≤ 96)%Z →
  (prev ≤ foldl simulated_tick prev rs ≤ 96)%Z
  ∧ (92 ≤ prev → foldl simulated_tick prev rs = prev)%Z
  ∧ (Z.min 92 (prev + Z.of_nat (length rs))
     ≤ foldl simulated_tick prev rs)%Z.
Proof.
  intros Hrs. revert prev.
  induction Hrs as [|r rs Hr _ IH]; intros prev Hp; simpl; [lia|].
  destruct (simulated_tick_bounds prev r Hr Hp) as (Hb & Hlt & Hge).
  destruct (IH (simulated_tick prev r) ltac:(lia)) as (IH1 & IH2 & IH3).
  split; [lia|]. split.
  - intros H92. rewrite (Hge H92). rewrite Hge in IH2 by done. auto.
  - destruct (decide (prev < 92)%Z) as [Hl|Hl]; [specialize (Hlt Hl)|]; lia.
Qed.

(** X13.  The simulated percentage of the analysing phase starts at 0,
    never decreases, never exceeds 96 (so it stays below 100 until the
    phase ends), stops moving once it has reached 92, and has reached
    92 after at most 92 ticks, whatever the random increments. *)
Theorem simulated_progress_capped (rs rs' : list Z) :
  Forall (fun r => (0 ≤ r ≤ 4)%Z) rs →
  Forall (fun r => (0 ≤ r ≤ 4)%Z) rs' →
  (0 ≤ simulated_run rs ≤ 96)%Z
  ∧ (simulated_run rs ≤ simulated_run (rs ++ rs'))%Z
  ∧ ((92 ≤ simulated_run rs)%Z → simulated_run (rs ++ rs') = simulated_run rs)
  ∧ (92 ≤ length rs → (92 ≤ simulated_run rs)%Z).
Proof.
  intros Hrs Hrs'. unfold simulated_run. rewrite foldl_app.
  destruct (simulated_fold_bounds rs 0%Z Hrs ltac:(lia)) as (H1 & _ & H3).
  destruct (simulated_fold_bounds rs' (foldl simulated_tick 0%Z rs) Hrs'
              ltac:(lia)) as (H1' & H2' & _).
  split; [lia|]. split; [lia|]. split; [exact H2' | lia].
Qed.

Lemma simulated_progress_capped_witness :
  Forall (fun r => (0 ≤ r ≤ 4)%Z) (replicate 30 4%Z)
  ∧ Forall (fun r => (0 ≤ r ≤ 4)%Z) [0%Z; 3%Z]
  ∧ simulated_run (replicate 30 4%Z) = 95%Z
  ∧ simulated_run (replicate 30 4%Z ++ [0; 3]%Z) = 95%Z.
Proof.
  assert (H1 : Forall (fun r => (0 ≤ r ≤ 4)%Z) (replicate 30 4%Z))
    by (apply Forall_replicate; lia).
  assert (H2 : Forall (fun r => (0 ≤ r ≤ 4)%Z) [0%Z; 3%Z])
    by (repeat constructor; lia).
  split; [exact H1|]. split; [exact H2|].
  assert (H95 : simulated_run (replicate 30 4%Z) = 95%Z) by reflexivity.
  split; [exact H95|].
  destruct (simulated_progress_capped _ _ H1 H2) as (_ & _ & H & _).
  rewrite H; [exact H95 | rewrite H95; lia].
Defined.

(** ** The venue selections *)

Lemma Set_delete_length (x : string) (s : list string) :
  NoDup s → x ∈ s → S (length (Set_delete x s)) = length s.
Proof.
  unfold Set_delete. induction 1 as [|y s Hy Hnd IH]; intros Hin;
    [by apply elem_of_nil in Hin|].
  rewrite filter_cons. destruct (decide (y = x)) as [->|Hne].
  - rewrite decide_False by (intros Hc; by apply Hc). simpl. f_equal.
    clear IH Hin Hnd. induction s as [|z s IH]; [done|].
    apply not_elem_of_cons in Hy as [Hz Hy].
    rewrite filter_cons_True by done. simpl. f_equal. by apply IH.
  - rewrite decide_True by done. simpl. f_equal. apply IH.
    apply elem_of_cons in Hin as [->|]; done.
Qed.

(** X14.  Toggling a venue flips its membership in the selection and
    no other; the selection stays free of repetitions.  Toggling twice
    gives back the same members, and the same count; the iteration
    order (which is the order of the venues in a consolidated export)
    is the original one when the venue was not selected, whereas a
    venue that was selected moves to the end. *)
Theorem toggleForoSelection_twice (foro : string) (sel : list string) :
  NoDup sel →
  let sel1 := toggleForoSelection foro sel in
  let sel2 := toggleForoSelection foro sel1 in
  NoDup sel1 ∧ NoDup sel2
  ∧ (∀ x, x ∈ sel1 ↔ (x ≠ foro ∧ x ∈ sel) ∨ (x = foro ∧ foro ∉ sel))
  ∧ (∀ x, x ∈ sel2 ↔ x ∈ sel)
  ∧ length sel2 = length sel
  ∧ (foro ∉ sel → sel2 = sel)
  ∧ (foro ∈ sel → sel2 = Set_delete foro sel ++ [foro]).
Proof.
  intros Hnd. cbn zeta. unfold toggleForoSelection, Set_add, Set_has.
  assert (Hdel : ∀ l : list string, foro ∉ Set_delete foro l).
  { intros l Hin. apply list_elem_of_filter in Hin as [Hne _]. by apply Hne. }
  assert (Hid : ∀ l : list string, foro ∉ l → Set_delete foro l = l).
  { intros l Hl. unfold Set_delete. induction l as [|y l IH]; [done|].
    apply not_elem_of_cons in Hl as [Hy Hl].
    rewrite filter_cons_True by done. f_equal. by apply IH. }
  destruct (decide (foro ∈ sel)) as [Hin|Hnin].
  - rewrite (bool_decide_eq_true_2 _ Hin).
    rewrite (bool_decide_eq_false_2 _ (Hdel sel)).
    assert (Hnd1 : NoDup (Set_delete foro sel)) by (by apply NoDup_filter).
    split_and!; try done.
    + apply NoDup_app. split_and!; [done| |apply NoDup_singleton].
      intros x Hx ->%list_elem_of_singleton. by apply (Hdel sel).
    + intros x. unfold Set_delete. rewrite list_elem_of_filter. naive_solver.
    + intros x. rewrite elem_of_app, list_elem_of_singleton.
      unfold Set_delete. rewrite list_elem_of_filter.
      destruct (decide (x = foro)) as [->|]; naive_solver.
    + rewrite length_app. simpl.
      pose proof (Set_delete_length foro sel Hnd Hin). lia.
  - rewrite (bool_decide_eq_false_2 _ Hnin).
    assert (Hin1 : foro ∈ sel ++ [foro])
      by (apply elem_of_app; right; by apply list_elem_of_singleton).
    rewrite (bool_decide_eq_true_2 _ Hin1).
    assert (Hback : Set_delete foro (sel ++ [foro]) = sel).
    { unfold Set_delete. rewrite filter_app.
      rewrite (filter_cons_False _ foro) by (intros Hc; by apply Hc).
      rewrite filter_nil, app_nil_r. by apply Hid. }
    rewrite Hback. split_and!; try done.
    + apply NoDup_app. split_and!; [done| |apply NoDup_singleton].
      by intros x Hx ->%list_elem_of_singleton.
    + intros x. rewrite elem_of_app, list_elem_of_singleton.
      destruct (decide (x = foro)) as [->|]; naive_solver.
Qed.

Lemma toggleForoSelection_twice_witness :
  let sel := ["Jaboticabal"; "Ribeirão Preto"; "Sertãozinho"] in
  NoDup sel
  ∧ toggleForoSelection "Jaboticabal" (toggleForoSelection "Jaboticabal" sel)
    = ["Ribeirão Preto"; "Sertãozinho"; "Jaboticabal"]
  ∧ ∀ x, x ∈ toggleForoSelection "Jaboticabal"
               (toggleForoSelection "Jaboticabal" sel) ↔ x ∈ sel.
Proof.
  intros sel.
  assert (Hnd : NoDup sel) by (subst sel; compute_done).
  split; [exact Hnd|]. split; [vm_compute; reflexivity|].
  pose proof (toggleForoSelection_twice "Jaboticabal" sel Hnd) as H.
  cbn zeta in H. destruct H as (_ & _ & _ & H & _). exact H.
Defined.

(** ** An undisturbed batch *)

Lemma step_extraction_settled σ n t r s' ts :
  pending σ !! n = Some t → settle_extraction t r (app σ) = Some (s', ts) →
  step σ (ExtractionSettled n r)
  = {| app := s'; pending := replace_task n ts (pending σ) |}.
Proof. intros Hl Hs. simpl. by rewrite Hl, Hs. Qed.

Lemma step_analysis_settled σ n t r uuid now s' ts :
  pending σ !! n = Some t →
  settle_analysis t r uuid now (app σ) = Some (s', ts) →
  step σ (AnalysisSettled n r uuid now)
  = {| app := s'; pending := replace_task n ts (pending σ) |}.
Proof. intros Hl Hs. simpl. by rewrite Hl, Hs. Qed.

Lemma awf_start_wanted file s :
  still_wanted direct_upload (awf_start file s) = true.
Proof.
  unfold awf_start, update_file.
  change (still_wanted direct_upload
            (set_active (WorkspaceFile.id file) true
               (set_active direct_upload true
                  (set_toolMode ToolMode.extract s))) = true).
  rewrite !still_wanted_set_active. by repeat case_decide.
Qed.

Lemma mark_completed_after_processing i grouped ws :
  map_file i (mark_completed grouped) (map_file i mark_processing ws)
  = map_file i (mark_completed grouped) ws.
Proof.
  unfold map_file. rewrite <- list_fmap_compose. apply list_fmap_ext.
  intros n f _. simpl. destruct f as [fid nm bl pc st sel res]. simpl.
  destruct (decide (fid = i)) as [Hi|Hi].
  - rewrite (bool_decide_eq_true_2 _ Hi). simpl.
    by rewrite (bool_decide_eq_true_2 _ Hi).
  - rewrite (bool_decide_eq_false_2 _ Hi). simpl.
    by rewrite (bool_decide_eq_false_2 _ Hi).
Qed.

Lemma batch_item_done file cl a s :
  still_wanted direct_upload s = true → answer_ok a →
  let s1 := set_progress
              {| current := 0; total := 0; phase := Phase.analyzing |} s in
  let s2 := awf_after_analysis file cl (Resolved (a_extracted a))
              (a_uuid a) (a_now a) s1 in
  awf_after_extraction file cl (Resolved (a_text a)) s = (s1, Some (a_text a))
  ∧ workspace s2
    = map_file (WorkspaceFile.id file) (mark_completed (a_grouped a))
        (workspace s)
  ∧ history s2 = answer_item cl file a :: history s
  ∧ isBatchStopped s2 = isBatchStopped s
  ∧ error s2 = error s.
Proof.
  intros Hw [Htext Hg]. cbn zeta. split.
  - unfold awf_after_extraction. by rewrite Hw, Htext.
  - unfold awf_after_analysis.
    change (still_wanted direct_upload (set_progress ?p s))
      with (still_wanted direct_upload s).
    rewrite Hw, Hg. unfold awf_finally.
    by destruct (c_isSequentialRunning cl).
Qed.

Lemma run_answers_cons σ a answers :
  run σ (concat (answer_events <$> a :: answers))
  = run (step (step σ (ExtractionSettled 0 (Resolved (a_text a))))
           (AnalysisSettled 0 (Resolved (a_extracted a)) (a_uuid a)
              (a_now a)))
        (concat (answer_events <$> answers)).
Proof. reflexivity. Qed.

Lemma step_answer file cl a batch σ :
  pending σ = [WorkspaceTask file cl AwaitExtractText batch] →
  still_wanted direct_upload (app σ) = true → answer_ok a →
  step (step σ (ExtractionSettled 0 (Resolved (a_text a))))
       (AnalysisSettled 0 (Resolved (a_extracted a)) (a_uuid a) (a_now a))
  = {| app :=
         (after_return cl batch
            (awf_after_analysis file cl (Resolved (a_extracted a))
               (a_uuid a) (a_now a)
               (set_progress
                  {| current := 0; total := 0; phase := Phase.analyzing |}
                  (app σ)))).1;
       pending :=
         (after_return cl batch
            (awf_after_analysis file cl (Resolved (a_extracted a))
               (a_uuid a) (a_now a)
               (set_progress
                  {| current := 0; total := 0; phase := Phase.analyzing |}
                  (app σ)))).2 |}.
Proof.
  intros Hp Hw Ha.
  destruct (batch_item_done file cl a (app σ) Hw Ha) as (Hext & _).
  rewrite (step_extraction_settled σ 0 _ _ _ _
             ltac:(by rewrite Hp)
             ltac:(by unfold settle_extraction; rewrite Hext)).
  rewrite Hp.
  erewrite (step_analysis_settled _ 0); [|done|cbn [app]; unfold settle_analysis;
                                          apply f_equal, surjective_pairing].
  unfold replace_task. cbn [pending take drop Datatypes.app].
  by rewrite app_nil_r.
Qed.

Lemma awf_start_isBatchStopped file s :
  isBatchStopped (awf_start file s) = isBatchStopped s.
Proof. reflexivity. Qed.

Lemma awf_start_history file s : history (awf_start file s) = history s.
Proof. reflexivity. Qed.

Lemma batch_items_run cl (rest : list WorkspaceFile.t) :
  ∀ file a answers σ ws hist,
    pending σ = [WorkspaceTask file cl AwaitExtractText (Some rest)] →
    still_wanted direct_upload (app σ) = true →
    isBatchStopped (app σ) = false →
    error (app σ) = None →
    workspace (app σ) = map_file (WorkspaceFile.id file) mark_processing ws →
    history (app σ) = hist →
    length answers = length rest → Forall answer_ok (a :: answers) →
    let σ' := run σ (concat (answer_events <$> a :: answers)) in
    pending σ' = []
    ∧ workspace (app σ') = complete_all (file :: rest) (a :: answers) ws
    ∧ history (app σ')
      = rev (zip_with (answer_item cl) (file :: rest) (a :: answers)) ++ hist
    ∧ isSequentialRunning (app σ') = false
    ∧ loading (app σ') = false
    ∧ progress (app σ') = progress_idle
    ∧ error (app σ') = None.
Proof.
  induction rest as [|next rest IH];
    intros file a answers σ ws hist Hp Hw Hb Herr Hws Hh Hlen Hok;
    apply Forall_cons in Hok as [Ha Hok];
    destruct (batch_item_done file cl a (app σ) Hw Ha)
      as (_ & Hws2 & Hh2 & Hb2 & Herr2);
    cbn zeta in Hws2, Hh2, Hb2, Herr2;
    cbn zeta; rewrite run_answers_cons, (step_answer file cl a _ σ Hp Hw Ha);
    unfold after_return, batch_loop.
  - destruct answers; [|done]. cbn [fst snd batch_task].
    change (concat (answer_events <$> [])) with (@nil Event).
    unfold run. cbn [foldl pending app]. unfold batch_end.
    split_and!; try done.
    + change (workspace (set_progress ?p (set_loading ?l
                (set_isSequentialRunning ?r ?s)))) with (workspace s).
      by rewrite Hws2, Hws, mark_completed_after_processing.
    + change (history (set_progress ?p (set_loading ?l
                (set_isSequentialRunning ?r ?s)))) with (history s).
      by rewrite Hh2, Hh.
    + change (error (set_progress ?p (set_loading ?l
                (set_isSequentialRunning ?r ?s)))) with (error s).
      by rewrite Herr2.
  - destruct answers as [|a' answers]; [done|].
    rewrite Hb2, Hb. cbn [fst snd batch_task].
    match goal with |- context [run ?σ2 _] =>
      destruct (IH next a' answers σ2
                  (map_file (WorkspaceFile.id file)
                     (mark_completed (a_grouped a)) ws)
                  (answer_item cl file a :: hist))
        as (H1 & H2 & H3 & H4 & H5 & H6 & H7)
    end; cbn [app pending]; try done.
    + apply awf_start_wanted.
    + rewrite awf_start_isBatchStopped. by rewrite Hb2.
    + rewrite awf_start_workspace. f_equal.
      by rewrite Hws2, Hws, mark_completed_after_processing.
    + rewrite awf_start_history. by rewrite Hh2, Hh.
    + simpl in Hlen. lia.
    + split_and!; try done.
      rewrite H3. cbn [zip_with rev].
      by rewrite <- (app_assoc _ [answer_item cl file a] hist).
Qed.

Lemma complete_all_done (files : list WorkspaceFile.t) :
  ∀ (answers : list Answer) (ws : list WorkspaceFile.t),
    length answers = length files →
    ∀ f, f ∈ complete_all files answers ws →
         WorkspaceFile.status f = Status.completed
         ∨ (f ∈ ws ∧ WorkspaceFile.id f ∉ WorkspaceFile.id <$> files).
Proof.
  unfold complete_all.
  induction files as [|file files IH]; intros answers ws Hlen f Hf.
  - right. destruct answers; [|done]. split; [done|]. apply not_elem_of_nil.
  - destruct answers as [|a answers]; [done|]. cbn [zip zip_with foldl] in Hf.
    destruct (IH answers _ ltac:(simpl in Hlen; lia) f Hf) as [H|[Hin Hid]];
      [by left|].
    unfold map_file in Hin. apply list_elem_of_fmap in Hin as (g & -> & Hg).
    cbn [fst snd] in *. case_bool_decide as Hi.
    + by left.
    + right. split; [done|]. rewrite fmap_cons. apply not_elem_of_cons.
      by split.
Qed.

(** X15.  A batch nobody disturbs: from a click on "Analisar Selecionados"
    with no batch running and no task pending, when the collaborators
    answer every selected file in turn with a text that is not blank and
    a result that groups, the batch ends with no task pending; every
    selected file was marked completed with its own results, in the order
    of the workspace; the history received one item per file, the last
    file first; the batch flag, the loading flag and the progress are
    reset, no error is shown, and nothing is left to select for a
    further batch. *)
Theorem batch_run_completes_in_order σ (answers : list Answer) :
  pending σ = [] →
  isSequentialRunning (app σ) = false →
  selectedFiles (app σ) ≠ [] →
  length answers = length (selectedFiles (app σ)) →
  Forall answer_ok answers →
  let files := selectedFiles (app σ) in
  let σ' := run σ (ClickBatch :: concat (answer_events <$> answers)) in
  pending σ' = []
  ∧ workspace (app σ') = complete_all files answers (workspace (app σ))
  ∧ history (app σ')
    = rev (zip_with (answer_item (closure_of (app σ))) files answers)
      ++ history (app σ)
  ∧ isSequentialRunning (app σ') = false
  ∧ loading (app σ') = false
  ∧ progress (app σ') = progress_idle
  ∧ error (app σ') = None
  ∧ selectedFiles (app σ') = [].
Proof.
  intros Hp Hrun Hsel Hlen Hok files σ'.
  assert (Hstep : step σ ClickBatch
                  = {| app := (analyzeBatchSequential (app σ)).1;
                       pending := batch_task (closure_of (app σ))
                                    (analyzeBatchSequential (app σ)).2 |}).
  { cbn [step]. rewrite Hp.
    by destruct (analyzeBatchSequential (app σ)). }
  subst σ'. unfold run. cbn [foldl]. rewrite Hstep. clear Hstep.
  unfold analyzeBatchSequential.
  rewrite (bool_decide_eq_false_2 _ Hsel), Hrun. cbn [orb].
  fold files in Hlen |- *.
  destruct files as [|file rest] eqn:Hfiles; [done|].
  destruct answers as [|a answers]; [done|].
  unfold batch_loop.
  change (isBatchStopped
            (set_isSequentialRunning true (set_isBatchStopped false (app σ))))
    with false.
  cbn [fst snd batch_task].
  match goal with |- context [foldl step ?σ1 _] =>
    pose proof (batch_items_run (closure_of (app σ)) rest file a answers σ1
                  (workspace (app σ)) (history (app σ))) as H
  end.
  cbn zeta in H. unfold run in H.
  destruct H as (H1 & H2 & H3 & H4 & H5 & H6 & H7); try done.
  - apply awf_start_wanted.
  - simpl in Hlen. lia.
  - split_and!; try done.
    match goal with |- selectedFiles ?s = [] =>
      destruct (selectedFiles s) as [|f l] eqn:E; [done|];
      assert (Hin : f ∈ selectedFiles s) by (rewrite E; left)
    end.
    exfalso. clear E. unfold selectedFiles in Hin.
    apply list_elem_of_filter in Hin as [[Hs Hc] Hf]. rewrite H2 in Hf.
    destruct (complete_all_done (file :: rest) (a :: answers)
                (workspace (app σ)) Hlen f Hf) as [Hd|[Hin Hid]]; [done|].
    apply Hid, list_elem_of_fmap. exists f. split; [done|].
    rewrite <- Hfiles. unfold files, selectedFiles.
    apply list_elem_of_filter. by split.
Qed.

Lemma batch_run_completes_in_order_witness :
  let σ := run (initial_system []) two_parts in
  let answers :=
    [ {| a_text := "texto"; a_extracted := one_process;
         a_grouped := [("Jaboticabal", ["1001821-85.2024.8.26.0291"])];
         a_uuid := "u1"; a_now := 0 |};
      {| a_text := "outro texto"; a_extracted := {| processes := [] |};
         a_grouped := []; a_uuid := "u2"; a_now := 1 |} ] in
  let σ' := run σ (ClickBatch :: concat (answer_events <$> answers)) in
  (pending σ = [] ∧ isSequentialRunning (app σ) = false
   ∧ selectedFiles (app σ) ≠ []
   ∧ length answers = length (selectedFiles (app σ))
   ∧ Forall answer_ok answers)
  ∧ HistoryItem.name <$> history (app σ')
    = ["Parte 2 (Págs 2-2)"; "Parte 1 (Págs 1-1)"]
  ∧ selectedFiles (app σ') = [].
Proof.
  intros σ answers σ'.
  assert (Hp : pending σ = []) by (vm_compute; reflexivity).
  assert (Hr : isSequentialRunning (app σ) = false)
    by (vm_compute; reflexivity).
  assert (Hs : selectedFiles (app σ) ≠ []) by (vm_compute; discriminate).
  assert (Hl : length answers = length (selectedFiles (app σ)))
    by (vm_compute; reflexivity).
  assert (Hok : Forall answer_ok answers)
    by (repeat (constructor; [split; vm_compute; reflexivity|]);
        constructor).
  split; [by repeat split|].
  pose proof (batch_run_completes_in_order σ answers Hp Hr Hs Hl Hok) as H.
  cbn zeta in H. destruct H as (_ & _ & H3 & _ & _ & _ & _ & H8).
  split; [|exact H8].
  subst σ'. rewrite H3. vm_compute. reflexivity.
Defined.

(** ** The consolidated view *)

Lemma Set_add_spec (x : string) (s : list string) :
  NoDup s → NoDup (Set_add x s) ∧ ∀ y, y ∈ Set_add x s ↔ y ∈ s ∨ y = x.
Proof.
  intros Hnd. unfold Set_add, Set_has. case_bool_decide as Hx.
  - split; [done|]. intros y. naive_solver.
  - split.
    + apply NoDup_app. split_and!; [done| |apply NoDup_singleton].
      intros y Hy ->%list_elem_of_singleton. done.
    + intros y. rewrite elem_of_app, list_elem_of_singleton. done.
Qed.

Lemma add_all_spec (ps : list string) :
  ∀ s : list string,
    NoDup s → NoDup (add_all ps s) ∧ ∀ y, y ∈ add_all ps s ↔ y ∈ s ∨ y ∈ ps.
Proof.
  unfold add_all. induction ps as [|p ps IH]; intros s Hnd; cbn [foldl].
  - split; [done|]. intros y. rewrite elem_of_nil. naive_solver.
  - destruct (Set_add_spec p s Hnd) as [Hnd1 Hin1].
    destruct (IH _ Hnd1) as [Hnd2 Hin2]. split; [done|].
    intros y. rewrite Hin2, Hin1, elem_of_cons. naive_solver.
Qed.

Lemma global_get_None (m : GlobalForos) k :
  global_get m k = None ↔ k ∉ m.*1.
Proof.
  induction m as [|[k' ix] m IH]; csimpl.
  - split; [intros _; apply not_elem_of_nil|done].
  - rewrite not_elem_of_cons. case_bool_decide; naive_solver.
Qed.

Lemma global_get_app (m m' : GlobalForos) k :
  global_get (m ++ m') k
  = match global_get m k with Some ix => Some ix | None => global_get m' k end.
Proof.
  induction m as [|[k' ix] m IH]; [done|]. simpl. by case_bool_decide.
Qed.

Lemma global_get_update (m : GlobalForos) k f k' :
  global_get (global_update m k f) k'
  = if bool_decide (k = k') then f <$> global_get m k' else global_get m k'.
Proof.
  induction m as [|[k0 ix] m IH]; simpl.
  - by case_bool_decide.
  - repeat (case_bool_decide; simpl; simplify_eq); done.
Qed.

Lemma global_update_keys (m : GlobalForos) k f :
  (global_update m k f).*1 = m.*1.
Proof.
  induction m as [|[k0 ix] m IH]; [done|]. simpl.
  case_bool_decide; csimpl; by rewrite ?IH.
Qed.

Lemma add_entry_indexes d m e seen :
  inherited e.1 = false → indexes m seen →
  ∃ m', add_entry d m e = Normal m' ∧ indexes m' (seen ++ [(d, e.1, e.2)]).
Proof.
  destruct e as [k ps]. cbn [fst snd]. intros Hk [Hnd Hinv].
  unfold add_entry. cbn [fst snd].
  assert (Hseen : ∀ d' k' ps',
             (d', k', ps') ∈ seen ++ [(d, k, ps)]
             ↔ (d', k', ps') ∈ seen ∨ (d' = d ∧ k' = k ∧ ps' = ps)).
  { intros. rewrite elem_of_app, list_elem_of_singleton. naive_solver. }
  destruct (global_get m k) as [ix|] eqn:E.
  - eexists. split; [done|]. split; [by rewrite global_update_keys|].
    intros k'. rewrite global_get_update. case_bool_decide as Hkk.
    + subst k'. rewrite E. csimpl. specialize (Hinv k). rewrite E in Hinv.
      destruct Hinv as (N1 & N2 & Hp & Hd).
      destruct (add_all_spec ps _ N1) as [N1' Hp'].
      destruct (Set_add_spec d _ N2) as [N2' Hd'].
      split_and!; [done|done| |].
      * intros p. rewrite Hp', Hp. setoid_rewrite Hseen. naive_solver.
      * intros d'. rewrite Hd', Hd. setoid_rewrite Hseen. naive_solver.
    + specialize (Hinv k'). destruct (global_get m k') as [ix'|].
      * destruct Hinv as (N1 & N2 & Hp & Hd). split_and!; [done|done| |].
        -- intros p. rewrite Hp. setoid_rewrite Hseen. naive_solver.
        -- intros d'. rewrite Hd. setoid_rewrite Hseen. naive_solver.
      * intros d' ps'. rewrite Hseen. naive_solver.
  - rewrite Hk. eexists. split; [done|]. split.
    + rewrite fmap_app. apply NoDup_app. split_and!; [done| |apply NoDup_singleton].
      intros y Hy ->%list_elem_of_singleton. by apply global_get_None in E.
    + intros k'. rewrite global_get_app. specialize (Hinv k').
      destruct (global_get m k') as [ix'|] eqn:E'.
      * assert (k' ≠ k) by congruence.
        destruct Hinv as (N1 & N2 & Hp & Hd). split_and!; [done|done| |].
        -- intros p. rewrite Hp. setoid_rewrite Hseen. naive_solver.
        -- intros d'. rewrite Hd. setoid_rewrite Hseen. naive_solver.
      * simpl. case_bool_decide as Hkk.
        -- subst k'. unfold index_entry. cbn [procesos docs].
           destruct (add_all_spec ps [] (NoDup_nil_2 (A:=string))) as [N1' Hp'].
           destruct (Set_add_spec d [] (NoDup_nil_2 (A:=string))) as [N2' Hd'].
           split_and!; [done|done| |].
           ++ intros p. rewrite Hp'. setoid_rewrite Hseen.
              rewrite elem_of_nil. naive_solver.
           ++ intros d'. rewrite Hd'. setoid_rewrite Hseen.
              rewrite elem_of_nil. naive_solver.
        -- intros d' ps'. rewrite Hseen. naive_solver.
Qed.

Lemma insert_index_Permutation e (l : list (N * string)) :
  insert_index e l ≡ₚ e :: l.
Proof.
  induction l as [|e' l IH]; [done|]. simpl. case_match; [done|].
  rewrite IH. apply Permutation_swap.
Qed.

Lemma sort_index_Permutation (l : list (N * string)) : sort_index l ≡ₚ l.
Proof.
  unfold sort_index. induction l as [|e l IH]; [done|]. simpl.
  by rewrite insert_index_Permutation, IH.
Qed.

Lemma elem_of_own_property_order k (ks : list string) :
  k ∈ own_property_order ks ↔ k ∈ ks.
Proof.
  unfold own_property_order, index_keys.
  rewrite elem_of_app, sort_index_Permutation, list_elem_of_fmap,
    list_elem_of_filter.
  split.
  - intros [([n k'] & -> & Hin)|[_ Hin]]; [|done].
    apply list_elem_of_omap in Hin as (k0 & Hk0 & Heq).
    destruct (array_index k0); simplify_eq/=. done.
  - intros Hin. destruct (array_index k) as [n|] eqn:E; [left|by right].
    exists (n, k). split; [done|]. apply list_elem_of_omap.
    exists k. by rewrite E.
Qed.

Lemma own_get_None (g : GroupedProcesses) k : own_get g k = None ↔ k ∉ g.*1.
Proof.
  induction g as [|[k' vs] g IH]; csimpl.
  - split; [intros _; apply not_elem_of_nil|done].
  - rewrite not_elem_of_cons. case_bool_decide; naive_solver.
Qed.

Lemma elem_of_Object_entries (g : GroupedProcesses) k ps :
  (k, ps) ∈ Object_entries g ↔ own_get g k = Some ps.
Proof.
  unfold Object_entries, Object_keys. rewrite list_elem_of_omap. split.
  - intros (k' & _ & Heq). destruct (own_get g k') eqn:E; by simplify_eq/=.
  - intros Hg. exists k. rewrite Hg. split; [|done].
    apply elem_of_own_property_order.
    destruct (decide (k ∈ g.*1)) as [|Hn]; [done|].
    apply own_get_None in Hn. congruence.
Qed.

Lemma Object_entries_plain (g : GroupedProcesses) :
  Forall (fun k => inherited k = false) g.*1 →
  Forall (fun e => inherited e.1 = false) (Object_entries g).
Proof.
  intros Hg. apply Forall_forall. intros [k ps] Hin.
  apply elem_of_Object_entries in Hin.
  destruct (decide (k ∈ g.*1)) as [Hk|Hn].
  - by apply (proj1 (Forall_forall _ _) Hg).
  - apply own_get_None in Hn. congruence.
Qed.

Lemma forEach_entries_indexes d (es : list (string * list string)) :
  ∀ m seen,
    Forall (fun e => inherited e.1 = false) es → indexes m seen →
    ∃ m', forEach_entries d es m = Normal m'
          ∧ indexes m' (seen ++ ((fun e => (d, e.1, e.2)) <$> es)).
Proof.
  induction es as [|e es IH]; intros m seen Hes Hm.
  - exists m. by rewrite app_nil_r.
  - apply Forall_cons in Hes as [He Hes].
    destruct (add_entry_indexes d m e seen He Hm) as (m1 & Hadd & Hm1).
    destruct (IH m1 _ Hes Hm1) as (m2 & Hrun & Hm2).
    exists m2. cbn [forEach_entries]. rewrite Hadd. split; [done|].
    by rewrite fmap_cons, cons_middle, app_assoc.
Qed.

Lemma forEach_items_indexes (items : list HistoryItem.t) :
  ∀ m seen,
    Forall plain_keys items → indexes m seen →
    ∃ m', forEach_items items m = Normal m'
          ∧ indexes m' (seen ++ (items ≫= item_entries)).
Proof.
  induction items as [|item items IH]; intros m seen Hitems Hm.
  - exists m. by rewrite app_nil_r.
  - apply Forall_cons in Hitems as [Hitem Hitems].
    destruct (forEach_entries_indexes (HistoryItem.name item)
                (Object_entries (HistoryItem.results item)) m seen
                (Object_entries_plain _ Hitem) Hm) as (m1 & Hrun1 & Hm1).
    destruct (IH m1 _ Hitems Hm1) as (m2 & Hrun2 & Hm2).
    exists m2. cbn [forEach_items]. rewrite Hrun1. split; [done|].
    by rewrite bind_cons, app_assoc.
Qed.

Lemma indexes_nil : indexes [] [].
Proof.
  split; [apply NoDup_nil_2|]. intros k d ps. apply not_elem_of_nil.
Qed.

Lemma elem_of_history_entries (history : list HistoryItem.t) d k ps :
  (d, k, ps) ∈ history ≫= item_entries
  ↔ ∃ item, item ∈ history ∧ HistoryItem.name item = d
            ∧ own_get (HistoryItem.results item) k = Some ps.
Proof.
  rewrite list_elem_of_bind. unfold item_entries. split.
  - intros (item & Hin & Hitem).
    apply list_elem_of_fmap in Hin as ([k' ps'] & Heq & Hin).
    simplify_eq/=. exists item. by rewrite <- elem_of_Object_entries.
  - intros (item & Hitem & <- & Hg). exists item. split; [|done].
    apply list_elem_of_fmap. exists (k, ps).
    by rewrite elem_of_Object_entries.
Qed.

(** X16.  The consolidated view.  When no venue key of any history item
    is a name inherited from [Object.prototype], [globalForos] completes
    normally; its venues are distinct; under each venue it holds, each
    without repetition, exactly the case numbers that some history item
    lists under that venue and exactly the names of the history items
    that have that venue; and a venue it does not hold is a venue of no
    history item. *)
Theorem globalForos_collects (history : list HistoryItem.t) :
  Forall plain_keys history →
  ∃ m, globalForos history = Normal m
     ∧ NoDup m.*1
     ∧ ∀ k,
         match global_get m k with
         | Some ix =>
             NoDup (procesos ix) ∧ NoDup (docs ix)
             ∧ (∀ p, p ∈ procesos ix
                     ↔ ∃ item ps,
                         item ∈ history
                         ∧ own_get (HistoryItem.results item) k = Some ps
                         ∧ p ∈ ps)
             ∧ (∀ d, d ∈ docs ix
                     ↔ ∃ item,
                         item ∈ history ∧ HistoryItem.name item = d
                         ∧ own_get (HistoryItem.results item) k ≠ None)
         | None =>
             ∀ item, item ∈ history →
                     own_get (HistoryItem.results item) k = None
         end.
Proof.
  intros Hplain.
  destruct (forEach_items_indexes history [] [] Hplain indexes_nil)
    as (m & Hrun & Hnd & Hm).
  exists m. split; [done|]. split; [done|]. intros k. specialize (Hm k).
  rewrite app_nil_l in Hm.
  destruct (global_get m k) as [ix|].
  - destruct Hm as (N1 & N2 & Hp & Hd). split_and!; [done|done| |].
    + intros p. rewrite Hp. setoid_rewrite elem_of_history_entries.
      naive_solver.
    + intros d. rewrite Hd. setoid_rewrite elem_of_history_entries.
      split.
      * intros (ps & item & Hin & <- & Hg). exists item. by rewrite Hg.
      * intros (item & Hin & <- & Hg).
        destruct (own_get (HistoryItem.results item) k) as [ps|] eqn:E;
          [|done].
        by exists ps, item.
  - intros item Hin.
    destruct (own_get (HistoryItem.results item) k) as [ps|] eqn:E; [|done].
    exfalso. apply (Hm (HistoryItem.name item) ps).
    apply elem_of_history_entries. by exists item.
Qed.

Lemma globalForos_collects_witness :
  let saved :=
    [ {| HistoryItem.id := "b"; HistoryItem.name := "b.pdf";
         HistoryItem.timestamp := 2;
         HistoryItem.results := [("Jaboticabal", ["1"; "2"])] |};
      {| HistoryItem.id := "a"; HistoryItem.name := "a.pdf";
         HistoryItem.timestamp := 1;
         HistoryItem.results :=
           [("Jaboticabal", ["2"; "3"]); ("Matão", ["4"])] |} ] in
  Forall plain_keys saved
  ∧ globalForos saved
    = Normal [ ("Jaboticabal",
                {| procesos := ["1"; "2"; "3"]; docs := ["b.pdf"; "a.pdf"] |});
               ("Matão", {| procesos := ["4"]; docs := ["a.pdf"] |}) ].
Proof.
  intros saved.
  assert (H : Forall plain_keys saved).
  { repeat (constructor; [unfold plain_keys; compute_done|]). constructor. }
  split; [exact H|].
  destruct (globalForos_collects saved H) as (m & Hm & _).
  rewrite Hm. revert Hm. vm_compute. intros Hm. by injection Hm as <-.
Defined.

Lemma Exists_Object_entries (g : GroupedProcesses) :
  Exists (fun e => inherited e.1 = true) (Object_entries g)
  ↔ Exists (fun k => inherited k = true) g.*1.
Proof.
  rewrite !Exists_exists. split.
  - intros ([k ps] & Hin & Hk). exists k. split; [|done].
    apply elem_of_Object_entries in Hin.
    destruct (decide (k ∈ g.*1)) as [|Hn]; [done|].
    apply own_get_None in Hn. congruence.
  - intros (k & Hin & Hk).
    destruct (own_get g k) as [ps|] eqn:E.
    + exists (k, ps). by rewrite elem_of_Object_entries.
    + by apply own_get_None in E.
Qed.

Lemma add_entry_cases d (m : GlobalForos) e :
  Forall (fun k => inherited k = false) m.*1 →
  if inherited e.1 then add_entry d m e = Throw add_of_undefined
  else ∃ m', add_entry d m e = Normal m'
             ∧ Forall (fun k => inherited k = false) m'.*1.
Proof.
  intros Hm. unfold add_entry. destruct (inherited e.1) eqn:He.
  - destruct (global_get m e.1) as [ix|] eqn:E; [|done].
    assert (Hin : e.1 ∈ m.*1).
    { destruct (decide (e.1 ∈ m.*1)) as [|Hn]; [done|].
      apply global_get_None in Hn. congruence. }
    apply (proj1 (Forall_forall _ _) Hm) in Hin. congruence.
  - destruct (global_get m e.1) as [ix|].
    + eexists. split; [done|]. by rewrite global_update_keys.
    + eexists. split; [done|]. rewrite fmap_app. apply Forall_app.
      split; [done|]. by apply Forall_singleton.
Qed.

Lemma forEach_entries_cases d (es : list (string * list string)) :
  ∀ m, Forall (fun k => inherited k = false) m.*1 →
       (∃ m', forEach_entries d es m = Normal m'
              ∧ Forall (fun k => inherited k = false) m'.*1
              ∧ ¬ Exists (fun e => inherited e.1 = true) es)
       ∨ (forEach_entries d es m = Throw add_of_undefined
          ∧ Exists (fun e => inherited e.1 = true) es).
Proof.
  induction es as [|e es IH]; intros m Hm.
  - left. exists m. split_and!; [done|done|]. by intros ?%Exists_nil.
  - cbn [forEach_entries]. pose proof (add_entry_cases d m e Hm) as Hadd.
    destruct (inherited e.1) eqn:He.
    + right. rewrite Hadd. split; [done|]. by apply Exists_cons_hd.
    + destruct Hadd as (m1 & -> & Hm1).
      destruct (IH m1 Hm1) as [(m2 & Hrun & Hm2 & Hno)|[Hrun Hex]].
      * left. exists m2. split_and!; [done|done|].
        rewrite Exists_cons. intros [?|?]; [congruence|done].
      * right. split; [done|]. by apply Exists_cons_tl.
Qed.

Lemma forEach_items_cases (items : list HistoryItem.t) :
  ∀ m, Forall (fun k => inherited k = false) m.*1 →
       (∃ m', forEach_items items m = Normal m'
              ∧ ¬ Exists (fun item => ¬ plain_keys item) items)
       ∨ (forEach_items items m = Throw add_of_undefined
          ∧ Exists (fun item => ¬ plain_keys item) items).
Proof.
  induction items as [|item items IH]; intros m Hm.
  - left. exists m. split; [done|]. by intros ?%Exists_nil.
  - cbn [forEach_items].
    destruct (forEach_entries_cases (HistoryItem.name item)
                (Object_entries (HistoryItem.results item)) m Hm)
      as [(m1 & -> & Hm1 & Hno)|[-> Hex]].
    + rewrite Exists_Object_entries in Hno.
      assert (Hitem : plain_keys item).
      { unfold plain_keys. apply Forall_forall. intros k Hk.
        destruct (inherited k) eqn:E; [|done].
        exfalso. apply Hno, Exists_exists. by exists k. }
      destruct (IH m1 Hm1) as [(m2 & Hrun & Hno2)|[Hrun Hex]].
      * left. exists m2. split; [done|].
        rewrite Exists_cons. intros [?|?]; done.
      * right. split; [done|]. by apply Exists_cons_tl.
    + right. split; [done|]. apply Exists_cons_hd.
      rewrite Exists_Object_entries in Hex.
      apply Exists_exists in Hex as (k & Hk & Hi).
      intros Hp. apply (proj1 (Forall_forall _ _) Hp) in Hk. congruence.
Qed.

Lemma inherited_name_throws (history : list HistoryItem.t) :
  Exists (fun item => ¬ plain_keys item) history →
  globalForos history = Throw add_of_undefined.
Proof.
  intros Hex. unfold globalForos.
  destruct (forEach_items_cases history [] (Forall_nil_2 _))
    as [(m & _ & Hno)|[-> _]]; [by destruct Hno | done].
Qed.

(** X17.  The consolidated view fails exactly on an inherited venue
    name.  [globalForos] ends in the [TypeError] of calling [add] on
    [undefined] exactly when some history item has, among its own venue
    keys, a name every object inherits from [Object.prototype]
    ("constructor", "toString", "__proto__" and the like); it raises
    nothing else. *)
Theorem globalForos_fails_on_inherited_name (history : list HistoryItem.t) :
  (globalForos history = Throw add_of_undefined
   ↔ Exists (fun item => ¬ plain_keys item) history)
  ∧ ∀ x, globalForos history = Throw x → x = add_of_undefined.
Proof.
  unfold globalForos.
  destruct (forEach_items_cases history [] (Forall_nil_2 _))
    as [(m & -> & Hno)|[-> Hex]].
  - split; [split; [done|by intros ?%Hno]|done].
  - split; [done|]. by intros x [= <-].
Qed.

Example globalForos_constructor_throws :
  globalForos
    [ {| HistoryItem.id := "a"; HistoryItem.name := "a.pdf";
         HistoryItem.timestamp := 1;
         HistoryItem.results := [("constructor", ["1"])] |} ]
  = Throw add_of_undefined.
Proof. vm_compute. reflexivity. Qed.

(** ** The history the application builds *)

Lemma own_push_keys (g : GroupedProcesses) k v : (own_push g k v).*1 = g.*1.
Proof.
  induction g as [|[k' vs] g IH]; [done|]. simpl.
  case_bool_decide; csimpl; by rewrite ?IH.
Qed.

Lemma forEach_push_plain (ps : list LegalProcess) :
  ∀ g g' : GroupedProcesses,
    forEach_push ps g = Normal g' →
    Forall (fun k => inherited k = false) g.*1 →
    Forall (fun k => inherited k = false) g'.*1.
Proof.
  induction ps as [|p ps IH]; intros g g' Hrun Hg; simpl in Hrun.
  - by injection Hrun as <-.
  - destruct (push_process g p) as [g1|] eqn:Hpush; [|done].
    apply (IH g1 g' Hrun). unfold push_process in Hpush.
    destruct (own_get g (foro p)).
    + injection Hpush as <-. by rewrite own_push_keys.
    + destruct (inherited (foro p)) eqn:Hi; [done|].
      injection Hpush as <-. rewrite fmap_app. apply Forall_app.
      split; [done|]. by apply Forall_singleton.
Qed.

Lemma groupByForo_plain ps g :
  groupByForo ps = Normal g → Forall (fun k => inherited k = false) g.*1.
Proof.
  rewrite groupByForo_forEach. intros Hrun.
  by apply (forEach_push_plain ps [] g Hrun).
Qed.

Lemma new_history_item_plain uuid now label ps g hist :
  groupByForo ps = Normal g → Forall plain_keys hist →
  Forall plain_keys (new_history_item uuid now label g :: hist).
Proof.
  intros Hg Hh. constructor; [|done]. by apply groupByForo_plain in Hg.
Qed.

Lemma settle_analysis_plain t r uuid now s s' ts :
  settle_analysis t r uuid now s = Some (s', ts) →
  Forall plain_keys (history s) → Forall plain_keys (history s').
Proof.
  intros Hset Hh.
  destruct t as [name processId cl [|raw]
              |name isImage processId cl [|raw]
              |file cl [|raw] batch];
    simpl in Hset; try done.
  - injection Hset as <- <-. unfold pfe_after_analysis.
    repeat case_match;
      rewrite ?pfe_finally_history, ?pfe_catch_history; try done.
    by eapply new_history_item_plain.
  - injection Hset as Hset.
    pose proof (after_return_history cl batch
                  (awf_after_analysis file cl r uuid now s)) as Hr.
    rewrite Hset in Hr. simpl in Hr. rewrite Hr.
    unfold awf_after_analysis.
    repeat case_match;
      rewrite ?awf_finally_history, ?awf_catch_history; try done.
    by eapply new_history_item_plain.
Qed.

Lemma ocr_after_modality_plain name isImage processId r uuid now s :
  Forall plain_keys (history s) →
  Forall plain_keys
    (history (ocr_after_modality name isImage processId r uuid now s)).
Proof.
  intros Hh. unfold ocr_after_modality, ocr_finally, ocr_catch.
  repeat case_match; try done.
  all: by eapply new_history_item_plain.
Qed.

Lemma settle_modality_plain t r uuid now s s' ts :
  settle_modality t r uuid now s = Some (s', ts) →
  Forall plain_keys (history s) → Forall plain_keys (history s').
Proof.
  intros Hset Hh.
  destruct t as [|name isImage processId cl [|raw]|]; simpl in Hset;
    try done.
  injection Hset as <- <-. by apply ocr_after_modality_plain.
Qed.

Lemma step_plain σ e :
  Forall plain_keys (history (app σ)) →
  Forall plain_keys (history (app (step σ e))).
Proof.
  intros Hh. destruct (is_clear e) eqn:Hc.
  - by destruct e.
  - destruct e; try done.
    all: try (destruct (step_history σ _ Hc)
                as [-> | (? & ? & ? & ? & ? & ? & [?|?] & _)]; done).
    + simpl. destruct (pending σ !! n) as [t|]; [|done].
      destruct (settle_analysis t r uuid now (app σ)) as [[s' ts]|] eqn:Hset;
        [|done].
      simpl. by eapply settle_analysis_plain.
    + simpl. destruct (pending σ !! n) as [t|]; [|done].
      destruct (settle_modality t r uuid now (app σ)) as [[s' ts]|] eqn:Hset;
        [|done].
      simpl. by eapply settle_modality_plain.
Qed.

(** X18.  The application never builds a history that breaks the
    consolidated view.  When the history holds no item with an inherited
    venue name (the empty history, for one), no run of events puts one
    in, nor does the completion of an OCR extraction: after any run
    [globalForos] completes normally.  A history that breaks it was
    loaded from storage. *)
Theorem consolidated_view_survives_runs (σ : System) (es : list Event) :
  Forall plain_keys (history (app σ)) →
  Forall plain_keys (history (app (run σ es)))
  ∧ (∃ m, globalForos (history (app (run σ es))) = Normal m)
  ∧ ∀ name isImage processId r uuid now,
      ∃ m, globalForos
             (history (ocr_after_modality name isImage processId r uuid now
                         (app (run σ es))))
           = Normal m.
Proof.
  intros Hh.
  assert (Hrun : Forall plain_keys (history (app (run σ es)))).
  { revert σ Hh. unfold run.
    induction es as [|e es IH]; intros σ Hh; [done|].
    simpl. by apply IH, step_plain. }
  split; [done|]. split.
  - destruct (forEach_items_indexes _ [] [] Hrun indexes_nil) as (m & Hm & _).
    by exists m.
  - intros name isImage processId r uuid now.
    destruct (forEach_items_indexes _ [] []
                (ocr_after_modality_plain name isImage processId r uuid now
                   _ Hrun) indexes_nil) as (m & Hm & _).
    by exists m.
Qed.

Lemma consolidated_view_survives_runs_witness :
  let σ := initial_system [] in
  let es := two_parts ++ [ ClickAnalyze "x";
                           ExtractionSettled 0 (Resolved "texto");
                           AnalysisSettled 0 (Resolved one_process) "u" 0 ] in
  Forall plain_keys (history (app σ))
  ∧ globalForos (history (app (run σ es)))
    = Normal [ ("Jaboticabal",
                {| procesos := ["1001821-85.2024.8.26.0291"];
                   docs := ["Parte 1 (Págs 1-1)"] |}) ].
Proof.
  intros σ es.
  assert (H : Forall plain_keys (history (app σ))) by apply Forall_nil_2.
  split; [exact H|].
  destruct (consolidated_view_survives_runs σ es H) as (_ & (m & Hm) & _).
  rewrite Hm. revert Hm. vm_compute. intros Hm. by injection Hm as <-.
Defined.

(** ** The history effects *)

Lemma as_strings_to_json (l : list string) :
  as_strings (JSON.array (JSON.str <$> l)) = Some l.
Proof. simpl. by apply mapM_fmap_Some. Qed.

Lemma as_results_to_json (g : GroupedProcesses) :
  as_results (results_to_json g) = Some g.
Proof.
  unfold results_to_json, as_results. apply mapM_fmap_Some.
  intros [k vs]. cbn [fst snd]. by rewrite as_strings_to_json.
Qed.

Lemma as_item_to_json (item : HistoryItem.t) :
  as_item (item_to_json item) = Some item.
Proof.
  destruct item as [i n t g]. unfold item_to_json, as_item.
  cbn [HistoryItem.id HistoryItem.name HistoryItem.timestamp
       HistoryItem.results].
  rewrite bool_decide_eq_true_2 by done. by rewrite as_results_to_json.
Qed.

Lemma as_history_to_json (h : list HistoryItem.t) :
  as_history (history_to_json h) = Some h.
Proof.
  unfold history_to_json, as_history. apply mapM_fmap_Some.
  apply as_item_to_json.
Qed.





Section history_persistence.
Variable JSON_parse : string → Completion JSON.t.
Variable JSON_stringify : JSON.t → string.





End history_persistence.



(** A saved history with a venue named like a property of
    [Object.prototype] is lost in the same way: the render raises in
    [globalForos] after the slot has been overwritten. *)
Lemma saved_inherited_venue_crashes_startup
    (JSON_parse : string → Completion JSON.t)
    (JSON_stringify : JSON.t → string) (s : string) (item : HistoryItem.t) :
  s ≠ "" →
  JSON_parse s = Normal (history_to_json [item]) →
  (HistoryItem.results item).*1 = ["constructor"] →
  mount JSON_parse JSON_stringify {[ history_key := s ]}
  = Unmounted add_of_undefined
      {[ history_key := JSON_stringify (history_to_json []) ]}.
Proof.
  intros Hne Hparse Hkeys. unfold mount, load_history_effect.
  rewrite lookup_singleton_eq, Hparse. unfold truthy_string.
  rewrite bool_decide_eq_false_2 by done. cbn [negb].
  assert (Hthrow : globalForos [item] = Throw add_of_undefined).
  { apply inherited_name_throws. apply Exists_cons_hd.
    unfold plain_keys. rewrite Hkeys. intros Hp.
    rewrite Forall_singleton in Hp.
    assert (Hi : inherited "constructor" = true) by (vm_compute; reflexivity).
    congruence. }
  unfold render_history.
  change (history_to_json [item]) with (JSON.array (item_to_json <$> [item]))
    at 1.
  cbn match. rewrite as_history_to_json, Hthrow.
  unfold save_history_effect. by rewrite insert_singleton_eq.
Qed.
